(** * Spatial issue tracker: road-graph import, A* pathfinder and geo-grid cache

    A shallow embedding of three backend programs and the properties
    established about them:

    - [PathfindingService]  (snap endpoints, build adjacency, A* search);
    - [IssueCacheService]   (grid-cell cache in front of the issue table);
    - [importGraph]         (the Overpass import script).

    Conventions of the embedding.

    - A JavaScript [number] is an exact rational ([Q]); [Infinity] only
      occurs as the default of an absent map entry and is written [None].
      Comparisons are the boolean tests [Qle_bool] and [Qltb].
    - A database table is the list of its rows in storage order; a Prisma
      [findMany] without [orderBy] is a [filter] of that list.
    - [Map] and [Set] objects are [gmap] and [gset]; a [Set] whose iteration
      order is observed ([allIssueIds]) is a duplicate-free list.
    - [turf.distance] (great-circle distance in metres) is a parameter
      [heuristic] of the pathfinder; [TinyQueue] is an interface
      ([TinyQueue]) with laws ([TinyQueueLaws]). *)

From Stdlib Require Import QArith Qround Qabs Lqa.
From stdpp Require Import gmap strings list pretty.

(** * Numbers *)

Definition Qltb (a b : Q) : bool := negb (Qle_bool b a).

(** [a < b] where an absent [b] stands for [Infinity]. *)
Definition ltInf (a : Q) (b : option Q) : bool :=
  match b with
  | Some y => Qltb a y
  | None => true
  end.

(** * Database schema (the GraphNode / GraphEdge migration) *)

Module GraphNode.
Record t := mk {
  id : string;
  osmId : Z;          (* TEXT column holding the decimal OSM id *)
  latitude : Q;
  longitude : Q }.
End GraphNode.

Module GraphEdge.
Record t := mk {
  id : string;
  startNodeId : string;
  endNodeId : string;
  distance : Q;
  baseCost : Q;
  penalty : Q }.
End GraphEdge.

Record GraphDb := mkGraphDb {
  graphNode : list GraphNode.t;
  graphEdge : list GraphEdge.t }.

(** * PathfindingService *)

Module PathNode.
Record t := mk { id : string; latitude : Q; longitude : Q }.
End PathNode.

(** [PathEdge] is the full-column select of a GraphEdge row. *)
Abbreviation PathEdge := GraphEdge.t.

Module QueueItem.
Record t := mk { nodeId : string; fScore : Q }.
End QueueItem.

Module Point.
Record t := mk { lat : Q; lng : Q }.
End Point.

Module PathResult.
Record t := mk {
  path : list Point.t;
  totalDistance : Q;
  totalCost : Q;
  estimatedTime : Q }.
End PathResult.

(** One element of an adjacency array. *)
Module Neighbor.
Record t := mk { nodeId : string; cost : Q; distance : Q; edgeId : string }.
End Neighbor.

(** The lines written with [console.log]. *)
Inductive LogLine :=
| LogFinding (startLat startLng endLat endLng : Q)
| LogNoStartOrEnd
| LogStartEnd (startId endId : string)
| LogLoaded (nodes edges : nat)
| LogPathFound (points : nat) (totalDistance estimatedTime : Q)
| LogNoPath (visitedSize : nat).

(** A call either returns or loops forever. *)
Inductive Outcome (A : Type) :=
| Diverges
| Returns (a : A).
Arguments Diverges {A}.
Arguments Returns {A} a.

(** The part of [TinyQueue] that [findPath] uses, ordered by [fScore].
    [tq_items] is the multiset of items a queue holds. *)
Class TinyQueue (T : Type) := {
  tq_new : list QueueItem.t → T;
  tq_push : T → QueueItem.t → T;
  tq_pop : T → option (QueueItem.t * T);
  tq_items : T → list QueueItem.t }.

Record TinyQueueLaws (T : Type) `{TinyQueue T} : Prop := {
  tq_new_items data : tq_items (tq_new data) ≡ₚ data;
  tq_push_items q x : tq_items (tq_push q x) ≡ₚ x :: tq_items q;
  tq_pop_empty q : tq_items q = [] → tq_pop q = None;
  tq_pop_min q :
    tq_items q ≠ [] →
    ∃ x q', tq_pop q = Some (x, q') ∧ tq_items q ≡ₚ x :: tq_items q' ∧
            Forall (λ y, (QueueItem.fScore x <= QueueItem.fScore y)%Q) (tq_items q') }.

(** A queue kept as a plain list; [pop] takes out the leftmost item of
    least [fScore]. *)
Fixpoint extractMin (x : QueueItem.t) (rest : list QueueItem.t)
  : QueueItem.t * list QueueItem.t :=
  match rest with
  | [] => (x, [])
  | y :: rest' =>
      let '(m, r) := extractMin y rest' in
      if Qle_bool (QueueItem.fScore x) (QueueItem.fScore m)
      then (x, rest) else (m, x :: r)
  end.

Definition listPop (q : list QueueItem.t) : option (QueueItem.t * list QueueItem.t) :=
  match q with
  | [] => None
  | x :: rest => Some (extractMin x rest)
  end.

#[export] Instance ListQueue : TinyQueue (list QueueItem.t) := {
  tq_new data := data;
  tq_push q x := q ++ [x];
  tq_pop := listPop;
  tq_items q := q }.

Definition selectPathNode (n : GraphNode.t) : PathNode.t :=
  PathNode.mk (GraphNode.id n) (GraphNode.latitude n) (GraphNode.longitude n).

Definition effectivePenalty (edge : PathEdge) : Q :=
  if Qeq_bool (GraphEdge.penalty edge) 0 then 1 else GraphEdge.penalty edge.

(** The element [buildAdjacencyList] pushes for [edge]. *)
Definition neighborOf (edge : PathEdge) : Neighbor.t :=
  let penalty := effectivePenalty edge in
  Neighbor.mk (GraphEdge.endNodeId edge)
              (GraphEdge.distance edge * penalty)
              (GraphEdge.distance edge)
              (GraphEdge.id edge).

Definition buildAdjacencyList (edges : list PathEdge) : gmap string (list Neighbor.t) :=
  foldl (λ adj edge,
           let adj := if decide (is_Some (adj !! GraphEdge.startNodeId edge))
                      then adj else <[GraphEdge.startNodeId edge := []]> adj in
           <[GraphEdge.startNodeId edge :=
               default [] (adj !! GraphEdge.startNodeId edge) ++ [neighborOf edge]]> adj)
        ∅ edges.

(** Penalised cost of one edge, and paths as chains of edges. *)
Definition edgeCost (edge : PathEdge) : Q :=
  (GraphEdge.distance edge * effectivePenalty edge)%Q.

Inductive isPath (edges : list PathEdge) : string → list PathEdge → string → Prop :=
| isPath_nil u : isPath edges u [] u
| isPath_cons u e p v :
    e ∈ edges → GraphEdge.startNodeId e = u →
    isPath edges (GraphEdge.endNodeId e) p v →
    isPath edges u (e :: p) v.

Definition pathCost (p : list PathEdge) : Q :=
  foldr (λ e acc, edgeCost e + acc)%Q 0%Q p.

Definition pathDistance (p : list PathEdge) : Q :=
  foldr (λ e acc, GraphEdge.distance e + acc)%Q 0%Q p.

(** The nodes a path from [u] goes through, in order. *)
Definition pathNodes (u : string) (p : list PathEdge) : list string :=
  u :: (GraphEdge.endNodeId <$> p).

(** The predecessor links from [n] back to [start] spell the path [p];
    every node before [n] on it has been expanded. *)
Inductive chain (edges : list PathEdge) (start : string)
    (cf : gmap string string) (vis : gset string) : string → list PathEdge → Prop :=
| chain_start : chain edges start cf vis start []
| chain_step n c e p :
    n ≠ start → cf !! n = Some c → c ∈ vis →
    e ∈ edges → GraphEdge.startNodeId e = c → GraphEdge.endNodeId e = n →
    chain edges start cf vis c p →
    n ∉ pathNodes start p →
    chain edges start cf vis n (p ++ [e]).

Definition searchRadii : list Q := [1#1000; 5#1000; 1#100; 5#100]%Q.

(** The [where] clause of the snapping query. *)
Definition withinRadius (lat lng radius : Q) (n : GraphNode.t) : bool :=
  Qle_bool (lat - radius) (GraphNode.latitude n) &&
  Qle_bool (GraphNode.latitude n) (lat + radius) &&
  Qle_bool (lng - radius) (GraphNode.longitude n) &&
  Qle_bool (GraphNode.longitude n) (lng + radius).

Section Pathfinding.

(** [turf.distance(point([lon1, lat1]), point([lon2, lat2]), {units: "meters"})] *)
Variable heuristic : Q → Q → Q → Q → Q.

Context {T : Type} `{TinyQueue T}.

(** The inner loop of [findNearestNode]: state is [(closest, minDist)]. *)
Definition closestStep (lat lng : Q) (acc : option PathNode.t * option Q)
    (node : PathNode.t) : option PathNode.t * option Q :=
  let dist := heuristic lat lng (PathNode.latitude node) (PathNode.longitude node) in
  if ltInf dist acc.2 then (Some node, Some dist) else acc.

Definition closestOf (lat lng : Q) (nodes : list PathNode.t) : option PathNode.t :=
  (foldl (closestStep lat lng) (None, None) nodes).1.

Fixpoint findNearestNodeIn (db : GraphDb) (lat lng : Q) (radii : list Q)
  : option PathNode.t :=
  match radii with
  | [] => None
  | radius :: radii' =>
      let nodes := selectPathNode <$> filter (λ n, withinRadius lat lng radius n = true)
                                            (graphNode db) in
      if decide (0 < length nodes) then closestOf lat lng nodes
      else findNearestNodeIn db lat lng radii'
  end.

Definition findNearestNode (db : GraphDb) (lat lng : Q) : option PathNode.t :=
  findNearestNodeIn db lat lng searchRadii.

(** Distance from the query point to a selected node, and the rows the
    snapping query returns at [radius] (used to state what
    [findNearestNode] returns). *)
Definition distTo (lat lng : Q) (node : PathNode.t) : Q :=
  heuristic lat lng (PathNode.latitude node) (PathNode.longitude node).

Definition foundAt (db : GraphDb) (lat lng radius : Q) : list PathNode.t :=
  selectPathNode <$> filter (λ n, withinRadius lat lng radius n = true) (graphNode db).

Record SearchState := mkSearch {
  openSet : T;
  gScore : gmap string Q;
  cameFrom : gmap string string;
  distanceFrom : gmap string Q;
  visited : gset string }.

Section Search.

Variable nodeMap : gmap string PathNode.t.
Variable adjacency : gmap string (list Neighbor.t).
Variable endNode : PathNode.t.

(** The body of [for (const neighbor of neighbors)]. An absent
    [gScore] entry reads as [Infinity]; [Infinity + cost] is [Infinity],
    which is below nothing, so nothing is recorded in that case. *)
Definition relaxNeighbor (current : string) (st : SearchState)
    (neighbor : Neighbor.t) : SearchState :=
  let currentG := gScore st !! current in
  let tentativeGScore := (λ g, g + Neighbor.cost neighbor)%Q <$> currentG in
  let tentativeDistance :=
    (default 0 (distanceFrom st !! current) + Neighbor.distance neighbor)%Q in
  let neighborG := gScore st !! Neighbor.nodeId neighbor in
  match tentativeGScore with
  | None => st
  | Some tentative =>
      if ltInf tentative neighborG then
        {| cameFrom := <[Neighbor.nodeId neighbor := current]> (cameFrom st);
           gScore := <[Neighbor.nodeId neighbor := tentative]> (gScore st);
           distanceFrom := <[Neighbor.nodeId neighbor := tentativeDistance]> (distanceFrom st);
           openSet :=
             match nodeMap !! Neighbor.nodeId neighbor with
             | Some neighborNode =>
                 let h := heuristic (PathNode.latitude neighborNode)
                                    (PathNode.longitude neighborNode)
                                    (PathNode.latitude endNode)
                                    (PathNode.longitude endNode) in
                 tq_push (openSet st)
                         (QueueItem.mk (Neighbor.nodeId neighbor) (tentative + h)%Q)
             | None => openSet st
             end;
           visited := visited st |}
      else st
  end.

(** [while (nodeId) { ... nodeId = cameFrom.get(nodeId) }]. The empty
    string is falsy. A walk longer than [fuel] has met some key of
    [cameFrom] twice and never ends. *)
Fixpoint reconstructPath (fuel : nat) (cf : gmap string string)
    (nodeId : option string) (path : list Point.t) : Outcome (list Point.t) :=
  match nodeId with
  | None => Returns path
  | Some nid =>
      if decide (nid = "") then Returns path else
      match fuel with
      | O => Diverges
      | S fuel' =>
          let path' := match nodeMap !! nid with
                       | Some node => Point.mk (PathNode.latitude node)
                                               (PathNode.longitude node) :: path
                       | None => path
                       end in
          reconstructPath fuel' cf (cf !! nid) path'
      end
  end.

(** The branch taken when the end node is popped. *)
Definition pathFound (st : SearchState) : Outcome (list LogLine * option PathResult.t) :=
  let totalDistance := default 0%Q (distanceFrom st !! PathNode.id endNode) in
  let totalCost := default 0%Q (gScore st !! PathNode.id endNode) in
  match reconstructPath (S (size (cameFrom st))) (cameFrom st)
                        (Some (PathNode.id endNode)) [] with
  | Diverges => Diverges
  | Returns path =>
      let estimatedTime := (totalDistance / 1000 / 30 * 60)%Q in
      Returns ([LogPathFound (length path) totalDistance estimatedTime],
               Some (PathResult.mk path totalDistance totalCost estimatedTime))
  end.

Definition withOpenSet (st : SearchState) (q : T) : SearchState :=
  {| openSet := q; gScore := gScore st; cameFrom := cameFrom st;
     distanceFrom := distanceFrom st; visited := visited st |}.

Definition markVisited (st : SearchState) (nodeId : string) : SearchState :=
  {| openSet := openSet st; gScore := gScore st; cameFrom := cameFrom st;
     distanceFrom := distanceFrom st; visited := {[nodeId]} ∪ visited st |}.

(** [visited.add(current.nodeId)] and the loop over
    [adjacency.get(current.nodeId) || []]. *)
Definition expandNode (st : SearchState) (current : string) : SearchState :=
  let neighbors := default [] (adjacency !! current) in
  foldl (relaxNeighbor current) (markVisited st current) neighbors.

(** [while (openSet.length > 0) { ... }] followed by the final
    [return null]. *)
Fixpoint searchLoop (fuel : nat) (st : SearchState)
  : Outcome (list LogLine * option PathResult.t) :=
  match fuel with
  | O => Diverges
  | S fuel' =>
      match tq_pop (openSet st) with
      | None => Returns ([LogNoPath (size (visited st))], None)
      | Some (current, rest) =>
          let st := withOpenSet st rest in
          if decide (QueueItem.nodeId current = PathNode.id endNode) then pathFound st
          else if decide (QueueItem.nodeId current ∈ visited st) then searchLoop fuel' st
          else searchLoop fuel' (expandNode st (QueueItem.nodeId current))
      end
  end.

(** The same loop with the two ways out kept apart from what follows
    them: [RunReached] is the state in which the end node has just been
    popped, [RunExhausted] the state in which the queue is empty
    ([searchLoop_run]). *)
Inductive SearchRun :=
| RunOutOfFuel
| RunExhausted (st : SearchState)
| RunReached (st : SearchState).

Fixpoint searchRun (fuel : nat) (st : SearchState) : SearchRun :=
  match fuel with
  | O => RunOutOfFuel
  | S fuel' =>
      match tq_pop (openSet st) with
      | None => RunExhausted st
      | Some (current, rest) =>
          let st := withOpenSet st rest in
          if decide (QueueItem.nodeId current = PathNode.id endNode) then RunReached st
          else if decide (QueueItem.nodeId current ∈ visited st) then searchRun fuel' st
          else searchRun fuel' (expandNode st (QueueItem.nodeId current))
      end
  end.

(** The heuristic value of a node: its distance to the end node. *)
Definition hOf (nodeId : string) : Q :=
  match nodeMap !! nodeId with
  | Some node => heuristic (PathNode.latitude node) (PathNode.longitude node)
                           (PathNode.latitude endNode) (PathNode.longitude endNode)
  | None => 0
  end.

End Search.

Definition initialSearch (startNode : PathNode.t) : SearchState :=
  {| openSet := tq_new [QueueItem.mk (PathNode.id startNode) 0];
     gScore := {[PathNode.id startNode := 0%Q]};
     cameFrom := ∅;
     distanceFrom := {[PathNode.id startNode := 0%Q]};
     visited := ∅ |}.

Definition buildNodeMap (allNodes : list PathNode.t) : gmap string PathNode.t :=
  foldl (λ nodeMap node, <[PathNode.id node := node]> nodeMap) ∅ allNodes.

(** Every round of the loop takes one item out of the queue, and an item
    is put in only while a node is expanded, at most one per outgoing
    edge and each node once: [2 + edges] rounds always suffice
    ([searchRun_fuel]). *)
Definition searchFuel (allEdges : list PathEdge) : nat := 2 + length allEdges.

Definition findPath (db : GraphDb) (startLat startLng endLat endLng : Q)
  : Outcome (list LogLine * option PathResult.t) :=
  let log0 := [LogFinding startLat startLng endLat endLng] in
  let startNode := findNearestNode db startLat startLng in
  let endNode := findNearestNode db endLat endLng in
  match startNode, endNode with
  | Some startNode, Some endNode =>
      let log1 := log0 ++ [LogStartEnd (PathNode.id startNode) (PathNode.id endNode)] in
      let allNodes := selectPathNode <$> graphNode db in
      let allEdges := graphEdge db in
      let log2 := log1 ++ [LogLoaded (length allNodes) (length allEdges)] in
      let nodeMap := buildNodeMap allNodes in
      let adjacency := buildAdjacencyList allEdges in
      match searchLoop nodeMap adjacency endNode (searchFuel allEdges)
                       (initialSearch startNode) with
      | Diverges => Diverges
      | Returns (log, result) => Returns (log2 ++ log, result)
      end
  | _, _ => Returns (log0 ++ [LogNoStartOrEnd], None)
  end.

End Pathfinding.

(** * IssueCacheService *)

Module Issue.
(** A row of the issue table with its [_count] of upvotes and comments.
    [createdAt] is the instant in epoch milliseconds. *)
Record t := mk {
  id : Z;
  title : string;
  status : string;
  issueType : string;
  latitude : option Q;
  longitude : option Q;
  createdAt : Z;
  upvotes : nat;
  comments : nat }.
End Issue.

Module IssueSummary.
(** [createdAt] stands for the ISO-8601 rendering of the same instant. *)
Record t := mk {
  id : Z;
  title : string;
  status : string;
  issueType : string;
  latitude : Q;
  longitude : Q;
  voteCount : nat;
  commentCount : nat;
  createdAt : Z }.
End IssueSummary.

Definition CACHE_TTL : nat := 300.
Definition ISSUE_SUMMARY_TTL : nat := 600.
Definition GRID_CELL_SIZE : Q := 1#100.
Definition RESOLVED : string := "RESOLVED".

(** The two key spaces of the cache: [issues:grid:<lat>:<lng>] and
    [issue:summary:<id>]. A grid key is kept as its pair of cell indices,
    which is what [split(':')] and [parseInt] read back from it. *)
Inductive CacheKey :=
| GridKey (cellLat cellLng : Z)
| SummaryKey (issueId : Z).

(** What the service does to Redis and to the issue table, in order. *)
Inductive Event :=
| RedisGet (key : CacheKey)
| RedisSetex (key : CacheKey) (ttl : nat)
| IssueFindManyCell (cellLat cellLng : Q) (includeResolved : bool)
| IssueFindManyBounds (minLat maxLat minLng maxLng : Q) (includeResolved : bool) (take : nat)
| IssueFindUnique (id : Z).

Record World := mkWorld {
  gridCells : gmap (Z * Z) (list Z);
  summaries : gmap Z IssueSummary.t;
  trace : list Event }.

Definition coldWorld : World := mkWorld ∅ ∅ [].

(** Computations that read and write the cache and leave a trace. *)
Definition M (A : Type) : Type := World → A * World.

Definition ret {A} (a : A) : M A := λ w, (a, w).
Definition bind {A B} (k : A → M B) (c : M A) : M B :=
  λ w, let '(a, w') := c w in k a w'.

#[export] Instance M_ret : MRet M := @ret.
#[export] Instance M_bind : MBind M := @bind.

Fixpoint foldM {A B} (f : A → B → M A) (a : A) (l : list B) : M A :=
  match l with
  | [] => ret a
  | b :: l' => a' ← f a b; foldM f a' l'
  end.

Definition gets {A} (f : World → A) : M A := λ w, (f w, w).
Definition modify (f : World → World) : M unit := λ w, (tt, f w).

Definition emit (e : Event) : M unit :=
  modify (λ w, mkWorld (gridCells w) (summaries w) (trace w ++ [e])).

(** [Set.prototype.add] on an insertion-ordered set. *)
Definition setAdd (s : list Z) (x : Z) : list Z :=
  if decide (x ∈ s) then s else s ++ [x].

Definition getGridCellKey (lat lng : Q) : Z * Z :=
  (Qfloor (lat / GRID_CELL_SIZE), Qfloor (lng / GRID_CELL_SIZE)).

Definition getGridCellsForBounds (minLat maxLat minLng maxLng : Q) : list (Z * Z) :=
  let startLat := Qfloor (minLat / GRID_CELL_SIZE) in
  let endLat := Qfloor (maxLat / GRID_CELL_SIZE) in
  let startLng := Qfloor (minLng / GRID_CELL_SIZE) in
  let endLng := Qfloor (maxLng / GRID_CELL_SIZE) in
  lat ← seqZ startLat (endLat - startLat + 1);
  lng ← seqZ startLng (endLng - startLng + 1);
  [(lat, lng)].

Definition cacheIssueSummary (issue : IssueSummary.t) : M unit :=
  emit (RedisSetex (SummaryKey (IssueSummary.id issue)) ISSUE_SUMMARY_TTL) ;;
  modify (λ w, mkWorld (gridCells w) (<[IssueSummary.id issue := issue]> (summaries w))
                       (trace w)).

Definition getCachedIssueSummary (issueId : Z) : M (option IssueSummary.t) :=
  emit (RedisGet (SummaryKey issueId)) ;;
  gets (λ w, summaries w !! issueId).

Definition cacheGridCell (cellKey : Z * Z) (issueIds : list Z) : M unit :=
  emit (RedisSetex (GridKey cellKey.1 cellKey.2) CACHE_TTL) ;;
  modify (λ w, mkWorld (<[cellKey := issueIds]> (gridCells w)) (summaries w) (trace w)).

Definition getCachedGridCell (cellKey : Z * Z) : M (option (list Z)) :=
  emit (RedisGet (GridKey cellKey.1 cellKey.2)) ;;
  gets (λ w, gridCells w !! cellKey).

(** The mapping from a selected row to a summary, with [?? 0] on the
    nullable coordinates. *)
Definition toSummary (issue : Issue.t) : IssueSummary.t :=
  IssueSummary.mk (Issue.id issue) (Issue.title issue) (Issue.status issue)
                  (Issue.issueType issue)
                  (default 0%Q (Issue.latitude issue))
                  (default 0%Q (Issue.longitude issue))
                  (Issue.upvotes issue) (Issue.comments issue)
                  (Issue.createdAt issue).

(** [...(includeResolved ? {} : { status: { not: RESOLVED } })] *)
Definition statusClause (includeResolved : bool) (issue : Issue.t) : bool :=
  includeResolved || negb (String.eqb (Issue.status issue) RESOLVED).

(** [{ gte: lo, lt: hi }] on a nullable column. *)
Definition gteLt (lo hi : Q) (v : option Q) : bool :=
  match v with
  | Some x => Qle_bool lo x && Qltb x hi
  | None => false
  end.

(** [{ gte: lo, lte: hi }] on a nullable column. *)
Definition gteLte (lo hi : Q) (v : option Q) : bool :=
  match v with
  | Some x => Qle_bool lo x && Qle_bool x hi
  | None => false
  end.

Section IssueCache.

(** The issue table. *)
Variable issues : list Issue.t.

Definition findManyCell (cellLat cellLng : Q) (includeResolved : bool) : M (list Issue.t) :=
  emit (IssueFindManyCell cellLat cellLng includeResolved) ;;
  ret (filter (λ i, gteLt cellLat (cellLat + GRID_CELL_SIZE) (Issue.latitude i) &&
                    gteLt cellLng (cellLng + GRID_CELL_SIZE) (Issue.longitude i) &&
                    statusClause includeResolved i = true) issues).

Definition findUnique (id : Z) : M (option Issue.t) :=
  emit (IssueFindUnique id) ;;
  ret (head (filter (λ i, Issue.id i = id) issues)).

Definition fetchIssuesFromDb (minLat maxLat minLng maxLng : Q) (includeResolved : bool)
  : M (list IssueSummary.t) :=
  emit (IssueFindManyBounds minLat maxLat minLng maxLng includeResolved 500) ;;
  let rows := take 500 (filter (λ i, gteLte minLat maxLat (Issue.latitude i) &&
                                      gteLte minLng maxLng (Issue.longitude i) &&
                                      statusClause includeResolved i = true) issues) in
  ret (toSummary <$> rows).

(** First loop: which cells are cached. State is
    [(allIssueIds, uncachedCells)]. *)
Definition checkCell (acc : list Z * list (Z * Z)) (cell : Z * Z)
  : M (list Z * list (Z * Z)) :=
  cachedIds ← getCachedGridCell cell;
  match cachedIds with
  | Some ids => ret (foldl setAdd acc.1 ids, acc.2)
  | None => ret (acc.1, acc.2 ++ [cell])
  end.

(** Second loop: fetch one uncached cell and cache it. *)
Definition fillCell (includeResolved : bool) (allIssueIds : list Z) (cellKey : Z * Z)
  : M (list Z) :=
  let cellLat := (inject_Z cellKey.1 * GRID_CELL_SIZE)%Q in
  let cellLng := (inject_Z cellKey.2 * GRID_CELL_SIZE)%Q in
  cellIssues ← findManyCell cellLat cellLng includeResolved;
  cacheGridCell cellKey (Issue.id <$> cellIssues) ;;
  foldM (λ ids issue, cacheIssueSummary (toSummary issue) ;; ret (setAdd ids (Issue.id issue)))
        allIssueIds cellIssues.

Definition inBounds (minLat maxLat minLng maxLng : Q) (summary : IssueSummary.t) : bool :=
  Qle_bool minLat (IssueSummary.latitude summary) &&
  Qle_bool (IssueSummary.latitude summary) maxLat &&
  Qle_bool minLng (IssueSummary.longitude summary) &&
  Qle_bool (IssueSummary.longitude summary) maxLng.

(** Third loop: one summary per id, from the cache or from the table. *)
Definition collectSummary (minLat maxLat minLng maxLng : Q) (includeResolved : bool)
    (results : list IssueSummary.t) (id : Z) : M (list IssueSummary.t) :=
  cached ← getCachedIssueSummary id;
  summary ← match cached with
             | Some s => ret (Some s)
             | None =>
                 issue ← findUnique id;
                 match issue with
                 | Some issue =>
                     cacheIssueSummary (toSummary issue) ;; ret (Some (toSummary issue))
                 | None => ret None
                 end
             end;
  match summary with
  | Some summary =>
      if negb includeResolved && String.eqb (IssueSummary.status summary) RESOLVED
      then ret results
      else if inBounds minLat maxLat minLng maxLng summary
           then ret (results ++ [summary])
           else ret results
  | None => ret results
  end.

Definition getIssuesInBounds (minLat maxLat minLng maxLng : Q) (includeResolved : bool)
  : M (list IssueSummary.t) :=
  let cells := getGridCellsForBounds minLat maxLat minLng maxLng in
  if decide (100 < length cells) then
    fetchIssuesFromDb minLat maxLat minLng maxLng includeResolved
  else
    acc ← foldM checkCell ([], []) cells;
    let uncachedCells := acc.2 in
    allIssueIds ← (if decide (0 < length uncachedCells)
                    then foldM (fillCell includeResolved) acc.1 uncachedCells
                    else ret acc.1);
    foldM (collectSummary minLat maxLat minLng maxLng includeResolved) [] allIssueIds.

End IssueCache.

(** * importGraph *)

Module OSMNode.
Record t := mk { id : Z; lat : Q; lon : Q }.
End OSMNode.

Module OSMWay.
Record t := mk { id : Z; nodes : list Z }.
End OSMWay.

Inductive OSMElement :=
| ElementNode (n : OSMNode.t)
| ElementWay (w : OSMWay.t).

(** What [axios.post] yields: a rejection (network error, HTTP error or
    the 60 s timeout) or the elements of the response. *)
Inductive AxiosResult :=
| AxiosRejected
| AxiosResponse (elements : list OSMElement).

(** [None] is a rejected promise. *)
Definition fetchOSMData (response : AxiosResult)
  : option (gmap Z OSMNode.t * list OSMWay.t) :=
  match response with
  | AxiosRejected => None
  | AxiosResponse elements =>
      Some (foldl (λ '(nodes, ways) element,
                     match element with
                     | ElementNode n => (<[OSMNode.id n := n]> nodes, ways)
                     | ElementWay w => (nodes, ways ++ [w])
                     end)
                  (∅, []) elements)
  end.

(** [createMany({ skipDuplicates: true })] on GraphNode, whose unique
    keys are [id] and [osmId]. *)
Definition createManyNodes (table rows : list GraphNode.t) : list GraphNode.t :=
  foldl (λ table row,
           if decide (Exists (λ r, GraphNode.id r = GraphNode.id row ∨
                                   GraphNode.osmId r = GraphNode.osmId row) table)
           then table else table ++ [row])
        table rows.

(** [createMany({ skipDuplicates: true })] on GraphEdge, whose only
    unique key is [id]. *)
Definition createManyEdges (table rows : list GraphEdge.t) : list GraphEdge.t :=
  foldl (λ table row,
           if decide (Exists (λ r, GraphEdge.id r = GraphEdge.id row) table)
           then table else table ++ [row])
        table rows.

Inductive ExitCode := ExitSuccess | ExitFailure.

Section ImportGraph.

(** [turf.distance] again, under the name [calculateDistance]. *)
Variable calculateDistance : Q → Q → Q → Q → Q.
(** The identifiers the database generates for new rows. *)
Variable uuid : nat → string.

(** The consecutive pairs [(wayNodes[i], wayNodes[i + 1])]. *)
Definition consecutive (wayNodes : list Z) : list (Z * Z) :=
  zip wayNodes (tail wayNodes).

Definition edgesOfWay (osmNodes : gmap Z OSMNode.t) (nodeIdMap : gmap Z string)
    (way : OSMWay.t) : list (string * string * Q) :=
  '(startOsmId, endOsmId) ← consecutive (OSMWay.nodes way);
  match osmNodes !! startOsmId, osmNodes !! endOsmId,
        nodeIdMap !! startOsmId, nodeIdMap !! endOsmId with
  | Some startNode, Some endNode, Some startUuid, Some endUuid =>
      if decide (startUuid ≠ "" ∧ endUuid ≠ "") then
        let distance := calculateDistance (OSMNode.lat startNode) (OSMNode.lon startNode)
                                          (OSMNode.lat endNode) (OSMNode.lon endNode) in
        [(startUuid, endUuid, distance); (endUuid, startUuid, distance)]
      else []
  | _, _, _, _ => []
  end.

(** The script: [importGraph()] and the [then]/[catch] that set the exit
    code. The result is the database afterwards. *)
Definition importGraph (db : GraphDb) (response : AxiosResult) : GraphDb * ExitCode :=
  (* await prisma.graphEdge.deleteMany({}) *)
  let db := mkGraphDb (graphNode db) [] in
  (* await prisma.graphNode.deleteMany({}) *)
  let db := mkGraphDb [] (graphEdge db) in
  match fetchOSMData response with
  | None => (db, ExitFailure)
  | Some (osmNodes, ways) =>
      let usedNodeIds := foldl (λ used way, foldl setAdd used (OSMWay.nodes way)) [] ways in
      let nodesToCreate :=
        omap (λ osmId, (λ n, (osmId, OSMNode.lat n, OSMNode.lon n)) <$> osmNodes !! osmId)
             usedNodeIds in
      let newNodes :=
        imap (λ k '(osmId, lat, lon), GraphNode.mk (uuid k) osmId lat lon) nodesToCreate in
      let db := mkGraphDb (createManyNodes (graphNode db) newNodes) (graphEdge db) in
      let createdNodes :=
        filter (λ n, GraphNode.osmId n ∈ nodesToCreate.*1.*1) (graphNode db) in
      let nodeIdMap :=
        foldl (λ m node, <[GraphNode.osmId node := GraphNode.id node]> m) ∅ createdNodes in
      let edgesToCreate := way ← ways; edgesOfWay osmNodes nodeIdMap way in
      let newEdges :=
        imap (λ k '(startNodeId, endNodeId, distance),
                GraphEdge.mk (uuid (length newNodes + k)) startNodeId endNodeId
                             distance distance 1)
             edgesToCreate in
      let db := mkGraphDb (graphNode db) (createManyEdges (graphEdge db) newEdges) in
      (db, ExitSuccess)
  end.

End ImportGraph.

(** * Notions used to state the properties of the search *)

(** The coordinates of a list of node identifiers. *)
Definition pointsOf (nodeMap : gmap string PathNode.t) (ids : list string) : list Point.t :=
  omap (λ nid, (λ node, Point.mk (PathNode.latitude node) (PathNode.longitude node))
                 <$> nodeMap !! nid) ids.

(** Both ends of every edge are rows of GraphNode (the two foreign keys
    of GraphEdge). *)
Definition foreignKeys (db : GraphDb) : Prop :=
  ∀ e, e ∈ graphEdge db →
       (∃ u, u ∈ graphNode db ∧ GraphNode.id u = GraphEdge.startNodeId e) ∧
       (∃ v, v ∈ graphNode db ∧ GraphNode.id v = GraphEdge.endNodeId e).

Definition penaltiesAtLeastOne (db : GraphDb) : Prop :=
  ∀ e, e ∈ graphEdge db → (1 <= effectivePenalty e)%Q.

(** No edge is shorter than the straight line between its ends. *)
Definition edgesAtLeastStraight (heuristic : Q → Q → Q → Q → Q) (db : GraphDb) : Prop :=
  ∀ e u v, e ∈ graphEdge db → u ∈ graphNode db → v ∈ graphNode db →
           GraphNode.id u = GraphEdge.startNodeId e →
           GraphNode.id v = GraphEdge.endNodeId e →
           (heuristic (GraphNode.latitude u) (GraphNode.longitude u)
                      (GraphNode.latitude v) (GraphNode.longitude v)
            <= GraphEdge.distance e)%Q.

(** What is used of the great-circle distance: it is not negative and
    obeys the triangle inequality. *)
Definition isDistance (heuristic : Q → Q → Q → Q → Q) : Prop :=
  (∀ lat1 lon1 lat2 lon2, (0 <= heuristic lat1 lon1 lat2 lon2)%Q) ∧
  (∀ lat1 lon1 lat2 lon2 lat3 lon3,
     (heuristic lat1 lon1 lat3 lon3 <=
      heuristic lat1 lon1 lat2 lon2 + heuristic lat2 lon2 lat3 lon3)%Q).

Section SearchInvariants.

Variable heuristic : Q → Q → Q → Q → Q.
Context {T : Type} `{TinyQueue T}.
Variable nodeMap : gmap string PathNode.t.
Variable edges : list PathEdge.
Variable endNode : PathNode.t.
Variable start : string.

(** Edges that leave a node not yet expanded. *)
Definition unexpanded (vis : gset string) : nat :=
  length (filter (λ e, GraphEdge.startNodeId e ∉ vis) edges).

(** Only nodes reachable from the start node enter the queue. *)
Definition queueReachable (st : SearchState) : Prop :=
  ∀ item, item ∈ tq_items (openSet st) → ∃ p, isPath edges start p (QueueItem.nodeId item).

(** Every queued node and every recorded predecessor is a known node, and
    every queued node other than the start node has a predecessor. *)
Definition queueLinked (st : SearchState) : Prop :=
  (∀ item, item ∈ tq_items (openSet st) →
           is_Some (nodeMap !! QueueItem.nodeId item) ∧
           (QueueItem.nodeId item ≠ start →
            is_Some (cameFrom st !! QueueItem.nodeId item))) ∧
  (∀ n c, cameFrom st !! n = Some c → is_Some (nodeMap !! c)).

(** The edge [e] has been relaxed: the recorded cost of its end is at
    most the recorded cost of its start plus its own cost. *)
Definition relaxed (st : @SearchState T) (e : PathEdge) : Prop :=
  ∃ gu gv, gScore st !! GraphEdge.startNodeId e = Some gu ∧
           gScore st !! GraphEdge.endNodeId e = Some gv ∧
           (gv <= gu + edgeCost e)%Q.

(** The invariant of the search. [pending] are the neighbours of
    [current] that the expansion in progress has yet to relax. *)
Record searchInv (pending : list Neighbor.t) (current : string) (st : @SearchState T)
  : Prop := {
  inv_start_g : gScore st !! start = Some 0%Q;
  inv_start_cf : cameFrom st !! start = None;
  inv_chain : ∀ n g, gScore st !! n = Some g →
    ∃ p d, chain edges start (cameFrom st) (visited st) n p ∧ (g == pathCost p)%Q ∧
           distanceFrom st !! n = Some d ∧ (d == pathDistance p)%Q;
  inv_visited : ∀ n, n ∈ visited st →
    ∃ g, gScore st !! n = Some g ∧ ∀ p, isPath edges start p n → (g <= pathCost p)%Q;
  inv_relaxed : ∀ e, e ∈ edges → GraphEdge.startNodeId e ∈ visited st →
    relaxed st e ∨ (GraphEdge.startNodeId e = current ∧ neighborOf e ∈ pending);
  inv_cover : ∀ n g, gScore st !! n = Some g → n ∉ visited st → n ≠ start →
    ∃ item, item ∈ tq_items (openSet st) ∧ QueueItem.nodeId item = n ∧
            (QueueItem.fScore item <= g + hOf heuristic nodeMap endNode n)%Q;
  inv_bound : ∀ item, item ∈ tq_items (openSet st) →
    QueueItem.nodeId item = start ∨
    ∃ g, gScore st !! QueueItem.nodeId item = Some g ∧
         (g + hOf heuristic nodeMap endNode (QueueItem.nodeId item) <= QueueItem.fScore item)%Q;
  inv_started : start ∈ visited st ∨ ∀ n, is_Some (gScore st !! n) → n = start }.

End SearchInvariants.

Arguments inv_start_g {heuristic T H nodeMap edges endNode start} pending current st _.
Arguments inv_start_cf {heuristic T H nodeMap edges endNode start} pending current st _.
Arguments inv_chain {heuristic T H nodeMap edges endNode start} pending current st _.
Arguments inv_visited {heuristic T H nodeMap edges endNode start} pending current st _.
Arguments inv_relaxed {heuristic T H nodeMap edges endNode start} pending current st _.
Arguments inv_cover {heuristic T H nodeMap edges endNode start} pending current st _.
Arguments inv_bound {heuristic T H nodeMap edges endNode start} pending current st _.
Arguments inv_started {heuristic T H nodeMap edges endNode start} pending current st _.

(** * A heuristic for concrete runs

    On one meridian the great-circle distance is the arc length
    [R * |dlat|]; with [R * pi / 180] rounded to 111195 m per degree this
    is [meridianDistance]. The graphs of the concrete runs below keep all
    their nodes on the meridian [lng = 0]. *)

Definition meridianDistance (lat1 lon1 lat2 lon2 : Q) : Q :=
  (111195 * Qabs (lat2 - lat1))%Q.

(** * Concrete inputs *)

(** The identifiers of a concrete import run. *)
Definition exampleUuid (k : nat) : string := "node-" +:+ pretty k.

(** A resolved issue in the middle of grid cell (0, 0). *)
Definition resolvedIssue : Issue.t :=
  Issue.mk 1 "Pothole" "RESOLVED" "POTHOLE" (Some (5#1000)%Q) (Some (5#1000)%Q) 0 0 0.

(** 501 open issues at the origin; issue [k] was created at instant [k],
    and the table stores them oldest first. *)
Definition manyIssues : list Issue.t :=
  (λ k : nat, Issue.mk (Z.of_nat k) "Streetlight" "OPEN" "STREETLIGHT"
                       (Some 0%Q) (Some 0%Q) (Z.of_nat k) 0 0) <$> seq 1 501.

(** Three nodes on the meridian [lng = 0], about 1112 m apart, joined by
    edges of 1200 m; the direct edge from A to C is 2300 m long and
    carries penalty 5. No edge is shorter than the straight line. *)
Definition straightDb : GraphDb := mkGraphDb
  [GraphNode.mk "A" 1 0 0; GraphNode.mk "B" 2 (1#100) 0; GraphNode.mk "C" 3 (2#100) 0]
  [GraphEdge.mk "ab" "A" "B" 1200 1200 1;
   GraphEdge.mk "bc" "B" "C" 1200 1200 1;
   GraphEdge.mk "ac" "A" "C" 2300 2300 5].

(** S and E are about 1112 m apart and joined by an edge of 2000 m; M
    lies about 4448 m from S and 3336 m from E, but its two edges claim a
    distance of 1 m each. All penalties are 1. *)
Definition shortcutDb : GraphDb := mkGraphDb
  [GraphNode.mk "S" 1 0 0; GraphNode.mk "E" 2 (1#100) 0; GraphNode.mk "M" 3 (4#100) 0]
  [GraphEdge.mk "se" "S" "E" 2000 2000 1;
   GraphEdge.mk "sm" "S" "M" 1 1 1;
   GraphEdge.mk "me" "M" "E" 1 1 1].

Definition emptyDb : GraphDb := mkGraphDb [] [].

Definition singleNodeDb : GraphDb := mkGraphDb [GraphNode.mk "A" 1 0 0] [].

(** Two nodes and no edge. *)
Definition disconnectedDb : GraphDb := mkGraphDb
  [GraphNode.mk "A" 1 0 0; GraphNode.mk "B" 2 (1#100) 0] [].

(** A self-loop of distance 0 on A, and a search state in which A has
    cost 5. *)
Definition selfLoop : PathEdge := GraphEdge.mk "aa" "A" "A" 0 0 1.

Definition loopState : @SearchState (list QueueItem.t) :=
  {| openSet := []; gScore := {["A" := 5%Q]}; cameFrom := ∅;
     distanceFrom := {["A" := 5%Q]}; visited := {["A"]} |}.

(** * RouteRenderer (frontend) *)

(** What the component draws: the polyline and the two markers. *)
Module Rendered.
Record t := mk {
  positions : list (Q * Q);
  startPoint : Point.t;
  endPoint : Point.t }.
End Rendered.

(** [None] is the [path] prop left out, and the [null] the component
    returns when it draws nothing. *)
Definition RouteRenderer (path : option (list Point.t)) : option Rendered.t :=
  match path with
  | None => None
  | Some path =>
      if decide (length path < 2) then None else
      let positions := (λ p, (Point.lat p, Point.lng p)) <$> path in
      match path !! 0, path !! (length path - 1) with
      | Some startPoint, Some endPoint => Some (Rendered.mk positions startPoint endPoint)
      | _, _ => None
      end
  end.

(** * Notions used to state further properties of the search *)

Definition costsNotNegative (edges : list PathEdge) : Prop :=
  ∀ e, e ∈ edges → (0 <= edgeCost e)%Q.

(** The predecessor links followed from [n] to a node without
    predecessor: the nodes met, [n] first. *)
Inductive walk (cf : gmap string string) : string → list string → Prop :=
| walk_end n : cf !! n = None → walk cf n [n]
| walk_step n c l : cf !! n = Some c → walk cf c l → walk cf n (n :: l).

Section SearchCoverage.

Context {T : Type} `{TinyQueue T}.
Variable edges : list PathEdge.
Variable endNode : PathNode.t.
Variable start : string.

(** Nothing reachable is lost: a node with a recorded cost is expanded or
    queued, and the edges that leave an expanded node have been followed.
    [pending] are the neighbours of [current] that the expansion in
    progress has yet to relax. *)
Record searchCovers (pending : list Neighbor.t) (current : string) (st : @SearchState T)
  : Prop := {
  cov_start : is_Some (gScore st !! start);
  cov_end : PathNode.id endNode ∉ visited st;
  cov_visited : ∀ n, n ∈ visited st → is_Some (gScore st !! n);
  cov_relaxed : ∀ e, e ∈ edges → GraphEdge.startNodeId e ∈ visited st →
    is_Some (gScore st !! GraphEdge.endNodeId e) ∨
    (GraphEdge.startNodeId e = current ∧ neighborOf e ∈ pending);
  cov_queue : ∀ n, is_Some (gScore st !! n) → n ∉ visited st →
    ∃ item, item ∈ tq_items (openSet st) ∧ QueueItem.nodeId item = n;
  cov_items : ∀ item, item ∈ tq_items (openSet st) →
    is_Some (gScore st !! QueueItem.nodeId item) }.

(** The predecessor links lie along edges, never go up in recorded cost
    and lead back to the start node. *)
Record searchLinks (st : @SearchState T) : Prop := {
  lnk_start_g : gScore st !! start = Some 0%Q;
  lnk_start_cf : cameFrom st !! start = None;
  lnk_nonneg : ∀ n g, gScore st !! n = Some g → (0 <= g)%Q;
  lnk_edge : ∀ n c, cameFrom st !! n = Some c →
    ∃ e gn gc, e ∈ edges ∧ GraphEdge.startNodeId e = c ∧ GraphEdge.endNodeId e = n ∧
               gScore st !! n = Some gn ∧ gScore st !! c = Some gc ∧
               (gc + edgeCost e <= gn)%Q;
  lnk_root : ∀ n, is_Some (gScore st !! n) → n ≠ start → is_Some (cameFrom st !! n);
  lnk_walk : ∀ n, ∃ l, walk (cameFrom st) n l;
  lnk_queue : ∀ item, item ∈ tq_items (openSet st) →
    is_Some (gScore st !! QueueItem.nodeId item) }.

End SearchCoverage.

Arguments cov_start {T H edges endNode start} pending current st _.
Arguments cov_end {T H edges endNode start} pending current st _.
Arguments cov_visited {T H edges endNode start} pending current st _.
Arguments cov_relaxed {T H edges endNode start} pending current st _.
Arguments cov_queue {T H edges endNode start} pending current st _.
Arguments cov_items {T H edges endNode start} pending current st _.
Arguments lnk_start_g {T H edges start} st _.
Arguments lnk_start_cf {T H edges start} st _.
Arguments lnk_nonneg {T H edges start} st _.
Arguments lnk_edge {T H edges start} st _.
Arguments lnk_root {T H edges start} st _.
Arguments lnk_walk {T H edges start} st _.
Arguments lnk_queue {T H edges start} st _.

(** * IssueCacheService: invalidation *)




(** * Notions used to state the properties of the cache *)

(** The rows the cell query of [getIssuesInBounds] selects for a cell. *)
Definition cellRows (issues : list Issue.t) (includeResolved : bool) (cell : Z * Z)
  : list Issue.t :=
  let cellLat := (inject_Z cell.1 * GRID_CELL_SIZE)%Q in
  let cellLng := (inject_Z cell.2 * GRID_CELL_SIZE)%Q in
  filter (λ i, gteLt cellLat (cellLat + GRID_CELL_SIZE) (Issue.latitude i) &&
               gteLt cellLng (cellLng + GRID_CELL_SIZE) (Issue.longitude i) &&
               statusClause includeResolved i = true) issues.

(** The cache agrees with the issue table: a cached cell lists the
    identifiers its query would return under [includeResolved], and a
    cached summary is the summary of the row with that identifier. *)
Definition cacheFaithful (issues : list Issue.t) (includeResolved : bool) (w : World) : Prop :=
  (∀ cell ids, gridCells w !! cell = Some ids →
               ids = Issue.id <$> cellRows issues includeResolved cell) ∧
  (∀ id s, summaries w !! id = Some s →
           ∃ i, i ∈ issues ∧ Issue.id i = id ∧ s = toSummary i).

(** The rows the box asks for: coordinates within the bounds, and not
    resolved unless resolved issues are included. *)
Definition boxRows (issues : list Issue.t) (minLat maxLat minLng maxLng : Q)
    (includeResolved : bool) : list Issue.t :=
  filter (λ i, gteLte minLat maxLat (Issue.latitude i) &&
               gteLte minLng maxLng (Issue.longitude i) &&
               statusClause includeResolved i = true) issues.

(** The events a cached call may add to the trace. *)
Definition cachedCallEvent (cells : list (Z * Z)) (includeResolved : bool) (w : World)
    (e : Event) : Prop :=
  match e with
  | RedisGet (GridKey cellLat cellLng) => (cellLat, cellLng) ∈ cells
  | RedisGet (SummaryKey _) => True
  | RedisSetex (GridKey cellLat cellLng) ttl =>
      ttl = CACHE_TTL ∧ (cellLat, cellLng) ∈ cells ∧ gridCells w !! (cellLat, cellLng) = None
  | RedisSetex (SummaryKey _) ttl => ttl = ISSUE_SUMMARY_TTL
  | IssueFindManyCell lat lng flag =>
      flag = includeResolved ∧
      ∃ cell, cell ∈ cells ∧ gridCells w !! cell = None ∧
              lat = (inject_Z cell.1 * GRID_CELL_SIZE)%Q ∧
              lng = (inject_Z cell.2 * GRID_CELL_SIZE)%Q
  | IssueFindManyBounds _ _ _ _ _ _ => False
  | IssueFindUnique _ => True
  end.

(** The final filter of [getIssuesInBounds] on a summary. *)
Definition keptSummary (minLat maxLat minLng maxLng : Q) (includeResolved : bool)
    (summary : IssueSummary.t) : bool :=
  negb (negb includeResolved && String.eqb (IssueSummary.status summary) RESOLVED) &&
  inBounds minLat maxLat minLng maxLng summary.

(** * Concrete inputs for the cache *)

(** An open issue in grid cell (0, 0), and a cache that was filled while
    the issue table was still empty. *)
Definition openIssue : Issue.t :=
  Issue.mk 2 "Streetlight" "OPEN" "STREETLIGHT" (Some (5#1000)%Q) (Some (5#1000)%Q) 0 3 1.


(** * Concrete inputs for the import *)

(** Two OSM nodes on the meridian [lng = 0] joined by one way. *)
Definition exampleResponse : AxiosResult :=
  AxiosResponse [ElementNode (OSMNode.mk 1 0 0);
                 ElementNode (OSMNode.mk 2 (1#100) 0);
                 ElementWay (OSMWay.mk 10 [1; 2]%Z)].

(** * Properties *)

(** ** Comparisons *)

Lemma Qltb_true a b : Qltb a b = true ↔ (a < b)%Q.
Proof.
  unfold Qltb. rewrite negb_true_iff, <- not_true_iff_false, Qle_bool_iff.
  split; [apply Qnot_le_lt | apply Qlt_not_le].
Qed.

Lemma Qltb_false a b : Qltb a b = false ↔ (b <= a)%Q.
Proof. unfold Qltb. rewrite negb_false_iff. apply Qle_bool_iff. Qed.

Lemma Qeq_bool_true a b : Qeq_bool a b = true ↔ (a == b)%Q.
Proof. split; [apply Qeq_bool_eq | apply Qeq_eq_bool]. Qed.

Lemma Qeq_bool_false a b : Qeq_bool a b = false ↔ ¬ (a == b)%Q.
Proof. rewrite <- Qeq_bool_true. destruct (Qeq_bool a b); naive_solver. Qed.

(** ** The adjacency list *)

Lemma buildAdjacencyList_snoc edges edge :
  buildAdjacencyList (edges ++ [edge]) =
  let adj := buildAdjacencyList edges in
  <[GraphEdge.startNodeId edge :=
      default [] (adj !! GraphEdge.startNodeId edge) ++ [neighborOf edge]]> adj.
Proof.
  unfold buildAdjacencyList. rewrite foldl_snoc. cbv zeta.
  set (adj := foldl _ _ edges). apply map_eq. intros k.
  destruct (decide (GraphEdge.startNodeId edge = k)) as [->|Hne].
  - rewrite !lookup_insert_eq. case_decide as Hs; [done|].
    rewrite lookup_insert_eq. destruct (adj !! k) eqn:E; [|done].
    destruct Hs; eauto.
  - rewrite !lookup_insert_ne by done. case_decide; [done|].
    by rewrite lookup_insert_ne.
Qed.

(** [adjacency.get(u) || []] holds the elements made from the edges that
    leave [u], in table order. *)
Lemma buildAdjacencyList_lookup edges u :
  default [] (buildAdjacencyList edges !! u) =
  neighborOf <$> filter (λ e, GraphEdge.startNodeId e = u) edges.
Proof.
  induction edges as [|edge edges IH] using rev_ind; [done|].
  rewrite buildAdjacencyList_snoc, filter_app, fmap_app. cbv zeta.
  destruct (decide (GraphEdge.startNodeId edge = u)) as [Heq|Hne].
  - rewrite Heq, lookup_insert_eq. simpl. rewrite IH.
    rewrite filter_cons_True by done. rewrite filter_nil. done.
  - rewrite lookup_insert_ne by done. rewrite IH.
    rewrite filter_cons_False by done. rewrite filter_nil. simpl. by rewrite app_nil_r.
Qed.

(** C4. Every edge appears in the adjacency array of its start node with
    cost [distance * penalty] when [penalty] is not 0 and with cost
    [distance] (that is, [distance * 1]) when it is 0; with penalty 0 and
    a positive distance the cost is the distance and not 0. *)
Theorem buildAdjacencyList_cost (edges : list PathEdge) (edge : PathEdge) :
  edge ∈ edges →
  ∃ nb, nb ∈ default [] (buildAdjacencyList edges !! GraphEdge.startNodeId edge) ∧
        Neighbor.nodeId nb = GraphEdge.endNodeId edge ∧
        Neighbor.edgeId nb = GraphEdge.id edge ∧
        Neighbor.distance nb = GraphEdge.distance edge ∧
        (¬ (GraphEdge.penalty edge == 0)%Q →
           Neighbor.cost nb = (GraphEdge.distance edge * GraphEdge.penalty edge)%Q) ∧
        ((GraphEdge.penalty edge == 0)%Q →
           Neighbor.cost nb = (GraphEdge.distance edge * 1)%Q ∧
           (Neighbor.cost nb == GraphEdge.distance edge)%Q ∧
           ((0 < GraphEdge.distance edge)%Q → ¬ (Neighbor.cost nb == 0)%Q)).
Proof.
  intros Hin. exists (neighborOf edge). split.
  { rewrite buildAdjacencyList_lookup. apply list_elem_of_fmap_2.
    by apply list_elem_of_filter. }
  unfold neighborOf, effectivePenalty; simpl.
  split_and!; try done.
  - intros Hp%Qeq_bool_false. by rewrite Hp.
  - intros Hp%Qeq_bool_true. rewrite Hp. split_and!; [done|lra|intros; lra].
Qed.

Lemma buildAdjacencyList_cost_witness :
  let e := GraphEdge.mk "e1" "A" "B" 100 100 0 in
  ∃ nb, nb ∈ default [] (buildAdjacencyList [e] !! "A") ∧
        Neighbor.cost nb = (100 * 1)%Q ∧ ¬ (Neighbor.cost nb == 0)%Q.
Proof.
  intros e.
  destruct (buildAdjacencyList_cost [e] e) as (nb & Hin & _ & _ & _ & _ & H0).
  { apply list_elem_of_singleton. reflexivity. }
  exists nb. split; [exact Hin|].
  destruct H0 as (Hc & _ & Hnz); [reflexivity|].
  split; [exact Hc|]. apply Hnz. reflexivity.
Defined.

(** ** Endpoint snapping *)

Section Snapping.

Variable heuristic : Q → Q → Q → Q → Q.

Lemma closestOf_fold lat lng nodes :
  match foldl (closestStep heuristic lat lng) (None, None) nodes with
  | (None, None) => nodes = []
  | (Some node, Some d) =>
      d = distTo heuristic lat lng node ∧ node ∈ nodes ∧
      ∀ m, m ∈ nodes → (distTo heuristic lat lng node <= distTo heuristic lat lng m)%Q
  | _ => False
  end.
Proof.
  induction nodes as [|x nodes IH] using rev_ind; [done|].
  rewrite foldl_snoc. unfold closestStep at 1.
  destruct (foldl _ _ nodes) as [[c|] [d|]]; simpl in *; try done.
  - destruct IH as (-> & Hin & Hmin).
    destruct (Qltb _ _) eqn:Hlt.
    + apply Qltb_true in Hlt. split_and!; [done|set_solver|].
      intros m [Hm| ->%list_elem_of_singleton]%elem_of_app.
      * specialize (Hmin m Hm). unfold distTo in *. lra.
      * unfold distTo. lra.
    + apply Qltb_false in Hlt. split_and!; [done|set_solver|].
      intros m [Hm| ->%list_elem_of_singleton]%elem_of_app; [by apply Hmin|].
      unfold distTo in *. lra.
  - subst nodes. split_and!; [done|set_solver|].
    intros m ->%list_elem_of_singleton. lra.
Qed.

Lemma closestOf_spec lat lng nodes :
  nodes ≠ [] →
  ∃ node, closestOf heuristic lat lng nodes = Some node ∧ node ∈ nodes ∧
          ∀ m, m ∈ nodes → (distTo heuristic lat lng node <= distTo heuristic lat lng m)%Q.
Proof.
  intros Hne. unfold closestOf. pose proof (closestOf_fold lat lng nodes) as Hf.
  destruct (foldl _ _ nodes) as [[c|] [d|]]; simpl in *; try done.
  exists c. destruct Hf as (_ & Hin & Hmin). done.
Qed.

Lemma findNearestNodeIn_spec db lat lng radii :
  match findNearestNodeIn heuristic db lat lng radii with
  | None => ∀ radius, radius ∈ radii → foundAt db lat lng radius = []
  | Some node =>
      ∃ i radius, radii !! i = Some radius ∧
        (∀ j r, j < i → radii !! j = Some r → foundAt db lat lng r = []) ∧
        node ∈ foundAt db lat lng radius ∧
        ∀ m, m ∈ foundAt db lat lng radius → (distTo heuristic lat lng node <= distTo heuristic lat lng m)%Q
  end.
Proof.
  induction radii as [|radius radii IH]; simpl.
  { intros r Hr. by apply elem_of_nil in Hr. }
  fold (foundAt db lat lng radius). case_decide as Hlen.
  - destruct (closestOf_spec lat lng (foundAt db lat lng radius)) as (node & -> & Hin & Hmin).
    { intros E. rewrite E in Hlen. simpl in Hlen. lia. }
    exists 0, radius. split_and!; [done| intros; lia |done|done].
  - assert (foundAt db lat lng radius = []) as Hnil.
    { destruct (foundAt db lat lng radius); [done|simpl in Hlen; lia]. }
    destruct (findNearestNodeIn _ _ _ _ _) as [node|].
    + destruct IH as (i & r & Hi & Hbefore & Hin & Hmin).
      exists (S i), r. split_and!; [done| |done|done].
      intros [|j] r' Hj Hr'; simpl in Hr'; [congruence|].
      apply (Hbefore j); [lia|done].
    + intros r [->|Hr]%elem_of_cons; [done|by apply IH].
Qed.

Lemma withinRadius_mono lat lng r1 r2 n :
  (r1 <= r2)%Q → withinRadius lat lng r1 n = true → withinRadius lat lng r2 n = true.
Proof.
  unfold withinRadius. rewrite !andb_true_iff, !Qle_bool_iff.
  intros Hr (((H1 & H2) & H3) & H4). split_and!; lra.
Qed.


(** A snapped node is a row of GraphNode. *)
Lemma findNearestNode_row db lat lng node :
  findNearestNode heuristic db lat lng = Some node →
  ∃ row, row ∈ graphNode db ∧ node = selectPathNode row.
Proof.
  intros Hnode. pose proof (findNearestNodeIn_spec db lat lng searchRadii) as Hspec.
  unfold findNearestNode in Hnode. rewrite Hnode in Hspec.
  destruct Hspec as (_ & radius & _ & _ & Hin & _).
  apply list_elem_of_fmap in Hin as (row & -> & (_ & Hrow)%list_elem_of_filter).
  by exists row.
Qed.


End Snapping.

(** ** The geo-grid cache *)

Lemma bind_nil_r {A B} (l : list A) : l ≫= (λ _, @nil B) = [].
Proof. induction l as [|x l IH]; [done|]. by rewrite bind_cons, IH. Qed.

Lemma getGridCellsForBounds_inverted minLat maxLat minLng maxLng :
  (Qfloor (maxLat / GRID_CELL_SIZE) < Qfloor (minLat / GRID_CELL_SIZE) ∨
   Qfloor (maxLng / GRID_CELL_SIZE) < Qfloor (minLng / GRID_CELL_SIZE))%Z →
  getGridCellsForBounds minLat maxLat minLng maxLng = [].
Proof.
  intros Hinv. unfold getGridCellsForBounds. cbv zeta.
  destruct Hinv as [Hlat|Hlng].
  - rewrite (seqZ_nil (Qfloor (minLat / GRID_CELL_SIZE))) by lia. done.
  - rewrite (seqZ_nil (Qfloor (minLng / GRID_CELL_SIZE))) by lia.
    apply bind_nil_r.
Qed.

(** C10. When the cell range of the box is inverted in latitude or in
    longitude, there is no cell, the result is empty and the world is
    as before: nothing was read or written in the cache and the issue
    table was not queried. *)
Theorem getIssuesInBounds_inverted (issues : list Issue.t)
    (minLat maxLat minLng maxLng : Q) (includeResolved : bool) (w : World) :
  (Qfloor (maxLat / GRID_CELL_SIZE) < Qfloor (minLat / GRID_CELL_SIZE) ∨
   Qfloor (maxLng / GRID_CELL_SIZE) < Qfloor (minLng / GRID_CELL_SIZE))%Z →
  getGridCellsForBounds minLat maxLat minLng maxLng = [] ∧
  getIssuesInBounds issues minLat maxLat minLng maxLng includeResolved w = ([], w).
Proof.
  intros Hinv. pose proof (getGridCellsForBounds_inverted _ _ _ _ Hinv) as Hcells.
  split; [done|]. unfold getIssuesInBounds. rewrite Hcells. reflexivity.
Qed.

Lemma getIssuesInBounds_inverted_witness :
  getGridCellsForBounds (5#10) (1#10) 0 (1#10) = [] ∧
  getIssuesInBounds [resolvedIssue] (5#10) (1#10) 0 (1#10) true coldWorld = ([], coldWorld).
Proof. apply getIssuesInBounds_inverted. left. vm_compute. reflexivity. Defined.

(** More than 100 cells: the cache is neither read nor written, the
    table is queried once, and the answer is made of the first 500
    matching rows in storage order. *)
Lemma getIssuesInBounds_bypass (issues : list Issue.t)
    (minLat maxLat minLng maxLng : Q) (includeResolved : bool) (w : World) :
  100 < length (getGridCellsForBounds minLat maxLat minLng maxLng) →
  ∃ result,
    getIssuesInBounds issues minLat maxLat minLng maxLng includeResolved w =
      (result,
       mkWorld (gridCells w) (summaries w)
               (trace w ++ [IssueFindManyBounds minLat maxLat minLng maxLng
                                                includeResolved 500])) ∧
    length result ≤ 500 ∧
    result = toSummary <$>
             take 500 (filter (λ i, gteLte minLat maxLat (Issue.latitude i) &&
                                    gteLte minLng maxLng (Issue.longitude i) &&
                                    statusClause includeResolved i = true) issues).
Proof.
  intros Hmany. eexists. unfold getIssuesInBounds. rewrite decide_True by done.
  split; [reflexivity|]. split; [|reflexivity].
  rewrite length_fmap, length_take. lia.
Qed.

(** C7, at the failing input. A box of 150 cells over a table of 501
    matching issues stored oldest first: the cache is bypassed and one
    range query returns 500 summaries, but they are the 500 oldest; the
    most recent issue (501) is left out while the oldest (1) is kept. *)
Theorem getIssuesInBounds_bypass_not_most_recent :
  let run := getIssuesInBounds manyIssues 0 (95#1000) 0 (145#1000) false coldWorld in
  length (getGridCellsForBounds 0 (95#1000) 0 (145#1000)) = 150 ∧
  run.2 = mkWorld ∅ ∅ [IssueFindManyBounds 0 (95#1000) 0 (145#1000) false 500] ∧
  length run.1 = 500 ∧
  IssueSummary.id <$> run.1 = Z.of_nat <$> seq 1 500 ∧
  (∃ (kept : IssueSummary.t) (omitted : Issue.t),
      kept ∈ run.1 ∧ omitted ∈ manyIssues ∧
      (Issue.id omitted ∉ (IssueSummary.id <$> run.1)) ∧
      (IssueSummary.createdAt kept < Issue.createdAt omitted)%Z).
Proof.
  intros run. split_and!; try (vm_compute; reflexivity).
  exists (toSummary (Issue.mk 1 "Streetlight" "OPEN" "STREETLIGHT" (Some 0%Q) (Some 0%Q) 1 0 0)),
         (Issue.mk 501 "Streetlight" "OPEN" "STREETLIGHT" (Some 0%Q) (Some 0%Q) 501 0 0).
  split_and!.
  - vm_compute. left.
  - apply list_elem_of_In. vm_compute. do 500 right. left. reflexivity.
  - assert (IssueSummary.id <$> run.1 = Z.of_nat <$> seq 1 500) as -> by (vm_compute; reflexivity).
    intros (k & Hk & Hin%elem_of_seq)%list_elem_of_fmap. simpl in Hk. lia.
  - simpl. lia.
Qed.

(** C1, at the failing input. One resolved issue in cell (0, 0). Asked
    with [includeResolved = true] on a cold cache, the box returns it.
    After a call with [includeResolved = false] has cached the cell's id
    list (empty, since the cell query left the resolved issue out), the
    same call with [includeResolved = true] returns nothing. *)
Theorem getIssuesInBounds_cold_warm_differ :
  let cold := getIssuesInBounds [resolvedIssue] 0 (9#1000) 0 (9#1000) true coldWorld in
  let warmWorld :=
    (getIssuesInBounds [resolvedIssue] 0 (9#1000) 0 (9#1000) false coldWorld).2 in
  let warm := getIssuesInBounds [resolvedIssue] 0 (9#1000) 0 (9#1000) true warmWorld in
  getGridCellsForBounds 0 (9#1000) 0 (9#1000) = [(0, 0)%Z] ∧
  gridCells warmWorld = {[ (0, 0)%Z := [] ]} ∧
  cold.1 = [toSummary resolvedIssue] ∧
  warm.1 = [].
Proof. vm_compute. done. Qed.

(** ** The import script *)

(** C2 as amended. When the fetch is rejected the script exits with a
    failure after both tables have been emptied and before anything is
    written: the persisted graph is empty, whatever it held before. *)
Theorem importGraph_fetch_rejected (calculateDistance : Q → Q → Q → Q → Q)
    (uuid : nat → string) (db : GraphDb) (response : AxiosResult) :
  fetchOSMData response = None →
  let after := importGraph calculateDistance uuid db response in
  after.2 = ExitFailure ∧ graphNode after.1 = [] ∧ graphEdge after.1 = [] ∧
  (∀ row, row ∈ graphNode db → row ∉ graphNode after.1) ∧
  (∀ row, row ∈ graphEdge db → row ∉ graphEdge after.1).
Proof.
  intros Hfetch. unfold importGraph. rewrite Hfetch. simpl.
  split_and!; try done; intros row _; apply not_elem_of_nil.
Qed.

Lemma importGraph_fetch_rejected_witness :
  let after := importGraph meridianDistance exampleUuid straightDb AxiosRejected in
  after.2 = ExitFailure ∧ graphNode after.1 = [] ∧ graphEdge after.1 = [] ∧
  (∀ row, row ∈ graphNode straightDb → row ∉ graphNode after.1) ∧
  (∀ row, row ∈ graphEdge straightDb → row ∉ graphEdge after.1).
Proof.
  apply (importGraph_fetch_rejected meridianDistance exampleUuid straightDb AxiosRejected).
  reflexivity.
Defined.

(** C2 as stated fails: a node and an edge present before a failed
    import are gone after it. *)
Lemma importGraph_fetch_rejected_loses_rows :
  let node := GraphNode.mk "a" 1 0 0 in
  let edge := GraphEdge.mk "e" "a" "a" 0 0 1 in
  let db := mkGraphDb [node] [edge] in
  let after := (importGraph meridianDistance exampleUuid db AxiosRejected).1 in
  node ∈ graphNode db ∧ edge ∈ graphEdge db ∧
  (node ∉ graphNode after) ∧ (edge ∉ graphEdge after).
Proof.
  simpl. split_and!; [set_solver|set_solver| |]; apply not_elem_of_nil.
Qed.

(** ** Paths *)

Lemma isPath_app edges u p v q w :
  isPath edges u p v → isPath edges v q w → isPath edges u (p ++ q) w.
Proof. induction 1; simpl; [done|]. intros. econstructor; eauto. Qed.

Lemma isPath_snoc edges u p e :
  isPath edges u p (GraphEdge.startNodeId e) → e ∈ edges →
  isPath edges u (p ++ [e]) (GraphEdge.endNodeId e).
Proof.
  intros Hp He. eapply isPath_app; [done|].
  econstructor; [done|done|constructor].
Qed.

Lemma pathCost_app p q : (pathCost (p ++ q) == pathCost p + pathCost q)%Q.
Proof. induction p as [|e p IH]; simpl; [lra|]. rewrite IH. lra. Qed.

Lemma pathDistance_app p q : (pathDistance (p ++ q) == pathDistance p + pathDistance q)%Q.
Proof. induction p as [|e p IH]; simpl; [lra|]. rewrite IH. lra. Qed.

Lemma chain_isPath edges start cf vis n p :
  chain edges start cf vis n p → isPath edges start p n.
Proof.
  induction 1 as [|n c e p ? ? ? ? Hs He ? IH ?]; [constructor|].
  rewrite <- He. apply isPath_snoc; [by rewrite Hs|done].
Qed.

Lemma chain_mono edges start cf vis vis' n p :
  vis ⊆ vis' → chain edges start cf vis n p → chain edges start cf vis' n p.
Proof. intros Hsub. induction 1; econstructor; eauto. Qed.

(** ** The queue *)

Section QueueFacts.

Context {T : Type} `{TinyQueue T} (laws : TinyQueueLaws T).

Lemma tq_pop_Some q x q' :
  tq_pop q = Some (x, q') →
  tq_items q ≡ₚ x :: tq_items q' ∧
  Forall (λ y, (QueueItem.fScore x <= QueueItem.fScore y)%Q) (tq_items q').
Proof.
  intros Hpop. destruct (decide (tq_items q = [])) as [Hnil|Hne].
  - rewrite (tq_pop_empty T laws q Hnil) in Hpop. done.
  - destruct (tq_pop_min T laws q Hne) as (y & r & Hy & Hperm & Hmin).
    rewrite Hy in Hpop. by simplify_eq.
Qed.

Lemma tq_pop_None q : tq_pop q = None → tq_items q = [].
Proof.
  intros Hpop. destruct (decide (tq_items q = [])) as [Hnil|Hne]; [done|].
  destruct (tq_pop_min T laws q Hne) as (y & r & Hy & _). congruence.
Qed.

End QueueFacts.

Lemma extractMin_spec x rest :
  x :: rest ≡ₚ (extractMin x rest).1 :: (extractMin x rest).2 ∧
  Forall (λ y, (QueueItem.fScore (extractMin x rest).1 <= QueueItem.fScore y)%Q)
         ((extractMin x rest).2).
Proof.
  revert x. induction rest as [|y rest IH]; intros x; simpl; [done|].
  destruct (IH y) as [Hperm Hmin]. destruct (extractMin y rest) as [m r]. simpl in *.
  destruct (Qle_bool _ _) eqn:Hle; simpl.
  - apply Qle_bool_iff in Hle. split; [done|].
    rewrite Hperm. constructor; [done|].
    eapply Forall_impl; [exact Hmin|]. simpl. intros z Hz. lra.
  - assert (QueueItem.fScore m <= QueueItem.fScore x)%Q as Hmx.
    { apply Qlt_le_weak, Qltb_true. unfold Qltb. by rewrite Hle. }
    split; [|by constructor].
    rewrite Hperm. apply perm_swap.
Qed.

(** The list queue is a lawful [TinyQueue]. *)
Lemma ListQueue_laws : TinyQueueLaws (list QueueItem.t).
Proof.
  split; simpl.
  - done.
  - intros q x. by rewrite Permutation_app_comm.
  - by intros [|].
  - intros [|x rest] Hne; [done|]. simpl.
    destruct (extractMin_spec x rest) as [Hperm Hmin].
    destruct (extractMin x rest) as [m r]. by exists m, r.
Qed.

(** ** The search loop *)

Section SearchFacts.

Variable heuristic : Q → Q → Q → Q → Q.
Context {T : Type} `{TinyQueue T} (laws : TinyQueueLaws T).
Variable nodeMap : gmap string PathNode.t.
Variable edges : list PathEdge.
Variable endNode : PathNode.t.

Local Abbreviation adjacency := (buildAdjacencyList edges).
Local Abbreviation relax := (relaxNeighbor heuristic nodeMap endNode).
Local Abbreviation expand := (expandNode heuristic nodeMap adjacency endNode).
Local Abbreviation items st := (tq_items (openSet st)).

Lemma searchLoop_run fuel (st : SearchState) :
  searchLoop heuristic nodeMap adjacency endNode fuel st =
  match searchRun heuristic nodeMap adjacency endNode fuel st with
  | RunOutOfFuel => Diverges
  | RunExhausted st' => Returns ([LogNoPath (size (visited st'))], None)
  | RunReached st' => pathFound nodeMap endNode st'
  end.
Proof.
  revert st. induction fuel as [|fuel IH]; intros st; simpl; [done|].
  destruct (tq_pop (openSet st)) as [[current rest]|]; [|done].
  destruct (decide (QueueItem.nodeId current = PathNode.id endNode)); [done|].
  destruct (decide (QueueItem.nodeId current ∈ _)); apply IH.
Qed.

(** A loop invariant is kept up to the state in which the loop ends. *)
Lemma searchRun_invariant (I : SearchState → Prop) :
  (∀ st current rest,
      I st → tq_pop (openSet st) = Some (current, rest) →
      QueueItem.nodeId current ≠ PathNode.id endNode →
      QueueItem.nodeId current ∈ visited st →
      I (withOpenSet st rest)) →
  (∀ st current rest,
      I st → tq_pop (openSet st) = Some (current, rest) →
      QueueItem.nodeId current ≠ PathNode.id endNode →
      QueueItem.nodeId current ∉ visited st →
      I (expand (withOpenSet st rest) (QueueItem.nodeId current))) →
  ∀ fuel st, I st →
    match searchRun heuristic nodeMap adjacency endNode fuel st with
    | RunOutOfFuel => True
    | RunExhausted st' => I st' ∧ tq_pop (openSet st') = None
    | RunReached st' =>
        ∃ st0 current, I st0 ∧ tq_pop (openSet st0) = Some (current, openSet st') ∧
                       QueueItem.nodeId current = PathNode.id endNode ∧
                       st' = withOpenSet st0 (openSet st')
    end.
Proof.
  intros Hskip Hexpand fuel. induction fuel as [|fuel IH]; intros st Hst; simpl; [done|].
  destruct (tq_pop (openSet st)) as [[current rest]|] eqn:Hpop; [|done].
  case_decide as Hend; [by exists st, current|].
  case_decide as Hvis; apply IH; eauto.
Qed.

Lemma foldl_relax_invariant (Q : list Neighbor.t → SearchState → Prop) current :
  (∀ nb rest st, Q (nb :: rest) st → Q rest (relax current st nb)) →
  ∀ nbs st, Q nbs st → Q [] (foldl (relax current) st nbs).
Proof.
  intros Hstep nbs. induction nbs as [|nb nbs IH]; intros st Hst; simpl; [done|].
  apply IH, Hstep, Hst.
Qed.

Lemma relax_visited current st nb : visited (relax current st nb) = visited st.
Proof.
  unfold relaxNeighbor. destruct (gScore st !! current); simpl; [|done].
  by destruct (ltInf _ _).
Qed.

Lemma expand_visited st current :
  visited (expand st current) = {[current]} ∪ visited st.
Proof.
  unfold expandNode.
  apply (foldl_relax_invariant
           (λ _ st', visited st' = {[current]} ∪ visited st) current); [|done].
  intros nb rest st' Hst'. by rewrite relax_visited.
Qed.

Lemma relax_items_length current st nb :
  length (items (relax current st nb)) ≤ S (length (items st)).
Proof.
  unfold relaxNeighbor. destruct (gScore st !! current); simpl; [|lia].
  destruct (ltInf _ _); simpl; [|lia].
  destruct (nodeMap !! _); [|lia].
  rewrite (tq_push_items T laws). simpl. lia.
Qed.

Lemma expand_items_length st current :
  length (items (expand st current)) ≤
  length (items st) + length (filter (λ e, GraphEdge.startNodeId e = current) edges).
Proof.
  unfold expandNode. rewrite buildAdjacencyList_lookup.
  set (out := filter _ edges). rewrite <- (length_fmap neighborOf out).
  generalize (neighborOf <$> out). intros nbs.
  change (items st) with (items (markVisited st current)).
  generalize (markVisited st current). clear st.
  induction nbs as [|nb nbs IH]; intros st; simpl; [lia|].
  specialize (IH (relax current st nb)).
  pose proof (relax_items_length current st nb). lia.
Qed.

Lemma unexpanded_visit vis n :
  n ∉ vis →
  unexpanded edges vis =
  length (filter (λ e, GraphEdge.startNodeId e = n) edges) + unexpanded edges ({[n]} ∪ vis).
Proof.
  intros Hn. unfold unexpanded. induction edges as [|e l IH]; [done|].
  rewrite !filter_cons. repeat case_decide; simpl; try lia; set_solver.
Qed.

(** The loop itself never runs out of rounds. *)
Lemma searchRun_fuel fuel (st : SearchState) :
  length (items st) + unexpanded edges (visited st) < fuel →
  searchRun heuristic nodeMap adjacency endNode fuel st ≠ RunOutOfFuel.
Proof.
  revert st. induction fuel as [|fuel IH]; intros st Hfuel; [lia|]. simpl.
  destruct (tq_pop (openSet st)) as [[current rest]|] eqn:Hpop; [|done].
  apply (tq_pop_Some laws) in Hpop as [Hperm _].
  apply Permutation_length in Hperm. simpl in Hperm.
  case_decide; [done|]. case_decide as Hvis.
  - apply IH. simpl. lia.
  - apply IH. rewrite expand_visited. simpl visited.
    pose proof (expand_items_length (withOpenSet st rest) (QueueItem.nodeId current)) as Hlen.
    simpl in Hlen, Hvis. rewrite (unexpanded_visit _ _ Hvis) in Hfuel. lia.
Qed.

End SearchFacts.

(** ** Relaxation *)

Section Relaxation.

Variable heuristic : Q → Q → Q → Q → Q.
Context {T : Type} `{TinyQueue T}.
Variable nodeMap : gmap string PathNode.t.
Variable endNode : PathNode.t.

Local Abbreviation relax := (relaxNeighbor heuristic nodeMap endNode).

Lemma relax_unknown_current current (st : SearchState) nb :
  gScore st !! current = None → relax current st nb = st.
Proof. intros Hg. unfold relaxNeighbor. by rewrite Hg. Qed.

Lemma relax_not_lower current (st : SearchState) nb g old :
  gScore st !! current = Some g →
  gScore st !! Neighbor.nodeId nb = Some old →
  (old <= g + Neighbor.cost nb)%Q →
  relax current st nb = st.
Proof.
  intros Hg Hold Hle. unfold relaxNeighbor. rewrite Hg, Hold. simpl.
  by rewrite (proj2 (Qltb_false _ _) Hle).
Qed.

Lemma relax_lower current (st : SearchState) nb g :
  gScore st !! current = Some g →
  ltInf (g + Neighbor.cost nb) (gScore st !! Neighbor.nodeId nb) = true →
  let st' := relax current st nb in
  gScore st' = <[Neighbor.nodeId nb := (g + Neighbor.cost nb)%Q]> (gScore st) ∧
  cameFrom st' = <[Neighbor.nodeId nb := current]> (cameFrom st) ∧
  distanceFrom st' =
    <[Neighbor.nodeId nb :=
        (default 0 (distanceFrom st !! current) + Neighbor.distance nb)%Q]>
      (distanceFrom st) ∧
  visited st' = visited st ∧
  openSet st' =
    match nodeMap !! Neighbor.nodeId nb with
    | Some _ => tq_push (openSet st)
                  (QueueItem.mk (Neighbor.nodeId nb)
                                (g + Neighbor.cost nb + hOf heuristic nodeMap endNode
                                                            (Neighbor.nodeId nb)))
    | None => openSet st
    end.
Proof.
  intros Hg Hlt. unfold relaxNeighbor, hOf. rewrite Hg. simpl. rewrite Hlt. simpl.
  split_and!; try done. by destruct (nodeMap !! _).
Qed.

(** C8. (1) A relaxation either changes nothing or the tentative cost is
    strictly below the recorded one, an absent record counting as
    infinite, and then predecessor, cost and distance are the new ones.
    (2) With no recorded cost for the current node nothing changes.
    (3) A neighbour with no recorded cost is given the tentative cost
    (absent is not read as zero). (4) A tentative cost that is not
    strictly lower changes nothing. (5) So a zero-distance self-loop
    changes nothing. (6) A node without adjacency entry is expanded as a
    node without outgoing edges: it is marked visited and nothing else
    changes. *)
Theorem relaxNeighbor_strict (current : string) (st : SearchState) (nb : Neighbor.t)
    (adjacency : gmap string (list Neighbor.t)) (edge : PathEdge) :
  let st' := relax current st nb in
  (st' = st ∨
   ∃ g, gScore st !! current = Some g ∧
        match gScore st !! Neighbor.nodeId nb with
        | Some old => (g + Neighbor.cost nb < old)%Q
        | None => True
        end ∧
        gScore st' !! Neighbor.nodeId nb = Some (g + Neighbor.cost nb)%Q ∧
        cameFrom st' !! Neighbor.nodeId nb = Some current ∧
        distanceFrom st' !! Neighbor.nodeId nb =
          Some (default 0 (distanceFrom st !! current) + Neighbor.distance nb)%Q) ∧
  (gScore st !! current = None → st' = st) ∧
  (∀ g, gScore st !! current = Some g → gScore st !! Neighbor.nodeId nb = None →
        gScore st' !! Neighbor.nodeId nb = Some (g + Neighbor.cost nb)%Q) ∧
  (∀ g old, gScore st !! current = Some g →
            gScore st !! Neighbor.nodeId nb = Some old →
            ¬ (g + Neighbor.cost nb < old)%Q → st' = st) ∧
  (GraphEdge.startNodeId edge = GraphEdge.endNodeId edge →
   (GraphEdge.distance edge == 0)%Q →
   relax (GraphEdge.startNodeId edge) st (neighborOf edge) = st) ∧
  (adjacency !! current = None →
   expandNode heuristic nodeMap adjacency endNode st current = markVisited st current).
Proof.
  intros st'. split_and!.
  - destruct (gScore st !! current) as [g|] eqn:Hg;
      [|left; by apply relax_unknown_current].
    destruct (ltInf (g + Neighbor.cost nb) (gScore st !! Neighbor.nodeId nb)) eqn:Hlt.
    + right. exists g. split; [done|].
      destruct (relax_lower current st nb g Hg Hlt) as (Hgs & Hcf & Hdf & _).
      fold st' in Hgs, Hcf, Hdf. rewrite Hgs, Hcf, Hdf, !lookup_insert_eq.
      split_and!; try done.
      destruct (gScore st !! Neighbor.nodeId nb); [by apply Qltb_true|done].
    + left. subst st'. unfold relaxNeighbor. rewrite Hg. simpl. by rewrite Hlt.
  - apply relax_unknown_current.
  - intros g Hg Hnone.
    destruct (relax_lower current st nb g Hg) as (Hgs & _); [by rewrite Hnone|].
    fold st' in Hgs. by rewrite Hgs, lookup_insert_eq.
  - intros g old Hg Hold Hnlt. eapply relax_not_lower; [done..|].
    by apply Qnot_lt_le.
  - intros Hloop Hzero.
    destruct (gScore st !! GraphEdge.startNodeId edge) as [g|] eqn:Hg;
      [|by apply relax_unknown_current].
    eapply relax_not_lower; [done| |].
    + simpl. by rewrite <- Hloop.
    + simpl. rewrite Hzero. lra.
  - intros Hnone. unfold expandNode. by rewrite Hnone.
Qed.

End Relaxation.

(** ** What the queue holds *)

Section QueueInvariants.

Variable heuristic : Q → Q → Q → Q → Q.
Context {T : Type} `{TinyQueue T} (laws : TinyQueueLaws T).
Variable nodeMap : gmap string PathNode.t.
Variable edges : list PathEdge.
Variable endNode : PathNode.t.
Variable start : string.

Local Abbreviation adjacency := (buildAdjacencyList edges).
Local Abbreviation relax := (relaxNeighbor heuristic nodeMap endNode).
Local Abbreviation expand := (expandNode heuristic nodeMap adjacency endNode).
Local Abbreviation items st := (tq_items (openSet st)).

Lemma relax_items current (st : SearchState) nb :
  relax current st nb = st ∨
  cameFrom (relax current st nb) = <[Neighbor.nodeId nb := current]> (cameFrom st) ∧
  (items (relax current st nb) = items st ∨
   ∃ f, is_Some (nodeMap !! Neighbor.nodeId nb) ∧
        items (relax current st nb) ≡ₚ QueueItem.mk (Neighbor.nodeId nb) f :: items st).
Proof.
  destruct (gScore st !! current) as [g|] eqn:Hg;
    [|left; by apply relax_unknown_current].
  destruct (ltInf (g + Neighbor.cost nb) (gScore st !! Neighbor.nodeId nb)) eqn:Hlt.
  - right. destruct (relax_lower heuristic nodeMap endNode current st nb g Hg Hlt)
      as (_ & Hcf & _ & _ & Hq).
    split; [done|]. rewrite Hq. destruct (nodeMap !! Neighbor.nodeId nb) eqn:Hn.
    + right. eexists. split; [done|]. apply (tq_push_items T laws).
    + by left.
  - left. unfold relaxNeighbor. rewrite Hg. simpl. by rewrite Hlt.
Qed.

(** An invariant kept by each relaxation along an edge that leaves
    [current] is kept by the expansion of [current]. *)
Lemma expand_invariant (I : SearchState → Prop) (st : SearchState) current :
  I (markVisited st current) →
  (∀ st' e, I st' → e ∈ edges → GraphEdge.startNodeId e = current →
            I (relax current st' (neighborOf e))) →
  I (expand st current).
Proof.
  intros Hinit Hstep. unfold expandNode. rewrite buildAdjacencyList_lookup.
  apply (foldl_relax_invariant heuristic nodeMap endNode
           (λ rest st', I st' ∧
              ∀ nb, nb ∈ rest →
                    ∃ e, e ∈ edges ∧ GraphEdge.startNodeId e = current ∧ nb = neighborOf e)
           current).
  - intros nb rest st' [Hst' Hrest]. split; [|intros; apply Hrest; set_solver].
    destruct (Hrest nb) as (e & He & Hs & ->); [set_solver|]. by apply Hstep.
  - split; [done|]. intros nb (e & -> & [Hs He]%list_elem_of_filter)%list_elem_of_fmap.
    by exists e.
Qed.

Lemma queueReachable_run fuel (st : SearchState) :
  queueReachable edges start st →
  match searchRun heuristic nodeMap adjacency endNode fuel st with
  | RunOutOfFuel => True
  | RunExhausted _ => True
  | RunReached _ => ∃ p, isPath edges start p (PathNode.id endNode)
  end.
Proof.
  intros Hst.
  pose proof (searchRun_invariant heuristic nodeMap edges endNode (queueReachable edges start)) as Hinv.
  lapply Hinv; [clear Hinv; intros Hinv; lapply Hinv; [clear Hinv; intros Hinv|]|].
  - specialize (Hinv fuel st Hst). destruct (searchRun _ _ _ _ _ _) as [| |st']; try done.
    destruct Hinv as (st0 & current & Hst0 & [Hperm _]%(tq_pop_Some laws) & Hend & _).
    rewrite <- Hend. apply Hst0. rewrite Hperm. set_solver.
  - intros st0 current rest Hst0 [Hperm _]%(tq_pop_Some laws) _ _.
    destruct (Hst0 current) as [pc Hpc]; [rewrite Hperm; set_solver|].
    apply expand_invariant.
    + intros item Hitem. apply Hst0. rewrite Hperm. simpl in Hitem. set_solver.
    + intros st' e Hst' He Hs item Hitem.
      destruct (relax_items (QueueItem.nodeId current) st' (neighborOf e))
        as [Heq|[_ [Heq|(f & _ & Hpush)]]]; [rewrite Heq in Hitem; by apply Hst'..|].
      rewrite Hpush in Hitem. apply elem_of_cons in Hitem as [->|Hitem]; [|by apply Hst'].
      simpl. exists (pc ++ [e]). apply isPath_snoc; [by rewrite Hs|done].
  - intros st0 current rest Hst0 [Hperm _]%(tq_pop_Some laws) _ _ item Hitem.
    apply Hst0. rewrite Hperm. simpl in Hitem. set_solver.
Qed.

Lemma queueLinked_run fuel (st : SearchState) :
  queueLinked nodeMap start st →
  match searchRun heuristic nodeMap adjacency endNode fuel st with
  | RunOutOfFuel => True
  | RunExhausted _ => True
  | RunReached st' =>
      is_Some (nodeMap !! PathNode.id endNode) ∧
      (PathNode.id endNode ≠ start →
       ∃ c, cameFrom st' !! PathNode.id endNode = Some c ∧ is_Some (nodeMap !! c))
  end.
Proof.
  intros Hst.
  pose proof (searchRun_invariant heuristic nodeMap edges endNode (queueLinked nodeMap start)) as Hinv.
  lapply Hinv; [clear Hinv; intros Hinv; lapply Hinv; [clear Hinv; intros Hinv|]|].
  - specialize (Hinv fuel st Hst). destruct (searchRun _ _ _ _ _ _) as [| |st']; try done.
    destruct Hinv as (st0 & current & [Hq Hcf] & [Hperm _]%(tq_pop_Some laws) & Hend & ->).
    destruct (Hq current) as [Hnode Hlink]; [rewrite Hperm; set_solver|].
    rewrite Hend in Hnode, Hlink. split; [done|]. intros Hne.
    destruct (Hlink Hne) as [c Hc]. exists c. simpl. split; [done|]. by eapply Hcf.
  - intros st0 current rest [Hq Hcf] [Hperm _]%(tq_pop_Some laws) _ _.
    destruct (Hq current) as [Hcur _]; [rewrite Hperm; set_solver|].
    apply expand_invariant.
    + split; [|done]. intros item Hitem. apply Hq. rewrite Hperm. simpl in Hitem. set_solver.
    + intros st' e [Hq' Hcf'] He Hs.
      destruct (relax_items (QueueItem.nodeId current) st' (neighborOf e))
        as [->|[Hcfeq Hitems]]; [done|].
      split.
      * intros item Hitem.
        assert (item ∈ items st' ∨
                QueueItem.nodeId item = Neighbor.nodeId (neighborOf e) ∧
                is_Some (nodeMap !! Neighbor.nodeId (neighborOf e))) as [Hold|[Hnew Hnode]].
        { destruct Hitems as [Heq|(f & Hn & Hpush)]; [left; by rewrite <- Heq|].
          rewrite Hpush in Hitem. apply elem_of_cons in Hitem as [->|Hitem]; auto. }
        -- destruct (Hq' item Hold) as [Hn Hl]. split; [done|]. intros Hne.
           rewrite Hcfeq. rewrite lookup_insert_is_Some. specialize (Hl Hne).
           destruct (decide (Neighbor.nodeId (neighborOf e) = QueueItem.nodeId item)); auto.
        -- rewrite Hnew. split; [done|]. intros _. rewrite Hcfeq, lookup_insert_eq. eauto.
      * intros n c. rewrite Hcfeq. rewrite lookup_insert_Some.
        intros [[_ <-]|[_ Hc]]; [done|by eapply Hcf'].
  - intros st0 current rest [Hq Hcf] [Hperm _]%(tq_pop_Some laws) _ _. split; [|done].
    intros item Hitem. apply Hq. rewrite Hperm. simpl in Hitem. set_solver.
Qed.

End QueueInvariants.

(** ** [findPath]: the failures and the length of the path *)

Lemma buildNodeMap_lookup allNodes k :
  is_Some (buildNodeMap allNodes !! k) ↔ ∃ node, node ∈ allNodes ∧ PathNode.id node = k.
Proof.
  unfold buildNodeMap. induction allNodes as [|x l IH] using rev_ind.
  - simpl. rewrite lookup_empty. split; [by intros [? ?]|]. intros (? & []%elem_of_nil & _).
  - rewrite foldl_snoc, lookup_insert_is_Some, IH. split.
    + intros [<-|[_ (node & Hin & <-)]]; [exists x|exists node]; set_solver.
    + intros (node & [Hin| ->%list_elem_of_singleton]%elem_of_app & <-); [|by left].
      destruct (decide (PathNode.id x = PathNode.id node)); [by left|right; eauto].
Qed.

Section FindPathFacts.

Variable heuristic : Q → Q → Q → Q → Q.
Context {T : Type} `{TinyQueue T} (laws : TinyQueueLaws T).

Lemma findNearestNode_known db lat lng node :
  findNearestNode heuristic db lat lng = Some node →
  is_Some (buildNodeMap (selectPathNode <$> graphNode db) !! PathNode.id node).
Proof.
  intros (row & Hrow & ->)%(findNearestNode_row heuristic). apply buildNodeMap_lookup.
  exists (selectPathNode row). split; [by apply list_elem_of_fmap_2|done].
Qed.

Lemma initialSearch_items (startNode : PathNode.t) :
  tq_items (openSet (initialSearch startNode)) = [QueueItem.mk (PathNode.id startNode) 0].
Proof. simpl. apply Permutation_length_1_inv. symmetry. apply (tq_new_items T laws). Qed.

Lemma initialSearch_fuel nodeMap edges endNode (startNode : PathNode.t) :
  searchRun heuristic nodeMap (buildAdjacencyList edges) endNode (searchFuel edges)
            (initialSearch startNode) ≠ RunOutOfFuel.
Proof.
  apply (searchRun_fuel heuristic laws). rewrite initialSearch_items. simpl.
  unfold searchFuel, unexpanded. simpl.
  apply ->Nat.succ_lt_mono. apply Nat.lt_succ_r, length_filter.
Qed.

(** What [findPath] returns once both endpoints are snapped, in terms of
    the state in which the loop ends. *)
Lemma findPath_run db startLat startLng endLat endLng startNode endNode :
  findNearestNode heuristic db startLat startLng = Some startNode →
  findNearestNode heuristic db endLat endLng = Some endNode →
  let nodeMap := buildNodeMap (selectPathNode <$> graphNode db) in
  let log2 := [LogFinding startLat startLng endLat endLng;
               LogStartEnd (PathNode.id startNode) (PathNode.id endNode);
               LogLoaded (length (graphNode db)) (length (graphEdge db))] in
  match searchRun heuristic nodeMap (buildAdjacencyList (graphEdge db)) endNode
                  (searchFuel (graphEdge db)) (initialSearch startNode) with
  | RunOutOfFuel => False
  | RunExhausted st =>
      findPath heuristic db startLat startLng endLat endLng =
      Returns (log2 ++ [LogNoPath (size (visited st))], None)
  | RunReached st =>
      findPath heuristic db startLat startLng endLat endLng =
      match pathFound nodeMap endNode st with
      | Diverges => Diverges
      | Returns (log, result) => Returns (log2 ++ log, result)
      end
  end.
Proof.
  intros Hs He nodeMap log2. unfold findPath. rewrite Hs, He. fold nodeMap.
  rewrite searchLoop_run, length_fmap.
  pose proof (initialSearch_fuel nodeMap (graphEdge db) endNode startNode) as Hfuel.
  by destruct (searchRun _ _ _ _ _ _).
Qed.

(** C5 as amended. Both failures return [null]: when an endpoint has no
    node within the largest radius the call logs that and returns
    [null]; when both endpoints are snapped and no path leads from the
    start node to the end node, the search ends, the call logs that no
    path was found and returns [null] as well. Neither diverges or
    throws. *)
Theorem findPath_failures_return_null (db : GraphDb) (startLat startLng endLat endLng : Q) :
  (findNearestNode heuristic db startLat startLng = None ∨
   findNearestNode heuristic db endLat endLng = None →
   findPath heuristic db startLat startLng endLat endLng =
   Returns ([LogFinding startLat startLng endLat endLng; LogNoStartOrEnd], None)) ∧
  (∀ startNode endNode,
     findNearestNode heuristic db startLat startLng = Some startNode →
     findNearestNode heuristic db endLat endLng = Some endNode →
     (∀ p, ¬ isPath (graphEdge db) (PathNode.id startNode) p (PathNode.id endNode)) →
     ∃ visitedSize,
       findPath heuristic db startLat startLng endLat endLng =
       Returns ([LogFinding startLat startLng endLat endLng;
                 LogStartEnd (PathNode.id startNode) (PathNode.id endNode);
                 LogLoaded (length (graphNode db)) (length (graphEdge db));
                 LogNoPath visitedSize], None)).
Proof.
  split.
  - unfold findPath. intros [-> | ->]; [done|]. by destruct (findNearestNode _ _ _ _).
  - intros startNode endNode Hs He Hnopath.
    pose proof (findPath_run db _ _ _ _ _ _ Hs He) as Hrun. cbv zeta in Hrun.
    pose proof (queueReachable_run heuristic laws
                  (buildNodeMap (selectPathNode <$> graphNode db)) (graphEdge db) endNode
                  (PathNode.id startNode) (searchFuel (graphEdge db))
                  (initialSearch startNode)) as Hreach.
    destruct (searchRun _ _ _ _ _ _) as [|st|st]; [done|eexists; exact Hrun|].
    destruct Hreach as [p Hp]; [|by destruct (Hnopath p)].
    intros item. rewrite initialSearch_items. intros ->%list_elem_of_singleton.
    exists []. constructor.
Qed.

Lemma reconstructPath_length nodeMap fuel cf nodeId acc path :
  reconstructPath nodeMap fuel cf nodeId acc = Returns path → length acc ≤ length path.
Proof.
  revert nodeId acc. induction fuel as [|fuel IH]; intros [nid|] acc; simpl;
    try case_decide; intros Hret; simplify_eq; try done.
  apply IH in Hret. destruct (nodeMap !! nid); simpl in Hret; lia.
Qed.

(** C9 as amended. A successful result has exactly one point when start
    and end snap to the same node and at least two points when they snap
    to different nodes (node identifiers being non-empty strings). *)
Theorem findPath_path_length (db : GraphDb) (startLat startLng endLat endLng : Q)
    (startNode endNode : PathNode.t) (log : list LogLine) (result : PathResult.t) :
  (∀ n, n ∈ graphNode db → GraphNode.id n ≠ "") →
  findNearestNode heuristic db startLat startLng = Some startNode →
  findNearestNode heuristic db endLat endLng = Some endNode →
  findPath heuristic db startLat startLng endLat endLng = Returns (log, Some result) →
  (PathNode.id startNode = PathNode.id endNode → length (PathResult.path result) = 1) ∧
  (PathNode.id startNode ≠ PathNode.id endNode → 2 ≤ length (PathResult.path result)).
Proof.
  intros Hids Hs He Hret.
  set (nodeMap := buildNodeMap (selectPathNode <$> graphNode db)).
  assert (∀ k, is_Some (nodeMap !! k) → k ≠ "") as Hkeys.
  { intros k (node & (row & -> & Hrow)%list_elem_of_fmap & <-)%buildNodeMap_lookup.
    by apply Hids. }
  pose proof (findNearestNode_known db _ _ _ Hs) as Hstart. fold nodeMap in Hstart.
  pose proof (findNearestNode_known db _ _ _ He) as Hend. fold nodeMap in Hend.
  pose proof (findPath_run db _ _ _ _ _ _ Hs He) as Hrun. cbv zeta in Hrun.
  fold nodeMap in Hrun. split.
  - intros Heq. unfold searchFuel in Hrun. simpl in Hrun.
    destruct (tq_pop (tq_new _)) as [[current rest]|] eqn:Hpop.
    2:{ apply (tq_pop_None laws) in Hpop.
        pose proof (initialSearch_items startNode) as Hitems. simpl in Hitems. congruence. }
    apply (tq_pop_Some laws) in Hpop as [Hperm _].
    pose proof (initialSearch_items startNode) as Hitems. simpl in Hitems.
    rewrite Hitems in Hperm. apply Permutation_length_1_inv in Hperm. simplify_eq.
    simpl in Hrun. rewrite decide_True in Hrun by done.
    rewrite Hrun in Hret. unfold pathFound in Hret. simpl in Hret.
    rewrite map_size_empty in Hret. simpl in Hret.
    rewrite decide_False in Hret by by apply Hkeys.
    destruct Hend as [node Hnode]. rewrite Hnode, lookup_empty in Hret. simpl in Hret.
    by simplify_eq.
  - intros Hne.
    pose proof (queueLinked_run heuristic laws nodeMap (graphEdge db) endNode
                  (PathNode.id startNode) (searchFuel (graphEdge db))
                  (initialSearch startNode)) as Hlinked.
    destruct (searchRun _ _ _ _ _ _) as [|st|st]; [done|congruence|].
    destruct Hlinked as [_ Hlink].
    { split; [|by intros n c; simpl; rewrite lookup_empty].
      intros item. rewrite initialSearch_items. intros ->%list_elem_of_singleton. done. }
    destruct (Hlink (not_eq_sym Hne)) as (c & Hc & Hcnode).
    rewrite Hrun in Hret. unfold pathFound in Hret.
    destruct (reconstructPath _ _ _ _ _) as [|path] eqn:Hrec; [done|].
    simplify_eq. simpl in *.
    rewrite decide_False in Hrec by by apply Hkeys.
    destruct Hend as [node Hnode]. rewrite Hnode, Hc in Hrec.
    destruct (size (cameFrom st)) as [|fuel]; simpl in Hrec.
    { rewrite decide_False in Hrec by by apply Hkeys. done. }
    rewrite decide_False in Hrec by by apply Hkeys.
    destruct Hcnode as [cnode Hcnode]. rewrite Hcnode in Hrec.
    apply reconstructPath_length in Hrec. simpl in Hrec. lia.
Qed.

End FindPathFacts.

(** ** Optimality of the search under a consistent heuristic *)

Lemma pathNodes_snoc u p e :
  pathNodes u (p ++ [e]) = pathNodes u p ++ [GraphEdge.endNodeId e].
Proof. unfold pathNodes. by rewrite fmap_app. Qed.

Lemma chain_nodes_visited edges start cf (vis : gset string) n p :
  chain edges start cf vis n p → start ∈ vis → n ∈ vis →
  ∀ m, m ∈ pathNodes start p → m ∈ vis.
Proof.
  induction 1 as [|n c e p ? ? ? ? ? Hn ? IH ?]; intros Hstart Hvis m.
  - unfold pathNodes. simpl. by intros ->%list_elem_of_singleton.
  - rewrite pathNodes_snoc, elem_of_app, Hn.
    intros [Hm| ->%list_elem_of_singleton]; [by apply IH|done].
Qed.

Lemma chain_insert edges start cf (vis : gset string) v c' n p :
  chain edges start cf vis n p → v ∉ vis → n ≠ v →
  chain edges start (<[v := c']> cf) vis n p.
Proof.
  induction 1 as [|n c e p ? ? ? ? ? ? ? IH ?]; intros Hv Hn; [constructor|].
  econstructor; eauto.
  - by rewrite lookup_insert_ne.
  - apply IH; [done|]. intros ->. done.
Qed.

Lemma chain_pathNodes edges start cf (vis : gset string) n p :
  chain edges start cf vis n p → NoDup (pathNodes start p) ∧ last (pathNodes start p) = Some n.
Proof.
  induction 1 as [|n c e p ? ? ? ? ? Hn ? [IHn IHl] Hfresh].
  - unfold pathNodes. simpl. split; [apply NoDup_singleton|done].
  - rewrite pathNodes_snoc, Hn. split; [|by rewrite last_snoc].
    apply NoDup_app. split_and!; [done| |apply NoDup_singleton].
    intros m Hm ->%list_elem_of_singleton. done.
Qed.

(** A path that leaves the expanded nodes has a first edge that does so. *)
Lemma isPath_frontier edges (vis : gset string) u p n :
  isPath edges u p n → u ∈ vis → n ∉ vis →
  ∃ p1 e p2, p = p1 ++ e :: p2 ∧ isPath edges u p1 (GraphEdge.startNodeId e) ∧
             GraphEdge.startNodeId e ∈ vis ∧ e ∈ edges ∧
             (GraphEdge.endNodeId e ∉ vis) ∧ isPath edges (GraphEdge.endNodeId e) p2 n.
Proof.
  induction 1 as [u|u e p v He Hs Hp IH]; intros Hu Hn; [done|].
  destruct (decide (GraphEdge.endNodeId e ∈ vis)) as [Hin|Hout].
  - destruct (IH Hin Hn) as (p1 & e' & p2 & -> & Hp1 & Hs' & He' & He'' & Hp2).
    exists (e :: p1), e', p2. split_and!; try done. by econstructor.
  - exists [], e, p. rewrite Hs. split_and!; try done. constructor.
Qed.

Section Optimality.

Variable heuristic : Q → Q → Q → Q → Q.
Context {T : Type} `{TinyQueue T} (laws : TinyQueueLaws T).
Variable nodeMap : gmap string PathNode.t.
Variable edges : list PathEdge.
Variable endNode : PathNode.t.
Variable start : string.

Local Abbreviation adjacency := (buildAdjacencyList edges).
Local Abbreviation relax := (relaxNeighbor heuristic nodeMap endNode).
Local Abbreviation expand := (expandNode heuristic nodeMap adjacency endNode).
Local Abbreviation items st := (tq_items (openSet st)).
Local Abbreviation h := (hOf heuristic nodeMap endNode).
Local Abbreviation inv := (searchInv heuristic nodeMap edges endNode start).

(** Edges end at known nodes, and the heuristic is consistent with the
    edge costs. *)
Hypothesis edges_known : ∀ e, e ∈ edges → is_Some (nodeMap !! GraphEdge.endNodeId e).
Hypothesis consistent :
  ∀ e, e ∈ edges → (h (GraphEdge.startNodeId e) <= edgeCost e + h (GraphEdge.endNodeId e))%Q.

Lemma consistent_path u p v :
  isPath edges u p v → (h u <= pathCost p + h v)%Q.
Proof.
  induction 1 as [u|u e p v He Hs Hp IH]; simpl; [lra|].
  specialize (consistent e He). rewrite Hs in consistent. lra.
Qed.

Lemma searchInv_initial (startNode : PathNode.t) current :
  PathNode.id startNode = start →
  inv [] current (initialSearch startNode).
Proof.
  intros Hs. pose proof (initialSearch_items laws startNode) as Hitems.
  simpl in Hitems. split; simpl; rewrite ?Hs in *.
  - apply lookup_singleton_eq.
  - apply lookup_empty.
  - intros n g [<- <-]%lookup_singleton_Some. exists [], 0%Q.
    split_and!; [constructor|done|apply lookup_singleton_eq|done].
  - set_solver.
  - set_solver.
  - intros n g [<- <-]%lookup_singleton_Some. done.
  - intros item. rewrite Hitems. intros ->%list_elem_of_singleton. by left.
  - right. intros n [g [<- _]%lookup_singleton_Some]. done.
Qed.

(** The recorded cost of a node is known when the node is popped. *)
Lemma popped_cost pending current (st : SearchState) item :
  inv pending current st → item ∈ items st →
  ∃ g, gScore st !! QueueItem.nodeId item = Some g.
Proof.
  intros Hinv Hitem. destruct (inv_bound _ _ _ Hinv item Hitem) as [->|(g & Hg & _)]; [|eauto].
  exists 0%Q. apply Hinv.
Qed.

(** The recorded cost of the node popped from the queue is the least
    cost of a path from the start node to it. *)
Lemma popped_optimal current (st : SearchState) item rest g :
  inv [] current st →
  tq_pop (openSet st) = Some (item, rest) →
  gScore st !! QueueItem.nodeId item = Some g →
  ∀ p, isPath edges start p (QueueItem.nodeId item) → (g <= pathCost p)%Q.
Proof.
  intros Hinv [Hperm Hmin]%(tq_pop_Some laws) Hg p Hp.
  set (n := QueueItem.nodeId item) in *.
  destruct (decide (n ∈ visited st)) as [Hvis|Hvis].
  { destruct (inv_visited _ _ _ Hinv n Hvis) as (g' & Hg' & Hopt). simplify_eq. by apply Hopt. }
  destruct (inv_started _ _ _ Hinv) as [Hstart|Honly].
  - assert (n ≠ start) as Hne by (intros ->; done).
    destruct (isPath_frontier edges (visited st) start p n Hp Hstart Hvis)
      as (p1 & e & p2 & -> & Hp1 & Hu & He & Hv & Hp2).
    destruct (inv_visited _ _ _ Hinv _ Hu) as (gu & Hgu & Hopt).
    specialize (Hopt p1 Hp1).
    destruct (inv_relaxed _ _ _ Hinv e He Hu) as [(gu' & gv & Hgu' & Hgv & Hle)|[_ []%elem_of_nil]].
    simplify_eq.
    assert (GraphEdge.endNodeId e ≠ start) as Hvne by (intros Heq; by rewrite Heq in Hv).
    destruct (inv_cover _ _ _ Hinv _ gv Hgv Hv Hvne) as (itemv & Hitemv & Hnv & Hfv).
    assert (QueueItem.fScore item <= QueueItem.fScore itemv)%Q as Hpop.
    { rewrite Hperm in Hitemv. apply elem_of_cons in Hitemv as [->|Hin]; [lra|].
      by apply (proj1 (Forall_forall _ _) Hmin). }
    destruct (inv_bound _ _ _ Hinv item) as [?|(g' & Hg' & Hbound)];
      [rewrite Hperm; set_solver|done|].
    fold n in Hg', Hbound. simplify_eq.
    pose proof (consistent_path _ _ _ Hp2) as Htel. fold n in Htel.
    rewrite pathCost_app. simpl. lra.
  - assert (n = start) as Hn by (apply Honly; eauto). rewrite Hn in Hg, Hp.
    rewrite (inv_start_g _ _ _ Hinv) in Hg. simplify_eq.
    pose proof (consistent_path _ _ _ Hp). lra.
Qed.

Lemma searchInv_current current current' (st : SearchState) :
  inv [] current st → inv [] current' st.
Proof.
  intros Hinv. split; try apply Hinv.
  intros e He Hs. destruct (inv_relaxed _ _ _ Hinv e He Hs) as [?|[_ []%elem_of_nil]].
  by left.
Qed.

Lemma searchInv_skip current (st : SearchState) item rest :
  inv [] current st →
  tq_pop (openSet st) = Some (item, rest) →
  QueueItem.nodeId item ∈ visited st →
  inv [] current (withOpenSet st rest).
Proof.
  intros Hinv [Hperm _]%(tq_pop_Some laws) Hvis. split; simpl; try apply Hinv.
  - intros n g Hg Hn Hne.
    destruct (inv_cover _ _ _ Hinv n g Hg Hn Hne) as (item' & Hin & <- & Hf).
    exists item'. split_and!; try done.
    rewrite Hperm in Hin. apply elem_of_cons in Hin as [->|Hin]; done.
  - intros item' Hin. apply (inv_bound _ _ _ Hinv). rewrite Hperm. set_solver.
Qed.

Lemma searchInv_visit current (st : SearchState) item rest :
  inv [] current st →
  tq_pop (openSet st) = Some (item, rest) →
  QueueItem.nodeId item ∉ visited st →
  inv (neighborOf <$> filter (λ e, GraphEdge.startNodeId e = QueueItem.nodeId item) edges)
            (QueueItem.nodeId item)
            (markVisited (withOpenSet st rest) (QueueItem.nodeId item)).
Proof.
  intros Hinv Hpop Hvis. pose proof Hpop as [Hperm _]%(tq_pop_Some laws).
  destruct (popped_cost _ _ _ item Hinv) as [g Hg]; [rewrite Hperm; set_solver|].
  split; simpl; try apply Hinv.
  - intros n g' Hg'. destruct (inv_chain _ _ _ Hinv n g' Hg') as (p & d & Hchain & ?).
    exists p, d. split; [|done]. eapply chain_mono; [|done]. set_solver.
  - intros n [->%elem_of_singleton|Hn]%elem_of_union; [|by apply Hinv].
    exists g. split; [done|]. by eapply popped_optimal.
  - intros e He [Hs%elem_of_singleton|Hs]%elem_of_union.
    + right. split; [done|]. apply list_elem_of_fmap_2. by apply list_elem_of_filter.
    + destruct (inv_relaxed _ _ _ Hinv e He Hs) as [?|[_ []%elem_of_nil]]. by left.
  - intros n g' Hg' Hn Hne.
    destruct (inv_cover _ _ _ Hinv n g' Hg') as (item' & Hin & <- & Hf); [set_solver|done|].
    exists item'. split_and!; try done.
    rewrite Hperm in Hin. apply elem_of_cons in Hin as [->|Hin]; [set_solver|done].
  - intros item' Hin. apply (inv_bound _ _ _ Hinv). rewrite Hperm. set_solver.
  - left. destruct (inv_started _ _ _ Hinv) as [?|Honly]; [set_solver|].
    rewrite (Honly (QueueItem.nodeId item)) by eauto. set_solver.
Qed.

Lemma searchInv_relax pending (st : SearchState) e :
  inv (neighborOf e :: pending) (GraphEdge.startNodeId e) st →
  GraphEdge.startNodeId e ∈ visited st → e ∈ edges →
  inv pending (GraphEdge.startNodeId e)
            (relax (GraphEdge.startNodeId e) st (neighborOf e)).
Proof.
  intros Hinv Hcur He.
  set (current := GraphEdge.startNodeId e) in *.
  set (v := GraphEdge.endNodeId e).
  destruct (inv_visited _ _ _ Hinv current Hcur) as (gc & Hgc & Hopt).
  destruct (inv_chain _ _ _ Hinv current gc Hgc) as (pc & dc & Hchain & Hgpc & Hdc & Hdpc).
  assert (isPath edges start (pc ++ [e]) v) as Hpath.
  { apply isPath_snoc; [|done]. by eapply chain_isPath. }
  assert (∀ e', neighborOf e' = neighborOf e →
                GraphEdge.endNodeId e' = v ∧ (edgeCost e' == edgeCost e)%Q) as Hsame.
  { intros e' Heq. split; [exact (f_equal Neighbor.nodeId Heq)|].
    pose proof (f_equal Neighbor.cost Heq) as Hcost. simpl in Hcost.
    unfold edgeCost. by rewrite Hcost. }
  destruct (ltInf (gc + Neighbor.cost (neighborOf e))
                  (gScore st !! Neighbor.nodeId (neighborOf e))) eqn:Hlt.
  - (* the tentative cost is strictly lower *)
    destruct (relax_lower heuristic nodeMap endNode current st (neighborOf e) gc Hgc Hlt)
      as (Hgs & Hcf & Hdf & Hvs & Hq).
    simpl in Hlt, Hgs, Hcf, Hdf, Hq. fold v in Hlt, Hgs, Hcf, Hdf, Hq.
    fold (edgeCost e) in Hlt, Hgs, Hq. rewrite Hdc in Hdf. simpl in Hdf.
    set (st' := relax current st (neighborOf e)) in *.
    assert (v ∉ visited st) as Hv.
    { intros Hv. destruct (inv_visited _ _ _ Hinv v Hv) as (gv & Hgv & Hoptv).
      specialize (Hoptv _ Hpath). rewrite pathCost_app in Hoptv. simpl in Hoptv.
      rewrite Hgv in Hlt. apply Qltb_true in Hlt. lra. }
    assert (start ∈ visited st) as Hstart.
    { destruct (inv_started _ _ _ Hinv) as [?|Honly]; [done|].
      rewrite <- (Honly current); eauto. }
    assert (v ≠ start) as Hvs_ne by (intros Heq; by rewrite Heq in Hv).
    assert (current ≠ v) as Hcv by (intros Heq; by rewrite Heq in Hcur).
    destruct (edges_known e He) as [vnode Hvnode]. fold v in Hvnode. rewrite Hvnode in Hq.
    assert (items st' ≡ₚ QueueItem.mk v (gc + edgeCost e + h v) :: items st) as Hitems.
    { rewrite Hq. apply (tq_push_items T laws). }
    assert (∀ old, gScore st !! v = Some old → (gc + edgeCost e < old)%Q) as Hold.
    { intros old Hg. rewrite Hg in Hlt. by apply Qltb_true. }
    split.
    + rewrite Hgs, lookup_insert_ne by done. apply Hinv.
    + rewrite Hcf, lookup_insert_ne by done. apply Hinv.
    + intros n g. rewrite Hgs, Hcf, Hdf, Hvs. destruct (decide (n = v)) as [->|Hn].
      * rewrite !lookup_insert_eq. intros [= <-].
        exists (pc ++ [e]), (dc + GraphEdge.distance e)%Q. split_and!; [|..|done|].
        -- apply (chain_step edges start _ _ v current e pc); try done.
           ++ by rewrite lookup_insert_eq.
           ++ by apply chain_insert.
           ++ intros Hin. apply Hv. by eapply chain_nodes_visited.
        -- rewrite pathCost_app. simpl. lra.
        -- rewrite pathDistance_app. simpl. lra.
      * rewrite !lookup_insert_ne by done. intros Hg.
        destruct (inv_chain _ _ _ Hinv n g Hg) as (p & d & Hch & ?).
        exists p, d. split; [|done]. by apply chain_insert.
    + intros n. rewrite Hvs, Hgs. intros Hn.
      rewrite lookup_insert_ne by (intros Heq; by rewrite Heq in Hv).
      by apply Hinv.
    + intros e' He'. rewrite Hvs. intros Hs.
      assert (GraphEdge.startNodeId e' ≠ v) as Hne by (intros Heq; by rewrite Heq in Hs).
      unfold relaxed. rewrite Hgs, (lookup_insert_ne _ _ _ _ (not_eq_sym Hne)).
      destruct (inv_relaxed _ _ _ Hinv e' He' Hs)
        as [(gu & gv & Hgu & Hgv & Hle)|[Hs' [Heq|Hin]%elem_of_cons]].
      * left. exists gu. destruct (decide (GraphEdge.endNodeId e' = v)) as [Hev|Hev].
        -- rewrite Hev, lookup_insert_eq. eexists. split_and!; [done|done|].
           rewrite Hev in Hgv. specialize (Hold gv Hgv). lra.
        -- rewrite lookup_insert_ne by done. by exists gv.
      * left. destruct (Hsame e' Heq) as [Hev Hcost]. exists gc.
        rewrite Hev, lookup_insert_eq. eexists. split_and!; [by rewrite Hs'|done|]. lra.
      * by right.
    + intros n g. rewrite Hgs, Hvs. intros Hg Hn Hne. destruct (decide (n = v)) as [->|Hnv].
      * rewrite lookup_insert_eq in Hg. injection Hg as <-.
        eexists. split_and!; [rewrite Hitems; left|done|simpl; lra].
      * rewrite lookup_insert_ne in Hg by done.
        destruct (inv_cover _ _ _ Hinv n g Hg Hn Hne) as (item & Hin & ? & ?).
        exists item. split_and!; try done. rewrite Hitems. by right.
    + intros item. rewrite Hitems, Hgs. intros [->|Hin]%elem_of_cons.
      * right. simpl. rewrite lookup_insert_eq. eexists. split; [done|]. lra.
      * destruct (inv_bound _ _ _ Hinv item Hin) as [?|(g & Hg & Hb)]; [by left|right].
        destruct (decide (QueueItem.nodeId item = v)) as [Heq|Hneq].
        -- rewrite Heq in *. rewrite lookup_insert_eq. eexists. split; [done|].
           specialize (Hold g Hg). lra.
        -- rewrite lookup_insert_ne by done. by exists g.
    + left. by rewrite Hvs.
  - (* the tentative cost is not lower: nothing changes *)
    simpl in Hlt. fold v in Hlt. fold (edgeCost e) in Hlt.
    destruct (gScore st !! v) as [old|] eqn:Hgv; [|done]. simpl in Hlt.
    apply Qltb_false in Hlt.
    rewrite (relax_not_lower heuristic nodeMap endNode current st (neighborOf e) gc old)
      by done.
    split; try apply Hinv.
    intros e' He' Hs.
    destruct (inv_relaxed _ _ _ Hinv e' He' Hs) as [?|[Hs' [Heq|Hin]%elem_of_cons]];
      [by left| |by right].
    left. destruct (Hsame e' Heq) as [Hev Hcost]. exists gc, old.
    rewrite Hev, Hs'. split_and!; [done..|]. lra.
Qed.

Lemma searchInv_expand current (st : SearchState) item rest :
  inv [] current st →
  tq_pop (openSet st) = Some (item, rest) →
  QueueItem.nodeId item ∉ visited st →
  inv [] current (expand (withOpenSet st rest) (QueueItem.nodeId item)).
Proof.
  intros Hinv Hpop Hvis. pose proof (searchInv_visit _ _ _ _ Hinv Hpop Hvis) as Hvisit.
  apply (searchInv_current (QueueItem.nodeId item)).
  unfold expandNode. rewrite buildAdjacencyList_lookup.
  set (n := QueueItem.nodeId item) in *.
  apply (foldl_relax_invariant heuristic nodeMap endNode
           (λ pending st', inv pending n st' ∧ n ∈ visited st' ∧
              ∀ nb, nb ∈ pending →
                    ∃ e, e ∈ edges ∧ GraphEdge.startNodeId e = n ∧ nb = neighborOf e) n).
  - intros nb pending st' (Hinv' & Hn & Hpend).
    destruct (Hpend nb) as (e & He & Hs & ->); [set_solver|]. split_and!.
    + rewrite <- Hs. apply searchInv_relax; [by rewrite Hs|by rewrite Hs|done].
    + by rewrite relax_visited.
    + intros nb' Hnb'. apply Hpend. set_solver.
  - split_and!; [done|simpl; set_solver|].
    intros nb (e & -> & [Hs He]%list_elem_of_filter)%list_elem_of_fmap. by exists e.
Qed.

(** The state in which the end node is popped: its recorded cost is the
    least cost of a path from the start node, and its predecessor links
    spell a path of that cost whose length is the recorded distance. *)
Lemma searchRun_reached fuel (startNode : PathNode.t) (st : SearchState) :
  PathNode.id startNode = start →
  searchRun heuristic nodeMap adjacency endNode fuel (initialSearch startNode) =
    RunReached st →
  cameFrom st !! start = None ∧
  ∃ g d p,
    gScore st !! PathNode.id endNode = Some g ∧
    distanceFrom st !! PathNode.id endNode = Some d ∧
    chain edges start (cameFrom st) (visited st) (PathNode.id endNode) p ∧
    (g == pathCost p)%Q ∧ (d == pathDistance p)%Q ∧
    ∀ q, isPath edges start q (PathNode.id endNode) → (g <= pathCost q)%Q.
Proof.
  intros Hs Hrun.
  pose proof (searchRun_invariant heuristic nodeMap edges endNode (inv [] start)) as Hrule.
  lapply Hrule; [clear Hrule; intros Hrule; lapply Hrule; [clear Hrule; intros Hrule|]|].
  - specialize (Hrule fuel (initialSearch startNode) (searchInv_initial _ _ Hs)).
    rewrite Hrun in Hrule.
    destruct Hrule as (st0 & item & Hinv & Hpop & Hend & ->). simpl.
    split; [apply Hinv|].
    pose proof Hpop as [Hperm _]%(tq_pop_Some laws).
    destruct (popped_cost _ _ _ item Hinv) as [g Hg]; [rewrite Hperm; set_solver|].
    pose proof (popped_optimal _ _ _ _ _ Hinv Hpop Hg) as Hopt. rewrite Hend in Hg, Hopt.
    destruct (inv_chain _ _ _ Hinv _ g Hg) as (p & d & Hchain & Hgp & Hd & Hdp).
    by exists g, d, p.
  - intros st0 item rest Hinv Hpop _ Hvis. by apply searchInv_expand.
  - intros st0 item rest Hinv Hpop _ Hvis. by eapply searchInv_skip.
Qed.

End Optimality.

(** ** Reconstruction *)

Lemma pointsOf_cons nodeMap m ids node :
  nodeMap !! m = Some node →
  pointsOf nodeMap (m :: ids) =
  Point.mk (PathNode.latitude node) (PathNode.longitude node) :: pointsOf nodeMap ids.
Proof. intros Hnode. unfold pointsOf. simpl. by rewrite Hnode. Qed.

Lemma pointsOf_snoc nodeMap m ids node :
  nodeMap !! m = Some node →
  pointsOf nodeMap (ids ++ [m]) =
  pointsOf nodeMap ids ++ [Point.mk (PathNode.latitude node) (PathNode.longitude node)].
Proof. intros Hnode. unfold pointsOf. rewrite omap_app. simpl. by rewrite Hnode. Qed.

Lemma length_pointsOf nodeMap ids :
  (∀ m, m ∈ ids → is_Some (nodeMap !! m)) → length (pointsOf nodeMap ids) = length ids.
Proof.
  induction ids as [|m ids IH]; intros Hknown; [done|].
  destruct (Hknown m) as [node Hnode]; [set_solver|].
  rewrite (pointsOf_cons _ _ _ _ Hnode). simpl. rewrite IH; [done|].
  intros; apply Hknown; set_solver.
Qed.

Lemma chain_edges edges start cf (vis : gset string) n p :
  chain edges start cf vis n p → ∀ e, e ∈ p → e ∈ edges.
Proof.
  induction 1 as [|n c e p ? ? ? ? ? ? ? IH ?]; intros e' He'; [by apply elem_of_nil in He'|].
  apply elem_of_app in He' as [?| ->%list_elem_of_singleton]; auto.
Qed.

Lemma chain_linked edges start cf (vis : gset string) n p :
  chain edges start cf vis n p →
  ∀ m, m ∈ GraphEdge.endNodeId <$> p → is_Some (cf !! m).
Proof.
  induction 1 as [|n c e p ? ? ? ? ? Hn ? IH ?]; intros m Hm; [by apply elem_of_nil in Hm|].
  rewrite fmap_app in Hm. apply elem_of_app in Hm as [?| ->%list_elem_of_singleton]; auto.
  rewrite Hn. eauto.
Qed.

Lemma NoDup_length_size (cf : gmap string string) (l : list string) :
  NoDup l → (∀ m, m ∈ l → is_Some (cf !! m)) → length l ≤ size cf.
Proof.
  intros Hnd Hdom. rewrite <- (size_list_to_set (C := gset string) l Hnd), <- size_dom.
  apply subseteq_size. intros m Hm%elem_of_list_to_set. by apply elem_of_dom, Hdom.
Qed.

Lemma chain_length edges start cf (vis : gset string) n p :
  chain edges start cf vis n p → length (pathNodes start p) ≤ S (size cf).
Proof.
  intros Hchain. destruct (chain_pathNodes _ _ _ _ _ _ Hchain) as [Hnd _].
  unfold pathNodes in *. simpl. apply NoDup_cons in Hnd as [_ Hnd].
  apply le_n_S, NoDup_length_size; [done|]. by eapply chain_linked.
Qed.

(** Walking the predecessor links of a chain yields the coordinates of
    its nodes from the start node to the last. *)
Lemma reconstructPath_chain nodeMap edges start cf (vis : gset string) n p :
  chain edges start cf vis n p →
  cf !! start = None →
  (∀ m, m ∈ pathNodes start p → m ≠ "" ∧ is_Some (nodeMap !! m)) →
  ∀ fuel acc, length (pathNodes start p) ≤ fuel →
    reconstructPath nodeMap fuel cf (Some n) acc =
    Returns (pointsOf nodeMap (pathNodes start p) ++ acc).
Proof.
  intros Hchain Hstart.
  induction Hchain as [|n c e p ? Hc ? ? ? Hn ? IH ?]; intros Hknown fuel acc Hfuel.
  - destruct (Hknown start) as [Hne [node Hnode]]; [unfold pathNodes; set_solver|].
    destruct fuel as [|fuel]; [simpl in Hfuel; lia|].
    unfold pathNodes. rewrite fmap_nil, (pointsOf_cons _ _ _ _ Hnode).
    cbn [reconstructPath]. rewrite decide_False by done. rewrite Hstart, Hnode.
    by destruct fuel.
  - rewrite pathNodes_snoc, Hn in *.
    destruct (Hknown n) as [Hne [node Hnode]]; [set_solver|].
    rewrite length_app in Hfuel. cbn [length] in Hfuel.
    destruct fuel as [|fuel]; [lia|].
    cbn [reconstructPath]. rewrite decide_False by done. rewrite Hc, Hnode.
    rewrite IH; [|intros; apply Hknown; set_solver|lia].
    rewrite (pointsOf_snoc _ _ _ _ Hnode). by rewrite <- app_assoc.
Qed.

(** ** [findPath]: optimality *)

Lemma buildNodeMap_lookup_Some allNodes k node :
  buildNodeMap allNodes !! k = Some node → node ∈ allNodes ∧ PathNode.id node = k.
Proof.
  unfold buildNodeMap. induction allNodes as [|x l IH] using rev_ind; [done|].
  rewrite foldl_snoc, lookup_insert_Some.
  intros [[<- <-]|[_ [Hin Hid]%IH]]; set_solver.
Qed.

Lemma buildNodeMap_row db k node :
  buildNodeMap (selectPathNode <$> graphNode db) !! k = Some node →
  ∃ row, row ∈ graphNode db ∧ GraphNode.id row = k ∧ node = selectPathNode row.
Proof.
  intros [(row & -> & Hrow)%list_elem_of_fmap Hid]%buildNodeMap_lookup_Some.
  by exists row.
Qed.

Lemma mult_penalty_le (d pen : Q) : (0 <= d)%Q → (1 <= pen)%Q → (d <= d * pen)%Q.
Proof.
  intros Hd Hp. nra.
Qed.

Section FindPathOptimal.

Variable heuristic : Q → Q → Q → Q → Q.
Context {T : Type} `{TinyQueue T} (laws : TinyQueueLaws T).

Lemma straight_consistent db endNode e :
  isDistance heuristic → foreignKeys db → penaltiesAtLeastOne db →
  edgesAtLeastStraight heuristic db → e ∈ graphEdge db →
  let nodeMap := buildNodeMap (selectPathNode <$> graphNode db) in
  (hOf heuristic nodeMap endNode (GraphEdge.startNodeId e) <=
   edgeCost e + hOf heuristic nodeMap endNode (GraphEdge.endNodeId e))%Q.
Proof.
  intros [Hnonneg Htri] Hfk Hpen Hgeo He nodeMap. unfold hOf.
  destruct (nodeMap !! GraphEdge.startNodeId e) as [un|] eqn:Hu.
  2:{ destruct (Hfk e He) as [(u & Hrow & Hid) _].
      assert (is_Some (nodeMap !! GraphEdge.startNodeId e)) as [? ?]; [|congruence].
      apply buildNodeMap_lookup. exists (selectPathNode u).
      split; [by apply list_elem_of_fmap_2|done]. }
  destruct (nodeMap !! GraphEdge.endNodeId e) as [vn|] eqn:Hv.
  2:{ destruct (Hfk e He) as [_ (v & Hrow & Hid)].
      assert (is_Some (nodeMap !! GraphEdge.endNodeId e)) as [? ?]; [|congruence].
      apply buildNodeMap_lookup. exists (selectPathNode v).
      split; [by apply list_elem_of_fmap_2|done]. }
  apply buildNodeMap_row in Hu as (u & Hurow & Huid & ->).
  apply buildNodeMap_row in Hv as (v & Hvrow & Hvid & ->). simpl.
  pose proof (Hgeo e u v He Hurow Hvrow Huid Hvid) as Hstraight.
  pose proof (Hnonneg (GraphNode.latitude u) (GraphNode.longitude u)
                      (GraphNode.latitude v) (GraphNode.longitude v)) as H0.
  pose proof (Htri (GraphNode.latitude u) (GraphNode.longitude u)
                   (GraphNode.latitude v) (GraphNode.longitude v)
                   (PathNode.latitude endNode) (PathNode.longitude endNode)) as Htriangle.
  assert (GraphEdge.distance e <= edgeCost e)%Q as Hcost.
  { unfold edgeCost. apply mult_penalty_le; [lra|by apply Hpen]. }
  lra.
Qed.

(** C3 as amended. On a graph in which every effective penalty is at
    least 1 and no edge is shorter than the straight-line distance
    between its ends, a result of [findPath] has the least penalised cost
    of all paths from the snapped start node to the snapped end node,
    and the returned coordinates are those of a path whose penalised
    cost is [totalCost] and whose raw edge distances add up to
    [totalDistance]. *)
Theorem findPath_optimal (db : GraphDb) (startLat startLng endLat endLng : Q)
    (startNode endNode : PathNode.t) (log : list LogLine) (result : PathResult.t) :
  isDistance heuristic →
  (∀ n, n ∈ graphNode db → GraphNode.id n ≠ "") →
  foreignKeys db →
  penaltiesAtLeastOne db →
  edgesAtLeastStraight heuristic db →
  findNearestNode heuristic db startLat startLng = Some startNode →
  findNearestNode heuristic db endLat endLng = Some endNode →
  findPath heuristic db startLat startLng endLat endLng = Returns (log, Some result) →
  (∀ q, isPath (graphEdge db) (PathNode.id startNode) q (PathNode.id endNode) →
        (PathResult.totalCost result <= pathCost q)%Q) ∧
  ∃ p, isPath (graphEdge db) (PathNode.id startNode) p (PathNode.id endNode) ∧
       PathResult.path result =
         pointsOf (buildNodeMap (selectPathNode <$> graphNode db))
                  (pathNodes (PathNode.id startNode) p) ∧
       length (PathResult.path result) = S (length p) ∧
       (PathResult.totalCost result == pathCost p)%Q ∧
       (PathResult.totalDistance result == pathDistance p)%Q.
Proof.
  intros Hdist Hids Hfk Hpen Hgeo Hs He Hret.
  set (nodeMap := buildNodeMap (selectPathNode <$> graphNode db)).
  assert (∀ k, is_Some (nodeMap !! k) → k ≠ "") as Hkeys.
  { intros k (node & (row & -> & Hrow)%list_elem_of_fmap & <-)%buildNodeMap_lookup.
    by apply Hids. }
  assert (∀ e, e ∈ graphEdge db → is_Some (nodeMap !! GraphEdge.endNodeId e)) as Hknown.
  { intros e [_ (v & Hrow & Hid)]%Hfk. apply buildNodeMap_lookup.
    exists (selectPathNode v). split; [by apply list_elem_of_fmap_2|done]. }
  pose proof (findNearestNode_known heuristic db _ _ _ Hs) as Hstart. fold nodeMap in Hstart.
  pose proof (findPath_run heuristic laws db _ _ _ _ _ _ Hs He) as Hrun. cbv zeta in Hrun.
  fold nodeMap in Hrun.
  destruct (searchRun _ _ _ _ _ _) as [|st|st] eqn:Hsearch; [done|congruence|].
  destruct (searchRun_reached heuristic laws nodeMap (graphEdge db) endNode
              (PathNode.id startNode) Hknown
              (λ e He', straight_consistent db endNode e Hdist Hfk Hpen Hgeo He')
              _ startNode st eq_refl Hsearch)
    as (Hcf & g & d & p & Hg & Hd & Hchain & Hgp & Hdp & Hopt).
  rewrite Hrun in Hret. unfold pathFound in Hret. rewrite Hg, Hd in Hret.
  rewrite (reconstructPath_chain nodeMap _ _ _ _ _ _ Hchain Hcf) in Hret.
  - rewrite app_nil_r in Hret.
    remember (pointsOf nodeMap (pathNodes (PathNode.id startNode) p)) as points eqn:Hpts.
    assert (length points = S (length p)) as Hlen; [subst points|].
    2:{ cbv beta iota zeta in Hret. injection Hret as _ <-.
        split; [done|]. exists p. split; [by eapply chain_isPath|]. done. }
    rewrite length_pointsOf; [by unfold pathNodes; rewrite length_cons, length_fmap|].
    intros m [->|(e & -> & He')%list_elem_of_fmap]%elem_of_cons; [done|].
    eapply Hknown, chain_edges; eauto.
  - intros m Hm. assert (is_Some (nodeMap !! m)) as Hin; [|split; [by apply Hkeys|done]].
    apply elem_of_cons in Hm as [->|(e & -> & He')%list_elem_of_fmap]; [done|].
    eapply Hknown, chain_edges; eauto.
  - by eapply chain_length.
Qed.

End FindPathOptimal.

(** ** Concrete runs *)

Lemma Qabs_cases (x : Q) :
  (0 <= x ∧ Qabs x == x)%Q ∨ (x <= 0 ∧ Qabs x == - x)%Q.
Proof.
  destruct (Qlt_le_dec x 0) as [Hneg|Hpos].
  - right. split; [lra|]. apply Qabs_neg. lra.
  - left. split; [done|]. by apply Qabs_pos.
Qed.

Lemma meridianDistance_isDistance : isDistance meridianDistance.
Proof.
  unfold isDistance, meridianDistance. split.
  - intros lat1 _ lat2 _. pose proof (Qabs_nonneg (lat2 - lat1)). lra.
  - intros lat1 _ lat2 _ lat3 _.
    destruct (Qabs_cases (lat3 - lat1)) as [[? ->]|[? ->]],
             (Qabs_cases (lat2 - lat1)) as [[? ->]|[? ->]],
             (Qabs_cases (lat3 - lat2)) as [[? ->]|[? ->]]; lra.
Qed.

(** C3 as stated fails. Every penalty of [shortcutDb] is 1, and
    [findPath] from S to E returns the direct edge with [totalCost] 2000,
    although the path through M costs 2: M is never expanded, because
    its straight-line distance to E exceeds the cost of the direct edge. *)
Lemma findPath_not_optimal_on_shortcut :
  penaltiesAtLeastOne shortcutDb ∧
  ∃ log result q,
    findPath meridianDistance (T := list QueueItem.t) shortcutDb 0 0 (1#100) 0 =
      Returns (log, Some result) ∧
    isPath (graphEdge shortcutDb) "S" q "E" ∧
    (PathResult.totalCost result == 2000)%Q ∧
    (pathCost q == 2)%Q ∧
    (pathCost q < PathResult.totalCost result)%Q.
Proof.
  split.
  - intros e He. unfold shortcutDb in He. simpl in He.
    repeat (apply elem_of_cons in He as [->|He]); try done.
    by apply elem_of_nil in He.
  - do 2 eexists. exists [GraphEdge.mk "sm" "S" "M" 1 1 1; GraphEdge.mk "me" "M" "E" 1 1 1].
    split; [vm_compute; reflexivity|]. split.
    + repeat (econstructor; [unfold shortcutDb; simpl; set_solver|reflexivity|]). constructor.
    + split_and!; done.
Qed.

Ltac list_cases H :=
  repeat (apply elem_of_cons in H as [->|H]); [..|by apply elem_of_nil in H].

Lemma foreignKeys_decide db :
  Forall (λ e, Exists (λ u, GraphNode.id u = GraphEdge.startNodeId e) (graphNode db) ∧
               Exists (λ v, GraphNode.id v = GraphEdge.endNodeId e) (graphNode db))
         (graphEdge db) →
  foreignKeys db.
Proof.
  intros Hall e He.
  destruct (proj1 (Forall_forall _ _) Hall e He) as [Hu Hv].
  apply Exists_exists in Hu, Hv. done.
Qed.

Lemma straightDb_foreignKeys : foreignKeys straightDb.
Proof.
  apply foreignKeys_decide.
  match goal with |- ?P => apply (bool_decide_unpack P) end. vm_compute. exact I.
Qed.

Lemma straightDb_penalties : penaltiesAtLeastOne straightDb.
Proof.
  intros e He. unfold straightDb in He. simpl in He. list_cases He; done.
Qed.

Lemma straightDb_straight : edgesAtLeastStraight meridianDistance straightDb.
Proof.
  intros e u v He Hu Hv. unfold straightDb in He, Hu, Hv. simpl in He, Hu, Hv.
  list_cases He; list_cases Hu; list_cases Hv; simpl; intros; try discriminate; done.
Qed.

Lemma findPath_optimal_witness :
  ∃ log result,
    findPath meridianDistance (T := list QueueItem.t) straightDb 0 0 (2#100) 0 =
      Returns (log, Some result) ∧
    (∀ q, isPath (graphEdge straightDb) "A" q "C" →
          (PathResult.totalCost result <= pathCost q)%Q) ∧
    ∃ p, isPath (graphEdge straightDb) "A" p "C" ∧
         PathResult.path result =
           pointsOf (buildNodeMap (selectPathNode <$> graphNode straightDb))
                    (pathNodes "A" p) ∧
         length (PathResult.path result) = S (length p) ∧
         (PathResult.totalCost result == pathCost p)%Q ∧
         (PathResult.totalDistance result == pathDistance p)%Q.
Proof.
  do 2 eexists. split; [vm_compute; reflexivity|].
  eapply (findPath_optimal meridianDistance ListQueue_laws straightDb 0 0 (2#100) 0
           (PathNode.mk "A" 0 0) (PathNode.mk "C" (2#100) 0)).
  - exact meridianDistance_isDistance.
  - intros n Hn. unfold straightDb in Hn. simpl in Hn. list_cases Hn; done.
  - exact straightDb_foreignKeys.
  - exact straightDb_penalties.
  - exact straightDb_straight.
  - vm_compute. reflexivity.
  - vm_compute. reflexivity.
  - vm_compute. reflexivity.
Defined.

(** C5 as stated fails: a call with no node near the endpoints and a call
    whose search is exhausted both return [null]; only the log differs. *)
Lemma findPath_failures_same_value :
  ∃ log1 log2 value,
    findPath meridianDistance (T := list QueueItem.t) emptyDb 0 0 (1#100) 0 =
      Returns (log1, value) ∧
    findPath meridianDistance (T := list QueueItem.t) disconnectedDb 0 0 (1#100) 0 =
      Returns (log2, value) ∧
    LogNoStartOrEnd ∈ log1 ∧ LogNoPath 1 ∈ log2 ∧ value = None.
Proof.
  do 3 eexists. split; [vm_compute; reflexivity|].
  split; [vm_compute; reflexivity|]. split_and!; [set_solver|set_solver|done].
Qed.

Lemma findPath_failures_return_null_witness :
  ∃ visitedSize,
    findPath meridianDistance (T := list QueueItem.t) disconnectedDb 0 0 (1#100) 0 =
    Returns ([LogFinding 0 0 (1#100) 0; LogStartEnd "A" "B"; LogLoaded 2 0;
              LogNoPath visitedSize], None).
Proof.
  destruct (findPath_failures_return_null meridianDistance ListQueue_laws
              disconnectedDb 0 0 (1#100) 0) as [_ Hnopath].
  apply (Hnopath (PathNode.mk "A" 0 0) (PathNode.mk "B" (1#100) 0)).
  - vm_compute. reflexivity.
  - vm_compute. reflexivity.
  - intros p Hp. inversion Hp as [|? e ? ? He]; subst. by apply elem_of_nil in He.
Defined.

(** C9 as stated fails: when both endpoints snap to the same node the
    path has a single point. *)
Lemma findPath_single_point :
  ∃ log result,
    findPath meridianDistance (T := list QueueItem.t) singleNodeDb 0 0 0 0 =
      Returns (log, Some result) ∧
    PathResult.path result = [Point.mk 0 0] ∧
    ¬ 2 ≤ length (PathResult.path result).
Proof.
  do 2 eexists. split; [vm_compute; reflexivity|]. simpl. split; [done|lia].
Qed.

Lemma findPath_path_length_witness :
  ∃ log result,
    findPath meridianDistance (T := list QueueItem.t) straightDb 0 0 (2#100) 0 =
      Returns (log, Some result) ∧
    ("A" = "C" → length (PathResult.path result) = 1) ∧
    ("A" ≠ "C" → 2 ≤ length (PathResult.path result)).
Proof.
  do 2 eexists. split; [vm_compute; reflexivity|].
  eapply (findPath_path_length meridianDistance ListQueue_laws straightDb 0 0 (2#100) 0
           (PathNode.mk "A" 0 0) (PathNode.mk "C" (2#100) 0)).
  - intros n Hn. unfold straightDb in Hn. simpl in Hn. list_cases Hn; done.
  - vm_compute. reflexivity.
  - vm_compute. reflexivity.
  - vm_compute. reflexivity.
Defined.

Lemma relaxNeighbor_strict_witness :
  relaxNeighbor meridianDistance ∅ (PathNode.mk "C" (2#100) 0) "A" loopState
                (neighborOf selfLoop) = loopState ∧
  expandNode meridianDistance ∅ ∅ (PathNode.mk "C" (2#100) 0) loopState "B" =
    markVisited loopState "B".
Proof.
  destruct (relaxNeighbor_strict meridianDistance ∅ (PathNode.mk "C" (2#100) 0) "B"
              loopState (neighborOf selfLoop) ∅ selfLoop) as (_ & _ & _ & _ & Hloop & Hnone).
  split; [apply Hloop; reflexivity|apply Hnone; reflexivity].
Defined.


(** * Further properties *)

(** ** The adjacency list and the node map *)

Lemma buildAdjacencyList_None edges u :
  buildAdjacencyList edges !! u = None ↔
  ∀ e, e ∈ edges → GraphEdge.startNodeId e ≠ u.
Proof.
  induction edges as [|edge edges IH] using rev_ind.
  - split; [by intros _ e ?%elem_of_nil|done].
  - rewrite buildAdjacencyList_snoc. cbv zeta.
    destruct (decide (GraphEdge.startNodeId edge = u)) as [Heq|Hne].
    + rewrite Heq, lookup_insert_eq. split; [done|].
      intros Hall. destruct (Hall edge); [set_solver|done].
    + rewrite lookup_insert_ne by done. rewrite IH. split.
      * intros Hall e [He| ->%list_elem_of_singleton]%elem_of_app; [by apply Hall|done].
      * intros Hall e He. apply Hall. set_solver.
Qed.

(** X1. A node has an adjacency array exactly when an edge leaves it;
    the array then holds one element per edge leaving the node, in table
    order, and is never empty. *)
Theorem buildAdjacencyList_entries (edges : list PathEdge) (u : string) :
  match buildAdjacencyList edges !! u with
  | None => ∀ e, e ∈ edges → GraphEdge.startNodeId e ≠ u
  | Some neighbors =>
      neighbors ≠ [] ∧
      neighbors = neighborOf <$> filter (λ e, GraphEdge.startNodeId e = u) edges
  end.
Proof.
  destruct (buildAdjacencyList edges !! u) as [neighbors|] eqn:Hadj.
  - pose proof (buildAdjacencyList_lookup edges u) as Hl. rewrite Hadj in Hl. simpl in Hl.
    split; [|done]. intros ->.
    assert (buildAdjacencyList edges !! u = None) as Hnone; [|congruence].
    apply buildAdjacencyList_None. intros e He Hs.
    assert (e ∈ filter (λ e, GraphEdge.startNodeId e = u) edges) as Hin
      by by apply list_elem_of_filter.
    symmetry in Hl. apply fmap_nil_inv in Hl. rewrite Hl in Hin. by apply elem_of_nil in Hin.
  - by apply buildAdjacencyList_None.
Qed.

Lemma buildNodeMap_NoDup allNodes node :
  NoDup (PathNode.id <$> allNodes) → node ∈ allNodes →
  buildNodeMap allNodes !! PathNode.id node = Some node.
Proof.
  unfold buildNodeMap. induction allNodes as [|x l IH] using rev_ind;
    [by intros _ ?%elem_of_nil|].
  rewrite fmap_app, foldl_snoc. intros (Hnd & Hx & _)%NoDup_app.
  intros [Hin| ->%list_elem_of_singleton]%elem_of_app; [|by rewrite lookup_insert_eq].
  rewrite lookup_insert_ne; [by apply IH|].
  intros Heq. apply (Hx (PathNode.id node)); [by apply list_elem_of_fmap_2|].
  rewrite <- Heq. set_solver.
Qed.

(** X2. The node lookup built by [findPath] maps an identifier to the
    last row that carries it, and has no entry for an identifier that no
    row carries. *)
Theorem buildNodeMap_last_wins (allNodes : list PathNode.t) (k : string) :
  buildNodeMap allNodes !! k = last (filter (λ node, PathNode.id node = k) allNodes).
Proof.
  unfold buildNodeMap. induction allNodes as [|x l IH] using rev_ind; [done|].
  rewrite foldl_snoc, filter_app.
  destruct (decide (PathNode.id x = k)) as [Heq|Hne].
  - rewrite Heq, lookup_insert_eq. rewrite filter_cons_True by done.
    rewrite filter_nil. by rewrite last_snoc.
  - rewrite lookup_insert_ne by done. rewrite filter_cons_False by done.
    rewrite filter_nil, app_nil_r. done.
Qed.

(** ** Snapping stays within the largest radius *)

(** X3. A snapped node is a row of GraphNode that lies at most 0.05
    degrees from the query point in latitude and in longitude. *)
Theorem findNearestNode_within (heuristic : Q → Q → Q → Q → Q) (db : GraphDb)
    (lat lng : Q) (node : PathNode.t) :
  findNearestNode heuristic db lat lng = Some node →
  (∃ row, row ∈ graphNode db ∧ node = selectPathNode row) ∧
  (lat - (5#100) <= PathNode.latitude node)%Q ∧
  (PathNode.latitude node <= lat + (5#100))%Q ∧
  (lng - (5#100) <= PathNode.longitude node)%Q ∧
  (PathNode.longitude node <= lng + (5#100))%Q.
Proof.
  intros Hnode. pose proof (findNearestNodeIn_spec heuristic db lat lng searchRadii) as Hspec.
  unfold findNearestNode in Hnode. rewrite Hnode in Hspec.
  destruct Hspec as (i & radius & Hi & _ & Hin & _).
  apply list_elem_of_fmap in Hin as (row & -> & (Hw & Hrow)%list_elem_of_filter).
  assert (radius <= 5#100)%Q as Hle.
  { unfold searchRadii in Hi.
    destruct i as [|[|[|[|i]]]]; simpl in Hi; simplify_eq; done. }
  apply (withinRadius_mono _ _ _ _ _ Hle) in Hw.
  unfold withinRadius in Hw. rewrite !andb_true_iff, !Qle_bool_iff in Hw.
  destruct Hw as (((H1 & H2) & H3) & H4). split; [by exists row|]. done.
Qed.

Lemma findNearestNode_within_witness :
  let node := PathNode.mk "B" (1#100) 0 in
  findNearestNode meridianDistance straightDb (11#1000) 0 = Some node ∧
  (∃ row, row ∈ graphNode straightDb ∧ node = selectPathNode row) ∧
  ((11#1000) - (5#100) <= PathNode.latitude node)%Q ∧
  (PathNode.latitude node <= (11#1000) + (5#100))%Q ∧
  (0 - (5#100) <= PathNode.longitude node)%Q ∧
  (PathNode.longitude node <= 0 + (5#100))%Q.
Proof.
  intros node. split; [vm_compute; reflexivity|].
  apply (findNearestNode_within meridianDistance straightDb (11#1000) 0 node).
  vm_compute. reflexivity.
Defined.

(** ** The rounds of the search loop *)

Section SearchRounds.

Variable heuristic : Q → Q → Q → Q → Q.
Context {T : Type} `{TinyQueue T} (laws : TinyQueueLaws T).
Variable nodeMap : gmap string PathNode.t.
Variable adjacency : gmap string (list Neighbor.t).
Variable endNode : PathNode.t.

Lemma searchRun_more_fuel fuel fuel' (st : SearchState) :
  fuel ≤ fuel' →
  searchRun heuristic nodeMap adjacency endNode fuel st ≠ RunOutOfFuel →
  searchRun heuristic nodeMap adjacency endNode fuel' st =
  searchRun heuristic nodeMap adjacency endNode fuel st.
Proof.
  revert fuel' st. induction fuel as [|fuel IH]; intros fuel' st Hle Hrun; [done|].
  destruct fuel' as [|fuel']; [lia|]. simpl in *.
  destruct (tq_pop (openSet st)) as [[current rest]|]; [|done].
  case_decide; [done|]. case_decide; apply IH; (lia || done).
Qed.

End SearchRounds.

(** X4. On every graph, whatever its distances, penalties and the
    heuristic, the loop of [findPath] started from the snapped start node
    ends within [2 + edges] rounds, and allowing it more rounds does not
    change what it returns. *)
Theorem searchLoop_rounds (heuristic : Q → Q → Q → Q → Q) {T : Type} `{TinyQueue T}
    (laws : TinyQueueLaws T) (nodeMap : gmap string PathNode.t) (edges : list PathEdge)
    (startNode endNode : PathNode.t) (fuel : nat) :
  searchFuel edges ≤ fuel →
  searchRun heuristic nodeMap (buildAdjacencyList edges) endNode (searchFuel edges)
            (initialSearch startNode) ≠ RunOutOfFuel ∧
  searchLoop heuristic nodeMap (buildAdjacencyList edges) endNode fuel
             (initialSearch startNode) =
  searchLoop heuristic nodeMap (buildAdjacencyList edges) endNode (searchFuel edges)
             (initialSearch startNode).
Proof.
  intros Hfuel.
  pose proof (initialSearch_fuel heuristic laws nodeMap edges endNode startNode) as Hends.
  split; [done|]. rewrite !searchLoop_run.
  by rewrite (searchRun_more_fuel heuristic nodeMap _ endNode _ fuel _ Hfuel Hends).
Qed.

Lemma searchLoop_rounds_witness :
  let nodeMap := buildNodeMap (selectPathNode <$> graphNode straightDb) in
  let endNode := PathNode.mk "C" (2#100) 0 in
  let startNode := PathNode.mk "A" 0 0 in
  searchRun meridianDistance (T := list QueueItem.t) nodeMap
            (buildAdjacencyList (graphEdge straightDb)) endNode
            (searchFuel (graphEdge straightDb)) (initialSearch startNode) ≠ RunOutOfFuel ∧
  searchLoop meridianDistance (T := list QueueItem.t) nodeMap
             (buildAdjacencyList (graphEdge straightDb)) endNode 100
             (initialSearch startNode) =
  searchLoop meridianDistance nodeMap (buildAdjacencyList (graphEdge straightDb)) endNode
             (searchFuel (graphEdge straightDb)) (initialSearch startNode).
Proof.
  intros nodeMap endNode startNode.
  apply (searchLoop_rounds meridianDistance ListQueue_laws nodeMap (graphEdge straightDb)
           startNode endNode 100).
  unfold searchFuel. simpl. lia.
Defined.

(** ** Nothing reachable is lost by the search *)

Lemma relax_not_lt (heuristic : Q → Q → Q → Q → Q) {T : Type} `{TinyQueue T}
    (nodeMap : gmap string PathNode.t) (endNode : PathNode.t) current
    (st : SearchState) nb g :
  gScore st !! current = Some g →
  ltInf (g + Neighbor.cost nb) (gScore st !! Neighbor.nodeId nb) = false →
  relaxNeighbor heuristic nodeMap endNode current st nb = st.
Proof. intros Hg Hlt. unfold relaxNeighbor. rewrite Hg. simpl. by rewrite Hlt. Qed.

Section Coverage.

Variable heuristic : Q → Q → Q → Q → Q.
Context {T : Type} `{TinyQueue T} (laws : TinyQueueLaws T).
Variable nodeMap : gmap string PathNode.t.
Variable edges : list PathEdge.
Variable endNode : PathNode.t.
Variable start : string.

Local Abbreviation adjacency := (buildAdjacencyList edges).
Local Abbreviation relax := (relaxNeighbor heuristic nodeMap endNode).
Local Abbreviation expand := (expandNode heuristic nodeMap adjacency endNode).
Local Abbreviation items st := (tq_items (openSet st)).
Local Abbreviation cov := (searchCovers edges endNode start).

Hypothesis edges_known : ∀ e, e ∈ edges → is_Some (nodeMap !! GraphEdge.endNodeId e).

Lemma searchCovers_initial (startNode : PathNode.t) current :
  PathNode.id startNode = start →
  cov [] current (initialSearch startNode).
Proof.
  intros Hs. pose proof (initialSearch_items laws startNode) as Hitems.
  simpl in Hitems. split; simpl; rewrite ?Hs in *.
  - rewrite lookup_singleton_eq. eauto.
  - set_solver.
  - set_solver.
  - set_solver.
  - intros n [g [<- _]%lookup_singleton_Some] _. rewrite Hitems.
    eexists. split; [by apply list_elem_of_singleton|done].
  - intros item. rewrite Hitems. intros ->%list_elem_of_singleton. simpl.
    rewrite lookup_singleton_eq. eauto.
Qed.

Lemma searchCovers_current current current' (st : SearchState) :
  cov [] current st → cov [] current' st.
Proof.
  intros Hcov. split; try apply Hcov.
  intros e He Hs. destruct (cov_relaxed _ _ _ Hcov e He Hs) as [?|[_ []%elem_of_nil]].
  by left.
Qed.

Lemma searchCovers_skip current (st : SearchState) item rest :
  cov [] current st →
  tq_pop (openSet st) = Some (item, rest) →
  QueueItem.nodeId item ∈ visited st →
  cov [] current (withOpenSet st rest).
Proof.
  intros Hcov [Hperm _]%(tq_pop_Some laws) Hvis. split; simpl; try apply Hcov.
  - intros n Hg Hn.
    destruct (cov_queue _ _ _ Hcov n Hg Hn) as (item' & Hin & <-).
    exists item'. split; [|done].
    rewrite Hperm in Hin. apply elem_of_cons in Hin as [->|Hin]; done.
  - intros item' Hin. apply (cov_items _ _ _ Hcov). rewrite Hperm. set_solver.
Qed.

Lemma searchCovers_visit current (st : SearchState) item rest :
  cov [] current st →
  tq_pop (openSet st) = Some (item, rest) →
  QueueItem.nodeId item ≠ PathNode.id endNode →
  QueueItem.nodeId item ∉ visited st →
  cov (neighborOf <$> filter (λ e, GraphEdge.startNodeId e = QueueItem.nodeId item) edges)
      (QueueItem.nodeId item)
      (markVisited (withOpenSet st rest) (QueueItem.nodeId item)).
Proof.
  intros Hcov [Hperm _]%(tq_pop_Some laws) Hend Hvis.
  split; simpl; try apply Hcov.
  - pose proof (cov_end _ _ _ Hcov). set_solver.
  - intros n [->%elem_of_singleton|Hn]%elem_of_union; [|by apply Hcov].
    apply (cov_items _ _ _ Hcov). rewrite Hperm. set_solver.
  - intros e He [Hs%elem_of_singleton|Hs]%elem_of_union.
    + right. split; [done|]. apply list_elem_of_fmap_2. by apply list_elem_of_filter.
    + destruct (cov_relaxed _ _ _ Hcov e He Hs) as [?|[_ []%elem_of_nil]]. by left.
  - intros n Hg Hn.
    destruct (cov_queue _ _ _ Hcov n Hg) as (item' & Hin & <-); [set_solver|].
    exists item'. split; [|done].
    rewrite Hperm in Hin. apply elem_of_cons in Hin as [->|Hin]; [set_solver|done].
  - intros item' Hin. apply (cov_items _ _ _ Hcov). rewrite Hperm. set_solver.
Qed.

Lemma searchCovers_relax pending (st : SearchState) e :
  cov (neighborOf e :: pending) (GraphEdge.startNodeId e) st →
  GraphEdge.startNodeId e ∈ visited st → e ∈ edges →
  cov pending (GraphEdge.startNodeId e) (relax (GraphEdge.startNodeId e) st (neighborOf e)).
Proof.
  intros Hcov Hcur He.
  set (current := GraphEdge.startNodeId e) in *.
  set (v := GraphEdge.endNodeId e).
  destruct (cov_visited _ _ _ Hcov current Hcur) as [gc Hgc].
  assert (∀ e', neighborOf e' = neighborOf e → GraphEdge.endNodeId e' = v) as Hsame.
  { intros e' Heq. exact (f_equal Neighbor.nodeId Heq). }
  destruct (ltInf (gc + Neighbor.cost (neighborOf e))
                  (gScore st !! Neighbor.nodeId (neighborOf e))) eqn:Hlt.
  - destruct (relax_lower heuristic nodeMap endNode current st (neighborOf e) gc Hgc Hlt)
      as (Hgs & _ & _ & Hvs & Hq).
    simpl in Hgs, Hq. fold v in Hgs, Hq.
    destruct (edges_known e He) as [vnode Hvnode]. fold v in Hvnode. rewrite Hvnode in Hq.
    set (st' := relax current st (neighborOf e)) in *.
    assert (∃ new, items st' ≡ₚ new :: items st ∧ QueueItem.nodeId new = v)
      as (new & Hitems & Hnew).
    { eexists. rewrite Hq. split; [apply (tq_push_items T laws)|done]. }
    assert (∀ n, is_Some (gScore st !! n) → is_Some (gScore st' !! n)) as Hmono.
    { intros n Hn. rewrite Hgs, lookup_insert_is_Some'. by right. }
    split.
    + apply Hmono, Hcov.
    + rewrite Hvs. apply Hcov.
    + intros n. rewrite Hvs. intros Hn. by apply Hmono, Hcov.
    + intros e' He'. rewrite Hvs. intros Hs.
      destruct (cov_relaxed _ _ _ Hcov e' He' Hs) as [Hg|[Hs' [Heq|Hin]%elem_of_cons]].
      * left. by apply Hmono.
      * left. rewrite (Hsame e' Heq), Hgs, lookup_insert_eq. eauto.
      * by right.
    + intros n. rewrite Hgs, Hvs, lookup_insert_is_Some'. intros [<-|Hg] Hn.
      * exists new. split; [rewrite Hitems; left|done].
      * destruct (cov_queue _ _ _ Hcov n Hg Hn) as (item & Hin & ?).
        exists item. split; [rewrite Hitems; by right|done].
    + intros item. rewrite Hitems. intros [->|Hin]%elem_of_cons.
      * rewrite Hnew, Hgs, lookup_insert_eq. eauto.
      * by apply Hmono, (cov_items _ _ _ Hcov).
  - rewrite (relax_not_lt heuristic nodeMap endNode current st (neighborOf e) gc Hgc Hlt).
    split; try apply Hcov.
    intros e' He' Hs.
    destruct (cov_relaxed _ _ _ Hcov e' He' Hs) as [?|[Hs' [Heq|Hin]%elem_of_cons]];
      [by left| |by right].
    left. rewrite (Hsame e' Heq). simpl in Hlt. fold v in Hlt.
    destruct (gScore st !! v); [eauto|done].
Qed.

Lemma searchCovers_expand current (st : SearchState) item rest :
  cov [] current st →
  tq_pop (openSet st) = Some (item, rest) →
  QueueItem.nodeId item ≠ PathNode.id endNode →
  QueueItem.nodeId item ∉ visited st →
  cov [] current (expand (withOpenSet st rest) (QueueItem.nodeId item)).
Proof.
  intros Hcov Hpop Hend Hvis.
  pose proof (searchCovers_visit _ _ _ _ Hcov Hpop Hend Hvis) as Hvisit.
  apply (searchCovers_current (QueueItem.nodeId item)).
  unfold expandNode. rewrite buildAdjacencyList_lookup.
  set (n := QueueItem.nodeId item) in *.
  apply (foldl_relax_invariant heuristic nodeMap endNode
           (λ pending st', cov pending n st' ∧ n ∈ visited st' ∧
              ∀ nb, nb ∈ pending →
                    ∃ e, e ∈ edges ∧ GraphEdge.startNodeId e = n ∧ nb = neighborOf e) n).
  - intros nb pending st' (Hcov' & Hn & Hpend).
    destruct (Hpend nb) as (e & He & Hs & ->); [set_solver|]. split_and!.
    + rewrite <- Hs. apply searchCovers_relax; [by rewrite Hs|by rewrite Hs|done].
    + by rewrite relax_visited.
    + intros nb' Hnb'. apply Hpend. set_solver.
  - split_and!; [done|simpl; set_solver|].
    intros nb (e & -> & [Hs He]%list_elem_of_filter)%list_elem_of_fmap. by exists e.
Qed.

(** When the queue runs empty, the end node cannot be reached from the
    start node. *)
Lemma searchRun_exhausted fuel (startNode : PathNode.t) (st : SearchState) p :
  PathNode.id startNode = start →
  searchRun heuristic nodeMap adjacency endNode fuel (initialSearch startNode) =
    RunExhausted st →
  ¬ isPath edges start p (PathNode.id endNode).
Proof.
  intros Hs Hrun Hpath.
  pose proof (searchRun_invariant heuristic nodeMap edges endNode (cov [] start)) as Hrule.
  lapply Hrule; [clear Hrule; intros Hrule; lapply Hrule; [clear Hrule; intros Hrule|]|].
  - specialize (Hrule fuel (initialSearch startNode) (searchCovers_initial _ _ Hs)).
    rewrite Hrun in Hrule. destruct Hrule as [Hcov Hpop%(tq_pop_None laws)].
    assert (∀ n, is_Some (gScore st !! n) → n ∈ visited st) as Hall.
    { intros n Hg. destruct (decide (n ∈ visited st)) as [|Hn]; [done|].
      destruct (cov_queue _ _ _ Hcov n Hg Hn) as (item & Hin & _).
      rewrite Hpop in Hin. by apply elem_of_nil in Hin. }
    destruct (isPath_frontier edges (visited st) _ _ _ Hpath)
      as (_ & e & _ & _ & _ & Hu & He & Hv & _).
    + apply Hall, Hcov.
    + apply Hcov.
    + destruct (cov_relaxed _ _ _ Hcov e He Hu) as [Hg|[_ []%elem_of_nil]].
      by apply Hv, Hall.
  - intros st0 item rest Hcov Hpop Hend Hvis. by apply searchCovers_expand.
  - intros st0 item rest Hcov Hpop _ Hvis. by eapply searchCovers_skip.
Qed.

End Coverage.

(** ** Walking the predecessor links *)

Lemma walk_head cf n l : walk cf n l → n ∈ l.
Proof. destruct 1; set_solver. Qed.

Lemma walk_det cf n l1 l2 : walk cf n l1 → walk cf n l2 → l1 = l2.
Proof.
  intros Hw. revert l2. induction Hw as [n Hn|n c l Hc Hw IH]; intros l2 Hw2.
  - inversion Hw2; simplify_eq. done.
  - inversion Hw2 as [|? c' l' Hc' Hw']; simplify_eq. f_equal. by apply IH.
Qed.

Lemma walk_suffix cf n l m :
  walk cf n l → m ∈ l → ∃ l', walk cf m l' ∧ length l' ≤ length l.
Proof.
  induction 1 as [n Hn|n c l Hc Hw IH].
  - intros ->%list_elem_of_singleton. exists [n]. split; [by constructor|done].
  - intros [->|Hm]%elem_of_cons.
    + exists (n :: l). split; [by econstructor|done].
    + destruct (IH Hm) as (l' & Hw' & Hlen). exists l'. split; [done|simpl; lia].
Qed.

Lemma walk_NoDup cf n l : walk cf n l → NoDup l.
Proof.
  induction 1 as [n Hn|n c l Hc Hw IH]; [apply NoDup_singleton|].
  apply NoDup_cons. split; [|done]. intros Hin.
  destruct (walk_suffix _ _ _ _ Hw Hin) as (l' & Hw' & Hlen).
  assert (l' = n :: l) as -> by (eapply walk_det; [done|by econstructor]).
  simpl in Hlen. lia.
Qed.

Lemma walk_dom cf n l :
  walk cf n l → ∃ l0 t, l = l0 ++ [t] ∧ ∀ m, m ∈ l0 → is_Some (cf !! m).
Proof.
  induction 1 as [n Hn|n c l Hc Hw (l0 & t & -> & Hdom)].
  - exists [], n. split; [done|]. by intros m ?%elem_of_nil.
  - exists (n :: l0), t. split; [done|].
    intros m [->|Hm]%elem_of_cons; [eauto|by apply Hdom].
Qed.

Lemma walk_length cf n l : walk cf n l → length l ≤ S (size cf).
Proof.
  intros Hw. pose proof (walk_NoDup _ _ _ Hw) as Hnd.
  destruct (walk_dom _ _ _ Hw) as (l0 & t & -> & Hdom).
  apply NoDup_app in Hnd as (Hnd & _ & _).
  rewrite length_app. simpl. pose proof (NoDup_length_size cf l0 Hnd Hdom). lia.
Qed.

Lemma walk_keep cf n l v c : walk cf n l → (v ∉ l) → walk (<[v := c]> cf) n l.
Proof.
  induction 1 as [n Hn|n c' l Hc Hw IH]; intros Hv.
  - constructor. rewrite lookup_insert_ne; [done|set_solver].
  - econstructor; [|apply IH; set_solver].
    rewrite lookup_insert_ne; [done|set_solver].
Qed.

Lemma walk_insert cf n l v c lc :
  walk cf n l → walk (<[v := c]> cf) c lc → ∃ l', walk (<[v := c]> cf) n l'.
Proof.
  intros Hw Hc. induction Hw as [n Hn|n c' l Hc' Hw [l' IH]].
  - destruct (decide (n = v)) as [->|Hne].
    + exists (v :: lc). econstructor; [by rewrite lookup_insert_eq|done].
    + exists [n]. constructor. by rewrite lookup_insert_ne.
  - destruct (decide (n = v)) as [->|Hne].
    + exists (v :: lc). econstructor; [by rewrite lookup_insert_eq|done].
    + exists (n :: l'). econstructor; [by rewrite lookup_insert_ne|done].
Qed.

(** The reconstruction loop ends when the links do not loop. *)
Lemma reconstructPath_walk nodeMap cf n l :
  walk cf n l → ∀ fuel acc, length l ≤ fuel →
  ∃ path, reconstructPath nodeMap fuel cf (Some n) acc = Returns path.
Proof.
  induction 1 as [n Hn|n c l Hc Hw IH]; intros fuel acc Hfuel.
  - destruct fuel as [|fuel]; [simpl in Hfuel; lia|].
    cbn [reconstructPath]. case_decide; [eauto|]. rewrite Hn. destruct fuel; simpl; eauto.
  - destruct fuel as [|fuel]; [simpl in Hfuel; lia|].
    cbn [reconstructPath]. case_decide; [eauto|]. rewrite Hc. apply IH.
    simpl in Hfuel. lia.
Qed.

Lemma reconstructPath_walk_points nodeMap cf n l :
  walk cf n l → (∀ m, m ∈ l → m ≠ "") → ∀ fuel acc, length l ≤ fuel →
  reconstructPath nodeMap fuel cf (Some n) acc =
  Returns (pointsOf nodeMap (reverse l) ++ acc).
Proof.
  induction 1 as [n Hn|n c l Hc Hw IH]; intros Hids fuel acc Hfuel.
  - destruct fuel as [|fuel]; [simpl in Hfuel; lia|].
    cbn [reconstructPath]. rewrite decide_False by (apply Hids; set_solver).
    rewrite Hn. unfold pointsOf. simpl.
    destruct (nodeMap !! n); destruct fuel; done.
  - destruct fuel as [|fuel]; [simpl in Hfuel; lia|].
    cbn [reconstructPath]. rewrite decide_False by (apply Hids; set_solver).
    rewrite Hc. rewrite IH; [|intros; apply Hids; set_solver|simpl in Hfuel; lia].
    rewrite reverse_cons. unfold pointsOf. rewrite omap_app, <- app_assoc. simpl.
    by destruct (nodeMap !! n).
Qed.

(** ** The predecessor links when no cost is negative *)

Section Links.

Variable heuristic : Q → Q → Q → Q → Q.
Context {T : Type} `{TinyQueue T} (laws : TinyQueueLaws T).
Variable nodeMap : gmap string PathNode.t.
Variable edges : list PathEdge.
Variable endNode : PathNode.t.
Variable start : string.

Local Abbreviation adjacency := (buildAdjacencyList edges).
Local Abbreviation relax := (relaxNeighbor heuristic nodeMap endNode).
Local Abbreviation expand := (expandNode heuristic nodeMap adjacency endNode).
Local Abbreviation items st := (tq_items (openSet st)).
Local Abbreviation lnk := (searchLinks edges start).

Hypothesis costs : costsNotNegative edges.

Lemma searchLinks_initial (startNode : PathNode.t) :
  PathNode.id startNode = start → lnk (initialSearch startNode).
Proof.
  intros Hs. pose proof (initialSearch_items laws startNode) as Hitems.
  simpl in Hitems. split; simpl; rewrite ?Hs in *.
  - apply lookup_singleton_eq.
  - apply lookup_empty.
  - intros n g [_ <-]%lookup_singleton_Some. done.
  - intros n c. by rewrite lookup_empty.
  - intros n [g [<- _]%lookup_singleton_Some]. done.
  - intros n. exists [n]. constructor. apply lookup_empty.
  - intros item. rewrite Hitems. intros ->%list_elem_of_singleton. simpl.
    rewrite lookup_singleton_eq. eauto.
Qed.

(** Recorded costs do not go up along the links. *)
Lemma walk_costs (st : SearchState) c l gc :
  lnk st → walk (cameFrom st) c l → gScore st !! c = Some gc →
  ∀ m, m ∈ l → ∃ gm, gScore st !! m = Some gm ∧ (gm <= gc)%Q.
Proof.
  intros Hlnk Hw. revert gc. induction Hw as [n Hn|n c l Hc Hw IH]; intros gc Hgc m.
  - intros ->%list_elem_of_singleton. exists gc. split; [done|lra].
  - intros [->|Hm]%elem_of_cons; [exists gc; split; [done|lra]|].
    destruct (lnk_edge _ Hlnk n c Hc) as (e & gn & gc' & He & _ & _ & Hgn & Hgc' & Hle).
    destruct (IH gc' Hgc' m Hm) as (gm & Hgm & Hle').
    exists gm. split; [done|]. pose proof (costs e He). simplify_eq. lra.
Qed.

Lemma searchLinks_relax (st : SearchState) e :
  lnk st → e ∈ edges →
  lnk (relax (GraphEdge.startNodeId e) st (neighborOf e)).
Proof.
  intros Hlnk He.
  set (current := GraphEdge.startNodeId e) in *.
  set (v := GraphEdge.endNodeId e).
  destruct (gScore st !! current) as [gc|] eqn:Hgc;
    [|by rewrite (relax_unknown_current heuristic nodeMap endNode)].
  destruct (ltInf (gc + Neighbor.cost (neighborOf e))
                  (gScore st !! Neighbor.nodeId (neighborOf e))) eqn:Hlt;
    [|by rewrite (relax_not_lt heuristic nodeMap endNode current st (neighborOf e) gc)].
  destruct (relax_lower heuristic nodeMap endNode current st (neighborOf e) gc Hgc Hlt)
    as (Hgs & Hcf & _ & _ & Hq).
  simpl in Hlt, Hgs, Hcf, Hq. fold v in Hlt, Hgs, Hcf, Hq.
  fold (edgeCost e) in Hlt, Hgs, Hq.
  set (st' := relax current st (neighborOf e)) in *.
  pose proof (costs e He) as Hcost.
  pose proof (lnk_nonneg _ Hlnk current gc Hgc) as Hgc0.
  assert (∀ old, gScore st !! v = Some old → (gc + edgeCost e < old)%Q) as Hold.
  { intros old Hg. rewrite Hg in Hlt. by apply Qltb_true. }
  assert (v ≠ start) as Hvs.
  { intros Heq. pose proof (Hold 0%Q) as H0. rewrite Heq in H0.
    specialize (H0 (lnk_start_g _ Hlnk)). lra. }
  destruct (lnk_walk _ Hlnk current) as [lc Hlc].
  assert (v ∉ lc) as Hvlc.
  { intros Hin. destruct (walk_costs _ _ _ _ Hlnk Hlc Hgc v Hin) as (gv & Hgv & Hle).
    specialize (Hold gv Hgv). lra. }
  assert (current ≠ v) as Hcv.
  { intros Heq. apply Hvlc. rewrite <- Heq. by eapply walk_head. }
  assert (∀ n, is_Some (gScore st !! n) → is_Some (gScore st' !! n)) as Hmono.
  { intros n Hn. rewrite Hgs, lookup_insert_is_Some'. by right. }
  split.
  - rewrite Hgs, lookup_insert_ne by done. apply Hlnk.
  - rewrite Hcf, lookup_insert_ne by done. apply Hlnk.
  - intros n g. rewrite Hgs, lookup_insert_Some. intros [[_ <-]|[_ Hg]]; [lra|].
    by eapply (lnk_nonneg _ Hlnk).
  - intros n c. rewrite Hcf, Hgs, lookup_insert_Some. intros [[<- <-]|[Hn Hc]].
    + exists e, (gc + edgeCost e)%Q, gc. rewrite lookup_insert_eq.
      rewrite lookup_insert_ne by done. split_and!; try done. lra.
    + destruct (lnk_edge _ Hlnk n c Hc) as (e0 & gn & gc0 & He0 & Hs0 & Hv0 & Hgn & Hgc0' & Hle).
      rewrite lookup_insert_ne by done.
      destruct (decide (v = c)) as [<-|Hvc].
      * exists e0, gn, (gc + edgeCost e)%Q. rewrite lookup_insert_eq.
        split_and!; try done. specialize (Hold gc0 Hgc0'). lra.
      * exists e0, gn, gc0. rewrite lookup_insert_ne by done. done.
  - intros n. rewrite Hgs, Hcf, lookup_insert_is_Some', lookup_insert_is_Some'.
    intros [?|Hg] Hn; [by left|]. right. by apply (lnk_root _ Hlnk).
  - intros n. rewrite Hcf. destruct (lnk_walk _ Hlnk n) as [l Hl].
    eapply walk_insert; [done|]. by apply walk_keep.
  - intros item Hitem. destruct (nodeMap !! v).
    + rewrite Hq in Hitem. rewrite (tq_push_items T laws) in Hitem.
      apply elem_of_cons in Hitem as [->|Hitem].
      * simpl. rewrite Hgs, lookup_insert_eq. eauto.
      * by apply Hmono, (lnk_queue _ Hlnk).
    + rewrite Hq in Hitem. by apply Hmono, (lnk_queue _ Hlnk).
Qed.

Lemma searchLinks_open (st : SearchState) item rest :
  lnk st → tq_pop (openSet st) = Some (item, rest) → lnk (withOpenSet st rest).
Proof.
  intros Hlnk [Hperm _]%(tq_pop_Some laws). split; simpl; try apply Hlnk.
  intros item' Hin. apply (lnk_queue _ Hlnk). rewrite Hperm. set_solver.
Qed.

Lemma searchLinks_expand (st : SearchState) current :
  lnk st → lnk (expand st current).
Proof.
  intros Hlnk. apply (expand_invariant heuristic laws nodeMap edges endNode).
  - split; simpl; apply Hlnk.
  - intros st' e Hst' He <-. by apply searchLinks_relax.
Qed.

(** The state in which the end node is popped. *)
Lemma searchRun_links fuel (startNode : PathNode.t) (st : SearchState) :
  PathNode.id startNode = start →
  searchRun heuristic nodeMap adjacency endNode fuel (initialSearch startNode) =
    RunReached st →
  lnk st ∧ is_Some (gScore st !! PathNode.id endNode).
Proof.
  intros Hs Hrun.
  pose proof (searchRun_invariant heuristic nodeMap edges endNode lnk) as Hrule.
  lapply Hrule; [clear Hrule; intros Hrule; lapply Hrule; [clear Hrule; intros Hrule|]|].
  - specialize (Hrule fuel (initialSearch startNode) (searchLinks_initial _ Hs)).
    rewrite Hrun in Hrule.
    destruct Hrule as (st0 & item & Hlnk & Hpop & Hend & ->).
    split; [by eapply searchLinks_open|]. simpl. rewrite <- Hend.
    apply (lnk_queue _ Hlnk). apply (tq_pop_Some laws) in Hpop as [Hperm _].
    rewrite Hperm. set_solver.
  - intros st0 item rest Hlnk Hpop _ _. apply searchLinks_expand.
    by eapply searchLinks_open.
  - intros st0 item rest Hlnk Hpop _ _. by eapply searchLinks_open.
Qed.

(** The links from a node with a recorded cost spell a path from the
    start node that costs no more than recorded. *)
Lemma walk_path (st : SearchState) n l :
  lnk st → walk (cameFrom st) n l → is_Some (gScore st !! n) →
  ∃ p gn, isPath edges start p n ∧ l = reverse (pathNodes start p) ∧
          gScore st !! n = Some gn ∧ (pathCost p <= gn)%Q.
Proof.
  intros Hlnk. induction 1 as [n Hn|n c l Hc Hw IH]; intros [gn Hgn].
  - destruct (decide (n = start)) as [->|Hne].
    + exists [], gn. split_and!; [constructor|done|done|].
      simpl. by eapply (lnk_nonneg _ Hlnk).
    + destruct (lnk_root _ Hlnk n) as [c Hc]; [eauto|done|congruence].
  - destruct (lnk_edge _ Hlnk n c Hc) as (e & gn' & gc & He & Hs & Hv & Hgn' & Hgc & Hle).
    destruct IH as (p & gc' & Hp & -> & Hgc' & Hcost); [eauto|].
    exists (p ++ [e]), gn. split_and!; [| |done|].
    + rewrite <- Hv. apply isPath_snoc; [by rewrite Hs|done].
    + rewrite pathNodes_snoc, reverse_snoc, Hv. done.
    + rewrite pathCost_app. simpl. simplify_eq. lra.
Qed.

End Links.

(** ** [findPath]: termination, completeness and the route returned *)

Lemma isPath_edges edges u p v : isPath edges u p v → ∀ e, e ∈ p → e ∈ edges.
Proof.
  induction 1 as [u|u e p v He Hs Hp IH]; intros e' He'; [by apply elem_of_nil in He'|].
  apply elem_of_cons in He' as [->|He']; auto.
Qed.

Lemma isPath_last edges u p v :
  isPath edges u p v → ∃ init, pathNodes u p = init ++ [v].
Proof.
  induction 1 as [u|u e p v He Hs Hp [init IH]]; [by exists []|].
  exists (u :: init).
  change (pathNodes u (e :: p)) with (u :: pathNodes (GraphEdge.endNodeId e) p).
  by rewrite IH.
Qed.

Lemma isPath_nil_inv edges u v : isPath edges u [] v → u = v.
Proof. by inversion 1. Qed.

Lemma costsNotNegative_decide edges :
  Forall (λ e, Qle_bool 0 (edgeCost e) = true) edges → costsNotNegative edges.
Proof.
  intros Hall e He. apply Qle_bool_iff. by apply (proj1 (Forall_forall _ _) Hall).
Qed.

Section FindPathRoute.

Variable heuristic : Q → Q → Q → Q → Q.
Context {T : Type} `{TinyQueue T} (laws : TinyQueueLaws T).

Lemma pathFound_returns nodeMap edges endNode start (st : SearchState) :
  searchLinks edges start st →
  ∃ log result, pathFound nodeMap endNode st = Returns (log, Some result).
Proof.
  intros Hlnk. unfold pathFound.
  destruct (lnk_walk _ Hlnk (PathNode.id endNode)) as [l Hl].
  destruct (reconstructPath_walk nodeMap _ _ _ Hl (S (size (cameFrom st))) []) as [path ->];
    [by eapply walk_length|]. eauto.
Qed.

Lemma foreignKeys_known db e :
  foreignKeys db → e ∈ graphEdge db →
  is_Some (buildNodeMap (selectPathNode <$> graphNode db) !! GraphEdge.endNodeId e).
Proof.
  intros Hfk [_ (v & Hrow & Hid)]%Hfk. apply buildNodeMap_lookup.
  exists (selectPathNode v). split; [by apply list_elem_of_fmap_2|done].
Qed.

Lemma findNearestNode_lookup db lat lng node :
  NoDup (GraphNode.id <$> graphNode db) →
  findNearestNode heuristic db lat lng = Some node →
  buildNodeMap (selectPathNode <$> graphNode db) !! PathNode.id node = Some node.
Proof.
  intros Hnd (row & Hrow & ->)%(findNearestNode_row heuristic).
  apply buildNodeMap_NoDup; [|by apply list_elem_of_fmap_2].
  by rewrite <- list_fmap_compose.
Qed.

(** The route of a successful call, read off the predecessor links. *)
Lemma findPath_links db startLat startLng endLat endLng startNode endNode log result :
  (∀ n, n ∈ graphNode db → GraphNode.id n ≠ "") →
  NoDup (GraphNode.id <$> graphNode db) →
  foreignKeys db →
  costsNotNegative (graphEdge db) →
  findNearestNode heuristic db startLat startLng = Some startNode →
  findNearestNode heuristic db endLat endLng = Some endNode →
  findPath heuristic db startLat startLng endLat endLng = Returns (log, Some result) →
  ∃ p, isPath (graphEdge db) (PathNode.id startNode) p (PathNode.id endNode) ∧
       PathResult.path result =
         pointsOf (buildNodeMap (selectPathNode <$> graphNode db))
                  (pathNodes (PathNode.id startNode) p) ∧
       length (PathResult.path result) = S (length p) ∧
       (pathCost p <= PathResult.totalCost result)%Q ∧
       head (PathResult.path result) =
         Some (Point.mk (PathNode.latitude startNode) (PathNode.longitude startNode)) ∧
       last (PathResult.path result) =
         Some (Point.mk (PathNode.latitude endNode) (PathNode.longitude endNode)) ∧
       (PathNode.id startNode = PathNode.id endNode → p = []).
Proof.
  intros Hids Hnd Hfk Hcosts Hs He Hret.
  set (nodeMap := buildNodeMap (selectPathNode <$> graphNode db)).
  assert (∀ k, is_Some (nodeMap !! k) → k ≠ "") as Hkeys.
  { intros k (node & (row & -> & Hrow)%list_elem_of_fmap & <-)%buildNodeMap_lookup.
    by apply Hids. }
  pose proof (findNearestNode_lookup db _ _ _ Hnd Hs) as Hstart. fold nodeMap in Hstart.
  pose proof (findNearestNode_lookup db _ _ _ Hnd He) as Hend. fold nodeMap in Hend.
  pose proof (findPath_run heuristic laws db _ _ _ _ _ _ Hs He) as Hrun. cbv zeta in Hrun.
  fold nodeMap in Hrun.
  destruct (searchRun _ _ _ _ _ _) as [|st|st] eqn:Hsearch; [done|congruence|].
  destruct (searchRun_links heuristic laws nodeMap (graphEdge db) endNode
              (PathNode.id startNode) Hcosts _ startNode st eq_refl Hsearch) as [Hlnk Hg].
  destruct (lnk_walk _ Hlnk (PathNode.id endNode)) as [l Hl].
  destruct (walk_path (graphEdge db) (PathNode.id startNode) st _ _ Hlnk Hl Hg)
    as (p & gn & Hp & -> & Hgn & Hcost).
  assert (∀ m, m ∈ pathNodes (PathNode.id startNode) p → is_Some (nodeMap !! m)) as Hknown.
  { intros m [->|(e & -> & He')%list_elem_of_fmap]%elem_of_cons; [eauto|].
    apply foreignKeys_known; [done|]. by eapply isPath_edges. }
  rewrite Hrun in Hret. unfold pathFound in Hret. rewrite Hgn in Hret.
  rewrite (reconstructPath_walk_points nodeMap _ _ _ Hl) in Hret.
  2:{ intros m Hm. rewrite elem_of_reverse in Hm. exact (Hkeys m (Hknown m Hm)). }
  2:{ by eapply walk_length. }
  rewrite reverse_involutive, app_nil_r in Hret.
  remember (pointsOf nodeMap (pathNodes (PathNode.id startNode) p)) as points eqn:Hpts.
  cbv beta iota zeta in Hret. injection Hret as _ <-. cbn [PathResult.path PathResult.totalCost].
  exists p. split_and!; try done.
  - subst points. rewrite length_pointsOf by done.
    unfold pathNodes. by rewrite length_cons, length_fmap.
  - subst points. unfold pathNodes. by rewrite (pointsOf_cons _ _ _ _ Hstart).
  - subst points. destruct (isPath_last _ _ _ _ Hp) as [init ->].
    rewrite (pointsOf_snoc _ _ _ _ Hend). by rewrite last_snoc.
  - intros Heq. rewrite <- Heq in Hl.
    pose proof (walk_det _ _ _ _ Hl (walk_end _ _ (lnk_start_cf _ Hlnk))) as Hlen.
    apply (f_equal length) in Hlen. rewrite length_reverse in Hlen.
    unfold pathNodes in Hlen. simpl in Hlen. rewrite length_fmap in Hlen.
    destruct p; [done|simpl in Hlen; lia].
Qed.

(** X5. When no edge has a negative cost (distance times effective
    penalty), every call of [findPath] returns: neither the search loop
    nor the loop that walks the predecessor links runs forever. *)
Theorem findPath_terminates (db : GraphDb) (startLat startLng endLat endLng : Q) :
  costsNotNegative (graphEdge db) →
  ∃ log result, findPath heuristic db startLat startLng endLat endLng = Returns (log, result).
Proof.
  intros Hcosts.
  destruct (findNearestNode heuristic db startLat startLng) as [startNode|] eqn:Hs;
    [|unfold findPath; rewrite Hs; eauto].
  destruct (findNearestNode heuristic db endLat endLng) as [endNode|] eqn:He;
    [|unfold findPath; rewrite Hs, He; eauto].
  pose proof (findPath_run heuristic laws db _ _ _ _ _ _ Hs He) as Hrun. cbv zeta in Hrun.
  destruct (searchRun _ _ _ _ _ _) as [|st|st] eqn:Hsearch; [done|eauto|].
  destruct (searchRun_links heuristic laws _ (graphEdge db) endNode
              (PathNode.id startNode) Hcosts _ startNode st eq_refl Hsearch) as [Hlnk _].
  destruct (pathFound_returns (buildNodeMap (selectPathNode <$> graphNode db))
              _ endNode _ st Hlnk) as (log & result & Hfound).
  rewrite Hfound in Hrun. eauto.
Qed.

(** A route is only returned when the end node can be reached. *)
Lemma findPath_Some_path db startLat startLng endLat endLng startNode endNode log result :
  findNearestNode heuristic db startLat startLng = Some startNode →
  findNearestNode heuristic db endLat endLng = Some endNode →
  findPath heuristic db startLat startLng endLat endLng = Returns (log, Some result) →
  ∃ p, isPath (graphEdge db) (PathNode.id startNode) p (PathNode.id endNode).
Proof.
  intros Hs He Hret.
  set (nodeMap := buildNodeMap (selectPathNode <$> graphNode db)).
  pose proof (findPath_run heuristic laws db _ _ _ _ _ _ Hs He) as Hrun. cbv zeta in Hrun.
  fold nodeMap in Hrun.
  pose proof (queueReachable_run heuristic laws nodeMap (graphEdge db) endNode
                (PathNode.id startNode) (searchFuel (graphEdge db))
                (initialSearch startNode)) as Hreach.
  destruct (searchRun _ _ _ _ _ _) as [|st|st] eqn:Hsearch; [done|congruence|].
  apply Hreach. intros item. rewrite (initialSearch_items laws).
  intros ->%list_elem_of_singleton. exists []. constructor.
Qed.

(** A route is returned whenever the end node can be reached. *)
Lemma findPath_path_Some db startLat startLng endLat endLng startNode endNode p :
  foreignKeys db →
  costsNotNegative (graphEdge db) →
  findNearestNode heuristic db startLat startLng = Some startNode →
  findNearestNode heuristic db endLat endLng = Some endNode →
  isPath (graphEdge db) (PathNode.id startNode) p (PathNode.id endNode) →
  ∃ log result,
    findPath heuristic db startLat startLng endLat endLng = Returns (log, Some result).
Proof.
  intros Hfk Hcosts Hs He Hp.
  set (nodeMap := buildNodeMap (selectPathNode <$> graphNode db)).
  pose proof (findPath_run heuristic laws db _ _ _ _ _ _ Hs He) as Hrun. cbv zeta in Hrun.
  fold nodeMap in Hrun.
  destruct (searchRun _ _ _ _ _ _) as [|st|st] eqn:Hsearch; [done| |].
  - destruct (searchRun_exhausted heuristic laws nodeMap (graphEdge db) endNode
                (PathNode.id startNode) (λ e, foreignKeys_known db e Hfk)
                _ startNode st p eq_refl Hsearch Hp).
  - destruct (searchRun_links heuristic laws nodeMap (graphEdge db) endNode
                (PathNode.id startNode) Hcosts _ startNode st eq_refl Hsearch) as [Hlnk _].
    destruct (pathFound_returns nodeMap _ endNode _ st Hlnk) as (log & result & Hfound).
    rewrite Hfound in Hrun. eauto.
Qed.

(** X6. With both foreign keys in place and no negative cost,
    [findPath] returns a route exactly when some path leads from the
    snapped start node to the snapped end node. *)
Theorem findPath_route_iff_reachable (db : GraphDb) (startLat startLng endLat endLng : Q)
    (startNode endNode : PathNode.t) :
  foreignKeys db →
  costsNotNegative (graphEdge db) →
  findNearestNode heuristic db startLat startLng = Some startNode →
  findNearestNode heuristic db endLat endLng = Some endNode →
  (∃ log result,
     findPath heuristic db startLat startLng endLat endLng = Returns (log, Some result)) ↔
  (∃ p, isPath (graphEdge db) (PathNode.id startNode) p (PathNode.id endNode)).
Proof.
  intros Hfk Hcosts Hs He. split.
  - intros (log & result & Hret). by eapply findPath_Some_path.
  - intros [p Hp]. by eapply findPath_path_Some.
Qed.

(** X7. With non-empty unique node identifiers, both foreign keys and
    no negative cost, the coordinates of a returned route are those of
    the nodes along a path of the graph from the snapped start node to
    the snapped end node: the first point is the start node, the last
    point is the end node, there is one point more than edges, and the
    path costs no more than the [totalCost] reported. *)
Theorem findPath_route (db : GraphDb) (startLat startLng endLat endLng : Q)
    (startNode endNode : PathNode.t) (log : list LogLine) (result : PathResult.t) :
  (∀ n, n ∈ graphNode db → GraphNode.id n ≠ "") →
  NoDup (GraphNode.id <$> graphNode db) →
  foreignKeys db →
  costsNotNegative (graphEdge db) →
  findNearestNode heuristic db startLat startLng = Some startNode →
  findNearestNode heuristic db endLat endLng = Some endNode →
  findPath heuristic db startLat startLng endLat endLng = Returns (log, Some result) →
  ∃ p, isPath (graphEdge db) (PathNode.id startNode) p (PathNode.id endNode) ∧
       PathResult.path result =
         pointsOf (buildNodeMap (selectPathNode <$> graphNode db))
                  (pathNodes (PathNode.id startNode) p) ∧
       length (PathResult.path result) = S (length p) ∧
       (pathCost p <= PathResult.totalCost result)%Q ∧
       head (PathResult.path result) =
         Some (Point.mk (PathNode.latitude startNode) (PathNode.longitude startNode)) ∧
       last (PathResult.path result) =
         Some (Point.mk (PathNode.latitude endNode) (PathNode.longitude endNode)).
Proof.
  intros Hids Hnd Hfk Hcosts Hs He Hret.
  destruct (findPath_links db _ _ _ _ _ _ _ _ Hids Hnd Hfk Hcosts Hs He Hret)
    as (p & Hp & Hpath & Hlen & Hcost & Hhead & Hlast & _).
  by exists p.
Qed.

(** X8. What the route renderer does with a route of [findPath] (same
    conditions on the graph): it draws nothing when both endpoints
    snapped to the same node, and otherwise draws every point of the
    route, with the start marker on the snapped start node and the end
    marker on the snapped end node. *)
Theorem RouteRenderer_findPath (db : GraphDb) (startLat startLng endLat endLng : Q)
    (startNode endNode : PathNode.t) (log : list LogLine) (result : PathResult.t) :
  (∀ n, n ∈ graphNode db → GraphNode.id n ≠ "") →
  NoDup (GraphNode.id <$> graphNode db) →
  foreignKeys db →
  costsNotNegative (graphEdge db) →
  findNearestNode heuristic db startLat startLng = Some startNode →
  findNearestNode heuristic db endLat endLng = Some endNode →
  findPath heuristic db startLat startLng endLat endLng = Returns (log, Some result) →
  (PathNode.id startNode = PathNode.id endNode →
   RouteRenderer (Some (PathResult.path result)) = None) ∧
  (PathNode.id startNode ≠ PathNode.id endNode →
   ∃ drawn, RouteRenderer (Some (PathResult.path result)) = Some drawn ∧
     Rendered.positions drawn = (λ p, (Point.lat p, Point.lng p)) <$> PathResult.path result ∧
     Rendered.startPoint drawn =
       Point.mk (PathNode.latitude startNode) (PathNode.longitude startNode) ∧
     Rendered.endPoint drawn =
       Point.mk (PathNode.latitude endNode) (PathNode.longitude endNode)).
Proof.
  intros Hids Hnd Hfk Hcosts Hs He Hret.
  destruct (findPath_links db _ _ _ _ _ _ _ _ Hids Hnd Hfk Hcosts Hs He Hret)
    as (p & Hp & _ & Hlen & _ & Hhead & Hlast & Hsame).
  unfold RouteRenderer. split.
  - intros Heq. rewrite (Hsame Heq) in Hlen. rewrite decide_True; [done|]. simpl in Hlen. lia.
  - intros Hne. rewrite decide_False.
    2:{ destruct p; [by apply isPath_nil_inv in Hp|simpl in Hlen; lia]. }
    rewrite head_lookup in Hhead. rewrite last_lookup in Hlast.
    rewrite Nat.sub_1_r, Hhead, Hlast. eauto.
Qed.

End FindPathRoute.

(** ** Concrete runs of the further properties *)

Lemma straightDb_costs : costsNotNegative (graphEdge straightDb).
Proof. apply costsNotNegative_decide. repeat constructor. Qed.

Lemma straightDb_ids : NoDup (GraphNode.id <$> graphNode straightDb).
Proof.
  match goal with |- ?P => apply (bool_decide_unpack P) end. vm_compute. exact I.
Qed.

Lemma straightDb_ids_nonempty n : n ∈ graphNode straightDb → GraphNode.id n ≠ "".
Proof. intros Hn. unfold straightDb in Hn. simpl in Hn. list_cases Hn; done. Qed.

Lemma findPath_terminates_witness :
  ∃ log result,
    findPath meridianDistance (T := list QueueItem.t) straightDb 0 0 (2#100) 0 =
    Returns (log, result).
Proof.
  apply (findPath_terminates meridianDistance ListQueue_laws straightDb 0 0 (2#100) 0).
  exact straightDb_costs.
Defined.

Lemma findPath_route_iff_reachable_witness :
  (∃ log result,
     findPath meridianDistance (T := list QueueItem.t) straightDb 0 0 (2#100) 0 =
     Returns (log, Some result)) ↔
  (∃ p, isPath (graphEdge straightDb) "A" p "C").
Proof.
  apply (findPath_route_iff_reachable meridianDistance ListQueue_laws straightDb
           0 0 (2#100) 0 (PathNode.mk "A" 0 0) (PathNode.mk "C" (2#100) 0)).
  - exact straightDb_foreignKeys.
  - exact straightDb_costs.
  - vm_compute. reflexivity.
  - vm_compute. reflexivity.
Defined.

Lemma findPath_route_witness :
  ∃ log result,
    findPath meridianDistance (T := list QueueItem.t) straightDb 0 0 (2#100) 0 =
      Returns (log, Some result) ∧
    ∃ p, isPath (graphEdge straightDb) "A" p "C" ∧
         PathResult.path result =
           pointsOf (buildNodeMap (selectPathNode <$> graphNode straightDb))
                    (pathNodes "A" p) ∧
         length (PathResult.path result) = S (length p) ∧
         (pathCost p <= PathResult.totalCost result)%Q ∧
         head (PathResult.path result) = Some (Point.mk 0 0) ∧
         last (PathResult.path result) = Some (Point.mk (2#100) 0).
Proof.
  do 2 eexists. split; [vm_compute; reflexivity|].
  eapply (findPath_route meridianDistance ListQueue_laws straightDb 0 0 (2#100) 0
            (PathNode.mk "A" 0 0) (PathNode.mk "C" (2#100) 0)).
  - exact straightDb_ids_nonempty.
  - exact straightDb_ids.
  - exact straightDb_foreignKeys.
  - exact straightDb_costs.
  - vm_compute. reflexivity.
  - vm_compute. reflexivity.
  - vm_compute. reflexivity.
Defined.

Lemma RouteRenderer_findPath_witness :
  ∃ log result,
    findPath meridianDistance (T := list QueueItem.t) straightDb 0 0 (2#100) 0 =
      Returns (log, Some result) ∧
    ("A" = "C" → RouteRenderer (Some (PathResult.path result)) = None) ∧
    ("A" ≠ "C" →
     ∃ drawn, RouteRenderer (Some (PathResult.path result)) = Some drawn ∧
       Rendered.positions drawn =
         (λ p, (Point.lat p, Point.lng p)) <$> PathResult.path result ∧
       Rendered.startPoint drawn = Point.mk 0 0 ∧
       Rendered.endPoint drawn = Point.mk (2#100) 0).
Proof.
  do 2 eexists. split; [vm_compute; reflexivity|].
  eapply (RouteRenderer_findPath meridianDistance ListQueue_laws straightDb 0 0 (2#100) 0
            (PathNode.mk "A" 0 0) (PathNode.mk "C" (2#100) 0)).
  - exact straightDb_ids_nonempty.
  - exact straightDb_ids.
  - exact straightDb_foreignKeys.
  - exact straightDb_costs.
  - vm_compute. reflexivity.
  - vm_compute. reflexivity.
  - vm_compute. reflexivity.
Defined.

(** ** The grid of cells *)

Lemma cell_div (x : Q) : (x / GRID_CELL_SIZE == x * 100)%Q.
Proof. unfold GRID_CELL_SIZE. field. Qed.

Lemma Qfloor_cell (k : Z) (x : Q) :
  Qfloor (x / GRID_CELL_SIZE) = k ↔
  (inject_Z k * GRID_CELL_SIZE <= x ∧ x < inject_Z k * GRID_CELL_SIZE + GRID_CELL_SIZE)%Q.
Proof.
  pose proof (cell_div x) as Hy. set (y := (x / GRID_CELL_SIZE)%Q) in *. clearbody y.
  pose proof (Qfloor_le y) as Hlo. pose proof (Qlt_floor y) as Hhi.
  rewrite inject_Z_plus in Hhi. change (inject_Z 1) with 1%Q in Hhi.
  unfold GRID_CELL_SIZE. split.
  - intros <-. split; lra.
  - intros [Hk Hk1]. apply Z.le_antisymm.
    + apply Z.lt_succ_r. rewrite Zlt_Qlt. unfold Z.succ. rewrite inject_Z_plus.
      change (inject_Z 1) with 1%Q. lra.
    + rewrite <- (Qfloor_Z k). apply Qfloor_resp_le. lra.
Qed.

Lemma getGridCellsForBounds_elem minLat maxLat minLng maxLng (c : Z * Z) :
  c ∈ getGridCellsForBounds minLat maxLat minLng maxLng ↔
  (Qfloor (minLat / GRID_CELL_SIZE) ≤ c.1 ≤ Qfloor (maxLat / GRID_CELL_SIZE) ∧
   Qfloor (minLng / GRID_CELL_SIZE) ≤ c.2 ≤ Qfloor (maxLng / GRID_CELL_SIZE))%Z.
Proof.
  unfold getGridCellsForBounds. cbv zeta. rewrite list_elem_of_bind. split.
  - intros (lat & (lng & ->%list_elem_of_singleton & Hlng%elem_of_seqZ)%list_elem_of_bind
                & Hlat%elem_of_seqZ). cbn [fst snd]. lia.
  - intros [Hlat Hlng]. exists c.1. split; [|apply elem_of_seqZ; lia].
    apply list_elem_of_bind. exists c.2. split; [|apply elem_of_seqZ; lia].
    destruct c. by apply list_elem_of_singleton.
Qed.

Lemma Qfloor_cell_mono (x y : Q) :
  (x <= y)%Q → (Qfloor (x / GRID_CELL_SIZE) ≤ Qfloor (y / GRID_CELL_SIZE))%Z.
Proof. intros Hle. apply Qfloor_resp_le. rewrite !cell_div. lra. Qed.

Lemma length_bind_const {A B} (l : list A) (f : A → list B) m :
  (∀ x, length (f x) = m) → length (l ≫= f) = length l * m.
Proof.
  intros Hf. induction l as [|x l IH]; [done|].
  rewrite bind_cons, length_app, IH, Hf. simpl. lia.
Qed.

Lemma getGridCellKey_elem minLat maxLat minLng maxLng lat lng :
  (minLat <= lat)%Q → (lat <= maxLat)%Q → (minLng <= lng)%Q → (lng <= maxLng)%Q →
  getGridCellKey lat lng ∈ getGridCellsForBounds minLat maxLat minLng maxLng.
Proof.
  intros H1 H2 H3 H4. apply getGridCellsForBounds_elem. unfold getGridCellKey.
  cbn [fst snd]. split; split; by apply Qfloor_cell_mono.
Qed.

(** X9. The cells listed for a box are pairwise distinct, there are
    rows times columns of them, and every point of the box lies in one of
    them: the cell that [getGridCellKey] gives for the point. *)
Theorem getGridCellsForBounds_covers (minLat maxLat minLng maxLng lat lng : Q) :
  let cells := getGridCellsForBounds minLat maxLat minLng maxLng in
  NoDup cells ∧
  length cells =
    Z.to_nat (Qfloor (maxLat / GRID_CELL_SIZE) - Qfloor (minLat / GRID_CELL_SIZE) + 1) *
    Z.to_nat (Qfloor (maxLng / GRID_CELL_SIZE) - Qfloor (minLng / GRID_CELL_SIZE) + 1) ∧
  ((minLat <= lat)%Q → (lat <= maxLat)%Q → (minLng <= lng)%Q → (lng <= maxLng)%Q →
   getGridCellKey lat lng ∈ cells).
Proof.
  intros cells. split_and!.
  - unfold cells, getGridCellsForBounds. cbv zeta. apply NoDup_bind.
    + intros lat1 lat2 c _ _
        (lng1 & ->%list_elem_of_singleton & _)%list_elem_of_bind
        (lng2 & [= -> _]%list_elem_of_singleton & _)%list_elem_of_bind. done.
    + intros lat1 _. apply NoDup_bind.
      * intros lng1 lng2 c _ _ ->%list_elem_of_singleton [= ->]%list_elem_of_singleton. done.
      * intros; apply NoDup_singleton.
      * apply NoDup_seqZ.
    + apply NoDup_seqZ.
  - unfold cells, getGridCellsForBounds. cbv zeta.
    rewrite (length_bind_const _ _
               (Z.to_nat (Qfloor (maxLng / GRID_CELL_SIZE) -
                          Qfloor (minLng / GRID_CELL_SIZE) + 1))).
    + by rewrite length_seqZ.
    + intros lat1. rewrite (length_bind_const _ _ 1) by done. rewrite length_seqZ. lia.
  - apply getGridCellKey_elem.
Qed.

Lemma getGridCellsForBounds_covers_witness :
  let cells := getGridCellsForBounds 0 (25#1000) 0 (15#1000) in
  NoDup cells ∧ length cells = 3 * 2 ∧ getGridCellKey (12#1000) (7#1000) ∈ cells.
Proof.
  intros cells.
  destruct (getGridCellsForBounds_covers 0 (25#1000) 0 (15#1000) (12#1000) (7#1000))
    as (Hnd & Hlen & Hin).
  split; [exact Hnd|]. split; [exact Hlen|].
  apply Hin; vm_compute; discriminate.
Defined.

(** ** The cell query and the cell key *)

Lemma gteLt_cell (k : Z) (v : option Q) :
  gteLt (inject_Z k * GRID_CELL_SIZE) (inject_Z k * GRID_CELL_SIZE + GRID_CELL_SIZE) v = true ↔
  ∃ x, v = Some x ∧ Qfloor (x / GRID_CELL_SIZE) = k.
Proof.
  destruct v as [x|]; unfold gteLt.
  - rewrite andb_true_iff, Qle_bool_iff, Qltb_true, <- Qfloor_cell. split.
    + intros Hx. by exists x.
    + intros (y & [= <-] & Hy). done.
  - split; [done|]. by intros (x & ? & _).
Qed.

Lemma elem_of_cellRows issues includeResolved (cell : Z * Z) i :
  i ∈ cellRows issues includeResolved cell ↔
  i ∈ issues ∧ statusClause includeResolved i = true ∧
  ∃ lat lng, Issue.latitude i = Some lat ∧ Issue.longitude i = Some lng ∧
             getGridCellKey lat lng = cell.
Proof.
  unfold cellRows. cbv zeta. rewrite list_elem_of_filter, !andb_true_iff, !gteLt_cell.
  unfold getGridCellKey. destruct cell as [a b]. cbn [fst snd]. split.
  - intros [[[(lat & Hlat & Ha) (lng & Hlng & Hb)] Hst] Hin].
    split_and!; try done. exists lat, lng. by rewrite Ha, Hb.
  - intros (Hin & Hst & lat & lng & Hlat & Hlng & [= Ha Hb]). split; [|done].
    split; [split|done]; eauto.
Qed.


(** ** The three loops of [getIssuesInBounds] *)

Lemma foldM_cons {A B} (f : A → B → M A) a b l w :
  foldM f a (b :: l) w = foldM f (f a b w).1 l (f a b w).2.
Proof. simpl. unfold mbind, M_bind, bind. by destruct (f a b w). Qed.

Lemma elem_of_setAdd s x y : y ∈ setAdd s x ↔ y ∈ s ∨ y = x.
Proof.
  unfold setAdd. case_decide as Hx.
  - split; [by left|]. intros [?| ->]; done.
  - rewrite elem_of_app, list_elem_of_singleton. done.
Qed.

Lemma NoDup_setAdd s x : NoDup s → NoDup (setAdd s x).
Proof.
  intros Hnd. unfold setAdd. case_decide as Hx; [done|].
  apply NoDup_app. split_and!; [done| |apply NoDup_singleton].
  intros y Hy ->%list_elem_of_singleton. done.
Qed.

Lemma elem_of_foldl_setAdd s l y : y ∈ foldl setAdd s l ↔ y ∈ s ∨ y ∈ l.
Proof.
  revert s. induction l as [|x l IH]; intros s; simpl.
  - split; [by left|]. by intros [?|?%elem_of_nil].
  - rewrite IH, elem_of_setAdd, elem_of_cons. naive_solver.
Qed.

Lemma NoDup_foldl_setAdd s l : NoDup s → NoDup (foldl setAdd s l).
Proof.
  revert s. induction l as [|x l IH]; intros s Hnd; simpl; [done|].
  by apply IH, NoDup_setAdd.
Qed.

Lemma NoDup_fmap_eq {A B} (f : A → B) (l : list A) x y :
  NoDup (f <$> l) → x ∈ l → y ∈ l → f x = f y → x = y.
Proof.
  induction l as [|z l IH]; [by intros _ ?%elem_of_nil|].
  rewrite fmap_cons, NoDup_cons. intros [Hz Hnd].
  intros [->|Hx]%elem_of_cons [->|Hy]%elem_of_cons Heq; [done| | |by apply IH].
  - destruct Hz. rewrite Heq. by apply list_elem_of_fmap_2.
  - destruct Hz. rewrite <- Heq. by apply list_elem_of_fmap_2.
Qed.

Lemma world_eta w : mkWorld (gridCells w) (summaries w) (trace w) = w.
Proof. by destruct w. Qed.

Section CacheLoops.

Variable issues : list Issue.t.
Variable includeResolved : bool.

Lemma checkCell_run acc cell w :
  checkCell acc cell w =
  (match gridCells w !! cell with
   | Some ids => (foldl setAdd acc.1 ids, acc.2)
   | None => (acc.1, acc.2 ++ [cell])
   end,
   mkWorld (gridCells w) (summaries w) (trace w ++ [RedisGet (GridKey cell.1 cell.2)])).
Proof.
  unfold checkCell, getCachedGridCell, mbind, M_bind, bind, emit, modify, gets. simpl.
  by destruct (gridCells w !! cell).
Qed.

(** First loop: the cache is only read. *)
Lemma checkCells_run cells acc w r w' :
  foldM checkCell acc cells w = (r, w') →
  gridCells w' = gridCells w ∧ summaries w' = summaries w ∧
  trace w' = trace w ++ ((λ c, RedisGet (GridKey c.1 c.2)) <$> cells) ∧
  (∀ id, id ∈ r.1 ↔
         id ∈ acc.1 ∨ ∃ cell ids, cell ∈ cells ∧ gridCells w !! cell = Some ids ∧ id ∈ ids) ∧
  (NoDup acc.1 → NoDup r.1) ∧
  (∀ c, c ∈ r.2 ↔ c ∈ acc.2 ∨ (c ∈ cells ∧ gridCells w !! c = None)).
Proof.
  revert acc w. induction cells as [|cell cells IH]; intros acc w.
  - intros [= <- <-]. rewrite app_nil_r. split_and!; try done.
    + intros id. split; [by left|]. by intros [?|(? & ? & ?%elem_of_nil & _)].
    + intros c. split; [by left|]. by intros [?|[?%elem_of_nil _]].
  - rewrite foldM_cons, checkCell_run. cbn [fst snd]. intros Hrun.
    apply IH in Hrun as (Hg & Hs & Ht & Hids & Hnd & Hunc). clear IH.
    cbn [gridCells summaries trace] in *.
    split_and!; try done.
    + rewrite Ht, fmap_cons, <- app_assoc. done.
    + intros id. rewrite Hids. destruct (gridCells w !! cell) as [ids|] eqn:Hcell; cbn [fst].
      * rewrite elem_of_foldl_setAdd. split.
        -- intros [[?|?]|(c & l & Hc & Hl & Hid)]; [by left|right|right].
           ++ exists cell, ids. split_and!; [left|done|done].
           ++ exists c, l. split_and!; [by right|done|done].
        -- intros [?|(c & l & [->|Hc]%elem_of_cons & Hl & Hid)]; [by left; left| |].
           ++ left; right. congruence.
           ++ right. by exists c, l.
      * split.
        -- intros [?|(c & l & Hc & Hl & Hid)]; [by left|right].
           exists c, l. split_and!; [by right|done|done].
        -- intros [?|(c & l & [->|Hc]%elem_of_cons & Hl & Hid)]; [by left|congruence|].
           right. by exists c, l.
    + intros Hacc. apply Hnd. destruct (gridCells w !! cell); cbn [fst]; [|done].
      by apply NoDup_foldl_setAdd.
    + intros c. rewrite Hunc. destruct (gridCells w !! cell) as [ids|] eqn:Hcell; cbn [snd].
      * split.
        -- intros [?|[Hc Hn]]; [by left|right]. split; [by right|done].
        -- intros [?|[[->|Hc]%elem_of_cons Hn]]; [by left|congruence|by right].
      * rewrite elem_of_app, list_elem_of_singleton. split.
        -- intros [[?| ->]|[Hc Hn]]; [by left|right|right].
           ++ split; [left|done].
           ++ split; [by right|done].
        -- intros [?|[[->|Hc]%elem_of_cons Hn]]; [by left; left|by left; right|by right].
Qed.

Lemma cacheSummaries_run rows ids w :
  foldM (λ ids issue, cacheIssueSummary (toSummary issue) ;; ret (setAdd ids (Issue.id issue)))
        ids rows w =
  (foldl setAdd ids (Issue.id <$> rows),
   mkWorld (gridCells w)
           (foldl (λ m i, <[Issue.id i := toSummary i]> m) (summaries w) rows)
           (trace w ++ ((λ i, RedisSetex (SummaryKey (Issue.id i)) ISSUE_SUMMARY_TTL)
                          <$> rows))).
Proof.
  revert ids w. induction rows as [|i rows IH]; intros ids w.
  - simpl. rewrite app_nil_r. by rewrite world_eta.
  - rewrite foldM_cons. rewrite IH. simpl. by rewrite <- app_assoc.
Qed.

Lemma fillCell_run ids cell w :
  let rows := cellRows issues includeResolved cell in
  fillCell issues includeResolved ids cell w =
  (foldl setAdd ids (Issue.id <$> rows),
   mkWorld (<[cell := Issue.id <$> rows]> (gridCells w))
           (foldl (λ m i, <[Issue.id i := toSummary i]> m) (summaries w) rows)
           (trace w ++
            [IssueFindManyCell (inject_Z cell.1 * GRID_CELL_SIZE)
                               (inject_Z cell.2 * GRID_CELL_SIZE) includeResolved;
             RedisSetex (GridKey cell.1 cell.2) CACHE_TTL] ++
            ((λ i, RedisSetex (SummaryKey (Issue.id i)) ISSUE_SUMMARY_TTL) <$> rows))).
Proof.
  intros rows. unfold fillCell. set (inner := foldM _).
  cbv beta iota zeta delta [mbind M_bind bind emit modify mret M_ret ret findManyCell
                            cacheGridCell gridCells summaries trace].
  fold rows. subst inner. rewrite cacheSummaries_run. cbn [gridCells summaries trace].
  by rewrite <- !app_assoc.
Qed.


Lemma lookup_foldl_summaries rows (m : gmap Z IssueSummary.t) k s :
  foldl (λ m i, <[Issue.id i := toSummary i]> m) m rows !! k = Some s →
  (∃ i, i ∈ rows ∧ Issue.id i = k ∧ s = toSummary i) ∨ m !! k = Some s.
Proof.
  induction rows as [|i rows IH] using rev_ind; [by right|].
  rewrite foldl_snoc, lookup_insert_Some. intros [[<- <-]|[_ [(i' & Hi' & ?)|?]%IH]].
  - left. exists i. split; [set_solver|done].
  - left. exists i'. split; [set_solver|done].
  - by right.
Qed.

Lemma fillCell_faithful cell w :
  let rows := cellRows issues includeResolved cell in
  cacheFaithful issues includeResolved w →
  cacheFaithful issues includeResolved
    (mkWorld (<[cell := Issue.id <$> rows]> (gridCells w))
             (foldl (λ m i, <[Issue.id i := toSummary i]> m) (summaries w) rows)
             (trace w)).
Proof.
  intros rows [Hcells Hsums]. split; cbn [gridCells summaries].
  - intros c ids. rewrite lookup_insert_Some. intros [[<- <-]|[_ Hc]]; [done|by apply Hcells].
  - intros id s [(i & Hi & Hid & ->)|Hs]%lookup_foldl_summaries; [|by apply Hsums].
    exists i. split; [|done]. unfold rows, cellRows in Hi.
    by apply list_elem_of_filter in Hi as [_ ?].
Qed.

Lemma foldl_summaries_is_Some rows (m : gmap Z IssueSummary.t) k :
  is_Some (m !! k) →
  is_Some (foldl (λ m i, <[Issue.id i := toSummary i]> m) m rows !! k).
Proof.
  revert m. induction rows as [|i rows IH]; intros m Hk; [done|]. simpl.
  apply IH. rewrite lookup_insert_is_Some'. by right.
Qed.

(** Second loop: the uncached cells are fetched and cached. *)
Lemma fillCells_run unc ids w r w' :
  foldM (fillCell issues includeResolved) ids unc w = (r, w') →
  cacheFaithful issues includeResolved w →
  cacheFaithful issues includeResolved w' ∧
  (∀ id, id ∈ r ↔
         id ∈ ids ∨ ∃ c, c ∈ unc ∧ id ∈ Issue.id <$> cellRows issues includeResolved c) ∧
  (NoDup ids → NoDup r) ∧
  (∀ c, c ∈ unc ∨ is_Some (gridCells w !! c) → is_Some (gridCells w' !! c)) ∧
  (∀ id, is_Some (summaries w !! id) → is_Some (summaries w' !! id)).
Proof.
  revert ids w. induction unc as [|cell unc IH]; intros ids w.
  - intros [= <- <-] Hw. split_and!; try done.
    + intros id. split; [by left|]. by intros [?|(? & ?%elem_of_nil & _)].
    + by intros c [?%elem_of_nil|?].
  - rewrite foldM_cons, fillCell_run. cbn [fst snd]. cbv zeta. intros Hrun Hw.
    apply IH in Hrun as (Hw' & Hids & Hnd & Hcells & Hsums).
    + cbn [gridCells summaries] in Hcells, Hsums. split_and!; [done| | | |].
      * intros id. rewrite Hids, elem_of_foldl_setAdd. split.
        -- intros [[?|?]|(c & Hc & Hid)]; [by left|right|right].
           ++ exists cell. split; [left|done].
           ++ exists c. split; [by right|done].
        -- intros [?|(c & [->|Hc]%elem_of_cons & Hid)]; [by left; left|by left; right|].
           right. by exists c.
      * intros Hnd0. by apply Hnd, NoDup_foldl_setAdd.
      * intros c Hc. apply Hcells. rewrite lookup_insert_is_Some'.
        destruct Hc as [[->|Hc]%elem_of_cons|Hc]; auto.
      * intros id Hid. by apply Hsums, foldl_summaries_is_Some.
    + destruct (fillCell_faithful cell w Hw) as [Hc Hs]. by split.
Qed.

Lemma fillCells_trace (P : Event → Prop) unc ids w r w' :
  foldM (fillCell issues includeResolved) ids unc w = (r, w') →
  (∀ c, c ∈ unc →
        P (IssueFindManyCell (inject_Z c.1 * GRID_CELL_SIZE)
                             (inject_Z c.2 * GRID_CELL_SIZE) includeResolved) ∧
        P (RedisSetex (GridKey c.1 c.2) CACHE_TTL)) →
  (∀ id, P (RedisSetex (SummaryKey id) ISSUE_SUMMARY_TTL)) →
  ∃ evs, trace w' = trace w ++ evs ∧ Forall P evs.
Proof.
  intros Hrun Hcell Hsum. revert ids w Hrun.
  induction unc as [|cell unc IH]; intros ids w.
  - intros [= <- <-]. exists []. by rewrite app_nil_r.
  - rewrite foldM_cons, fillCell_run. cbn [fst snd]. cbv zeta. intros Hrun.
    apply IH in Hrun as (evs & Ht & Hevs); [|intros c Hc; apply Hcell; by right].
    cbn [trace] in Ht. rewrite <- app_assoc in Ht. eexists. split; [exact Ht|].
    apply Forall_app. split; [|done].
    destruct (Hcell cell) as [Hq Hs]; [left|].
    apply Forall_app. split; [by repeat constructor|].
    apply Forall_fmap, Forall_forall. intros i _. apply Hsum.
Qed.

Lemma collectSummary_run minLat maxLat minLng maxLng results id w :
  collectSummary issues minLat maxLat minLng maxLng includeResolved results id w =
  let row := head (filter (λ i, Issue.id i = id) issues) in
  let found := match summaries w !! id with
               | Some s => Some s
               | None => toSummary <$> row
               end in
  (match found with
   | Some s => if keptSummary minLat maxLat minLng maxLng includeResolved s
               then results ++ [s] else results
   | None => results
   end,
   mkWorld (gridCells w)
           (match summaries w !! id, row with
            | None, Some i => <[Issue.id i := toSummary i]> (summaries w)
            | _, _ => summaries w
            end)
           (trace w ++ RedisGet (SummaryKey id) ::
              match summaries w !! id with
              | Some _ => []
              | None => IssueFindUnique id ::
                        match row with
                        | Some i => [RedisSetex (SummaryKey (Issue.id i)) ISSUE_SUMMARY_TTL]
                        | None => []
                        end
              end)).
Proof.
  unfold collectSummary, getCachedIssueSummary, findUnique, cacheIssueSummary, keptSummary.
  destruct w as [cells sums events].
  cbv beta iota zeta delta [mbind M_bind bind emit modify gets mret M_ret ret
                            gridCells summaries trace].
  destruct (sums !! id) as [s|].
  - destruct (negb includeResolved && String.eqb (IssueSummary.status s) RESOLVED);
      [done|]. by destruct (inBounds _ _ _ _ s).
  - destruct (head _) as [i|]; cbn [fmap option_fmap option_map].
    + rewrite <- !app_assoc.
      destruct (negb includeResolved &&
                String.eqb (IssueSummary.status (toSummary i)) RESOLVED); [done|].
      by destruct (inBounds _ _ _ _ (toSummary i)).
    + by rewrite <- !app_assoc.
Qed.

Lemma head_filter_id id i :
  NoDup (Issue.id <$> issues) → i ∈ issues → Issue.id i = id →
  head (filter (λ i, Issue.id i = id) issues) = Some i.
Proof.
  intros Hnd Hi Hid.
  assert (i ∈ filter (λ i, Issue.id i = id) issues) as Hin by by apply list_elem_of_filter.
  destruct (filter _ issues) as [|i0 l] eqn:Hf; [by apply elem_of_nil in Hin|].
  assert (i0 ∈ filter (λ i, Issue.id i = id) issues) as [Hid0 Hi0]%list_elem_of_filter
    by (rewrite Hf; left).
  simpl. f_equal. eapply NoDup_fmap_eq; [done..|congruence].
Qed.

(** Third loop: one summary per identifier. *)
Lemma collectSummaries_run minLat maxLat minLng maxLng ids results w r w' :
  foldM (collectSummary issues minLat maxLat minLng maxLng includeResolved) results ids w =
    (r, w') →
  NoDup (Issue.id <$> issues) →
  cacheFaithful issues includeResolved w →
  (∀ id, id ∈ ids → ∃ i, i ∈ issues ∧ Issue.id i = id) →
  cacheFaithful issues includeResolved w' ∧
  (∀ s, s ∈ r ↔
        s ∈ results ∨
        ∃ i, i ∈ issues ∧ Issue.id i ∈ ids ∧ s = toSummary i ∧
             keptSummary minLat maxLat minLng maxLng includeResolved s = true) ∧
  (NoDup ids → NoDup results → (∀ s, s ∈ results → IssueSummary.id s ∉ ids) → NoDup r) ∧
  gridCells w' = gridCells w ∧
  (∀ id, id ∈ ids ∨ is_Some (summaries w !! id) → is_Some (summaries w' !! id)).
Proof.
  intros Hrun Hnd. revert results w Hrun.
  induction ids as [|id ids IH]; intros results w.
  - intros [= <- <-] Hw _. split_and!; try done.
    + intros s. split; [by left|]. by intros [?|(? & _ & ?%elem_of_nil & _)].
    + by intros id [?%elem_of_nil|?].
  - rewrite foldM_cons, collectSummary_run. cbv zeta. cbn [fst snd].
    intros Hrun Hw Hrows.
    destruct (Hrows id) as (i & Hi & Hid); [left|].
    rewrite (head_filter_id id i Hnd Hi Hid) in Hrun.
    assert (match summaries w !! id with
            | Some s => Some s
            | None => toSummary <$> Some i
            end = Some (toSummary i)) as Hfound.
    { destruct (summaries w !! id) as [s|] eqn:Hs; [|done].
      destruct Hw as [_ Hsums]. destruct (Hsums id s Hs) as (i' & Hi' & Hid' & ->).
      do 2 f_equal. eapply NoDup_fmap_eq; [done..|congruence]. }
    rewrite Hfound in Hrun.
    apply IH in Hrun as (Hw' & Hres & Hnodup & Hcells & Hsums).
    + cbn [gridCells summaries] in Hcells, Hsums. split_and!; [done| | |done|].
      * intros s. rewrite Hres. split.
        -- intros [Hs|(i' & Hi' & Hid' & -> & Hk)].
           ++ destruct (keptSummary _ _ _ _ _ (toSummary i)) eqn:Hk; [|by left].
              apply elem_of_app in Hs as [?| ->%list_elem_of_singleton]; [by left|].
              right. exists i. split_and!; [done|rewrite Hid; left|done|done].
           ++ right. exists i'. split_and!; [done|by right|done|done].
        -- intros [?|(i' & Hi' & [Hid'|Hid']%elem_of_cons & -> & Hk)].
           ++ left. destruct (keptSummary _ _ _ _ _ (toSummary i)); [set_solver|done].
           ++ left. assert (i' = i) as -> by (eapply NoDup_fmap_eq; [done..|congruence]).
              rewrite Hk. set_solver.
           ++ right. by exists i'.
      * intros [Hid' Hnd']%NoDup_cons Hnr Hfresh. apply Hnodup; [done| |].
        -- destruct (keptSummary _ _ _ _ _ (toSummary i)); [|done].
           apply NoDup_app. split_and!; [done| |apply NoDup_singleton].
           intros s Hs ->%list_elem_of_singleton. apply (Hfresh _ Hs). simpl. rewrite Hid. left.
        -- intros s Hs Hin.
           destruct (keptSummary _ _ _ _ _ (toSummary i)).
           ++ apply elem_of_app in Hs as [Hs| ->%list_elem_of_singleton].
              ** apply (Hfresh _ Hs). by right.
              ** simpl in Hin. by rewrite Hid in Hin.
           ++ apply (Hfresh _ Hs). by right.
      * intros id' Hid'. apply Hsums.
        destruct (summaries w !! id) as [s0|] eqn:Hs.
        -- destruct Hid' as [[->|?]%elem_of_cons|?]; [right; by rewrite Hs|by left|by right].
        -- rewrite lookup_insert_is_Some'.
           destruct Hid' as [[->|?]%elem_of_cons|?]; [right; left; done|by left|by right; right].
    + destruct Hw as [Hcells Hsums]. split; cbn [gridCells summaries]; [done|].
      intros id' s. destruct (summaries w !! id) eqn:Hs; [by apply Hsums|].
      rewrite lookup_insert_Some. intros [[<- <-]|[_ ?]]; [by exists i|by apply Hsums].
    + intros id' Hid'. apply Hrows. by right.
Qed.

Lemma collectSummaries_trace (P : Event → Prop) minLat maxLat minLng maxLng ids results
    w r w' :
  foldM (collectSummary issues minLat maxLat minLng maxLng includeResolved) results ids w =
    (r, w') →
  (∀ id, P (RedisGet (SummaryKey id)) ∧ P (IssueFindUnique id) ∧
         P (RedisSetex (SummaryKey id) ISSUE_SUMMARY_TTL)) →
  ∃ evs, trace w' = trace w ++ evs ∧ Forall P evs.
Proof.
  intros Hrun HP. revert results w Hrun.
  induction ids as [|id ids IH]; intros results w.
  - intros [= <- <-]. exists []. by rewrite app_nil_r.
  - rewrite foldM_cons, collectSummary_run. cbv zeta. cbn [fst snd]. intros Hrun.
    apply IH in Hrun as (evs & Ht & Hevs).
    cbn [trace] in Ht. rewrite <- app_assoc in Ht. eexists. split; [exact Ht|].
    apply Forall_app. split; [|done].
    destruct (HP id) as (Hget & Huniq & _).
    destruct (summaries w !! id); [by repeat constructor|].
    destruct (head _) as [i|]; [|by repeat constructor].
    destruct (HP (Issue.id i)) as (_ & _ & Hset). by repeat constructor.
Qed.

(** Third loop when every summary is cached: only reads of the cache. *)
Lemma collectSummaries_warm minLat maxLat minLng maxLng ids results w r w' :
  foldM (collectSummary issues minLat maxLat minLng maxLng includeResolved) results ids w =
    (r, w') →
  (∀ id, id ∈ ids → is_Some (summaries w !! id)) →
  gridCells w' = gridCells w ∧ summaries w' = summaries w ∧
  trace w' = trace w ++ ((λ id, RedisGet (SummaryKey id)) <$> ids).
Proof.
  revert results w. induction ids as [|id ids IH]; intros results w.
  - intros [= <- <-] _. by rewrite app_nil_r.
  - rewrite foldM_cons, collectSummary_run. cbv zeta. cbn [fst snd]. intros Hrun Hall.
    destruct (Hall id) as [s Hs]; [left|]. rewrite Hs in Hrun.
    apply IH in Hrun as (Hg & Hsum & Ht).
    + cbn [gridCells summaries trace] in *. split_and!; [done|done|].
      by rewrite Ht, fmap_cons, <- app_assoc.
    + intros id' Hid'. cbn [summaries]. apply Hall. by right.
Qed.

End CacheLoops.

(** ** [getIssuesInBounds] on a cache that agrees with the table *)

Lemma statusClause_kept includeResolved i :
  statusClause includeResolved i = true ↔
  negb (negb includeResolved && String.eqb (IssueSummary.status (toSummary i)) RESOLVED) = true.
Proof.
  unfold statusClause. simpl.
  destruct includeResolved, (String.eqb (Issue.status i) RESOLVED); simpl; naive_solver.
Qed.

Lemma inBounds_toSummary minLat maxLat minLng maxLng i lat lng :
  Issue.latitude i = Some lat → Issue.longitude i = Some lng →
  inBounds minLat maxLat minLng maxLng (toSummary i) =
  gteLte minLat maxLat (Issue.latitude i) && gteLte minLng maxLng (Issue.longitude i).
Proof.
  intros Hlat Hlng. unfold inBounds, gteLte, toSummary. rewrite Hlat, Hlng. simpl.
  by rewrite !andb_assoc.
Qed.

Lemma gteLte_Some lo hi v :
  gteLte lo hi v = true ↔ ∃ x, v = Some x ∧ (lo <= x)%Q ∧ (x <= hi)%Q.
Proof.
  destruct v as [x|]; simpl.
  - rewrite andb_true_iff, !Qle_bool_iff. split; [by exists x|]. by intros (? & [= <-] & ?).
  - split; [done|]. by intros (? & ? & _).
Qed.

Lemma elem_of_boxRows issues minLat maxLat minLng maxLng includeResolved i :
  i ∈ boxRows issues minLat maxLat minLng maxLng includeResolved ↔
  i ∈ issues ∧ gteLte minLat maxLat (Issue.latitude i) = true ∧
  gteLte minLng maxLng (Issue.longitude i) = true ∧ statusClause includeResolved i = true.
Proof.
  unfold boxRows. rewrite list_elem_of_filter, !andb_true_iff. naive_solver.
Qed.

Section CachedCall.

Variable issues : list Issue.t.
Variable includeResolved : bool.
Variables minLat maxLat minLng maxLng : Q.

Local Abbreviation cells := (getGridCellsForBounds minLat maxLat minLng maxLng).

Lemma getIssuesInBounds_cached w :
  length cells ≤ 100 →
  getIssuesInBounds issues minLat maxLat minLng maxLng includeResolved w =
  let r1 := foldM checkCell ([], []) cells w in
  let r2 := foldM (fillCell issues includeResolved) r1.1.1 r1.1.2 r1.2 in
  foldM (collectSummary issues minLat maxLat minLng maxLng includeResolved) [] r2.1 r2.2.
Proof.
  intros Hlen. unfold getIssuesInBounds. rewrite decide_False by lia.
  cbv zeta. unfold mbind at 1 2, M_bind, bind.
  destruct (foldM checkCell _ _ w) as [[ids unc] w1]. cbn [fst snd].
  destruct unc as [|c unc]; [done|]. rewrite decide_True by (simpl; lia).
  by destruct (foldM _ _ _ w1).
Qed.

(** What a cached call returns and leaves behind, on a cache that
    agrees with the table. *)
Lemma getIssuesInBounds_run w r w' :
  NoDup (Issue.id <$> issues) →
  cacheFaithful issues includeResolved w →
  length cells ≤ 100 →
  getIssuesInBounds issues minLat maxLat minLng maxLng includeResolved w = (r, w') →
  (∀ s, s ∈ r ↔
        ∃ i, i ∈ boxRows issues minLat maxLat minLng maxLng includeResolved ∧
             s = toSummary i) ∧
  NoDup r ∧
  cacheFaithful issues includeResolved w' ∧
  (∀ c, c ∈ cells →
        ∃ ids, gridCells w' !! c = Some ids ∧ ∀ id, id ∈ ids → is_Some (summaries w' !! id)).
Proof.
  intros Hnd Hw Hlen. rewrite (getIssuesInBounds_cached w Hlen). cbv zeta.
  destruct (foldM checkCell _ _ w) as [[ids1 unc] w1] eqn:Hrun1. cbn [fst snd].
  destruct (foldM (fillCell _ _) _ _ w1) as [ids2 w2] eqn:Hrun2. cbn [fst snd].
  intros Hrun3.
  apply checkCells_run in Hrun1 as (Hg1 & Hs1 & Ht1 & Hids1 & Hnd1 & Hunc).
  cbn [fst snd] in *.
  assert (cacheFaithful issues includeResolved w1) as Hw1.
  { destruct Hw as [Hc Hs]. split; [by rewrite Hg1|by rewrite Hs1]. }
  assert (∀ c, c ∈ unc ↔ c ∈ cells ∧ gridCells w !! c = None) as Hunc'.
  { intros c. rewrite Hunc. split; [by intros [?%elem_of_nil|?]|by right]. }
  apply (fillCells_run issues includeResolved)
    in Hrun2 as (Hw2 & Hids2 & Hnd2 & Hcells2 & _); [|done].
  assert (∀ id, id ∈ ids2 ↔
                ∃ c i, c ∈ cells ∧ i ∈ cellRows issues includeResolved c ∧ Issue.id i = id)
    as Hids.
  { intros id. rewrite Hids2, Hids1. split.
    - intros [[?%elem_of_nil|(c & ids & Hc & Hcached & Hid)]|(c & [Hc _]%Hunc' & Hid)]; [done| |].
      + destruct Hw as [Hcells _]. rewrite (Hcells c ids Hcached) in Hid.
        apply list_elem_of_fmap in Hid as (i & -> & Hi). by exists c, i.
      + apply list_elem_of_fmap in Hid as (i & -> & Hi). by exists c, i.
    - intros (c & i & Hc & Hi & <-).
      destruct (gridCells w !! c) as [ids|] eqn:Hcached.
      + left; right. exists c, ids. split_and!; [done..|].
        destruct Hw as [Hcells _]. rewrite (Hcells c ids Hcached).
        by apply list_elem_of_fmap_2.
      + right. exists c. split; [by apply Hunc'|by apply list_elem_of_fmap_2]. }
  apply (collectSummaries_run issues includeResolved)
    in Hrun3 as (Hw3 & Hres & Hnd3 & Hg3 & Hsums3); [|done|done|].
  2:{ intros id (c & i & _ & [_ Hi]%list_elem_of_filter & Hid)%Hids. by exists i. }
  split_and!; [|apply Hnd3; [by apply Hnd2, Hnd1, NoDup_nil_2|apply NoDup_nil_2|]|done|].
  - intros s. rewrite Hres. split.
    + intros [?%elem_of_nil|(i & Hi & (c & i' & Hc & Hi' & Hid)%Hids & -> & Hkept)]; [done|].
      assert (i' = i) as ->.
      { apply list_elem_of_filter in Hi' as [_ Hi'']. eapply NoDup_fmap_eq; done. }
      apply elem_of_cellRows in Hi' as (_ & Hst & lat & lng & Hlat & Hlng & _).
      exists i. split; [|done]. apply elem_of_boxRows.
      unfold keptSummary in Hkept. apply andb_true_iff in Hkept as [_ Hin].
      rewrite (inBounds_toSummary _ _ _ _ i lat lng Hlat Hlng) in Hin.
      apply andb_true_iff in Hin as [? ?]. done.
    + intros (i & (Hi & Hlat & Hlng & Hst)%elem_of_boxRows & ->). right.
      pose proof Hlat as (lat & Hlat' & Hlat1 & Hlat2)%gteLte_Some.
      pose proof Hlng as (lng & Hlng' & Hlng1 & Hlng2)%gteLte_Some.
      exists i. split_and!; [done| |done|].
      * apply Hids. exists (getGridCellKey lat lng), i. split_and!; [|
          apply elem_of_cellRows; split_and!; [done|done|by exists lat, lng] |done].
        by apply getGridCellKey_elem.
      * unfold keptSummary. apply andb_true_iff. split; [by apply statusClause_kept|].
        rewrite (inBounds_toSummary _ _ _ _ i lat lng Hlat' Hlng'). by rewrite Hlat, Hlng.
  - intros s. by intros ?%elem_of_nil.
  - intros c Hc. destruct (Hcells2 c) as [ids Hcached].
    { destruct (gridCells w !! c) eqn:Hcw; [right; rewrite Hg1, Hcw; eauto|].
      left. by apply Hunc'. }
    exists ids. rewrite Hg3. split; [done|]. intros id Hid. apply Hsums3. left.
    apply Hids. destruct Hw2 as [Hcells _]. rewrite (Hcells c ids Hcached) in Hid.
    apply list_elem_of_fmap in Hid as (i & -> & Hi). by exists c, i.
Qed.

(** What a cached call may do. *)
Lemma getIssuesInBounds_trace w r w' :
  length cells ≤ 100 →
  getIssuesInBounds issues minLat maxLat minLng maxLng includeResolved w = (r, w') →
  ∃ evs, trace w' = trace w ++ evs ∧ Forall (cachedCallEvent cells includeResolved w) evs.
Proof.
  intros Hlen. rewrite (getIssuesInBounds_cached w Hlen). cbv zeta.
  destruct (foldM checkCell _ _ w) as [[ids1 unc] w1] eqn:Hrun1. cbn [fst snd].
  destruct (foldM (fillCell _ _) _ _ w1) as [ids2 w2] eqn:Hrun2. cbn [fst snd].
  intros Hrun3.
  apply checkCells_run in Hrun1 as (_ & _ & Ht1 & _ & _ & Hunc). cbn [fst snd] in *.
  apply (fillCells_trace issues includeResolved (cachedCallEvent cells includeResolved w))
    in Hrun2 as (evs2 & Ht2 & Hevs2); [| |done].
  2:{ intros c [?%elem_of_nil|[Hc Hnone]]%Hunc; [done|]. destruct c as [a b].
      split; simpl; [|done]. split; [done|]. by exists (a, b). }
  apply (collectSummaries_trace issues includeResolved
           (cachedCallEvent cells includeResolved w))
    in Hrun3 as (evs3 & Ht3 & Hevs3); [|done].
  rewrite Ht3, Ht2, Ht1, <- !app_assoc. eexists. split; [done|].
  rewrite !Forall_app. split_and!; [|done|done].
  apply Forall_fmap, Forall_forall. intros [a b] Hc. done.
Qed.

(** A call that finds every cell and every listed summary in the cache. *)
Lemma getIssuesInBounds_hit w r w' :
  length cells ≤ 100 →
  (∀ c, c ∈ cells →
        ∃ ids, gridCells w !! c = Some ids ∧ ∀ id, id ∈ ids → is_Some (summaries w !! id)) →
  getIssuesInBounds issues minLat maxLat minLng maxLng includeResolved w = (r, w') →
  gridCells w' = gridCells w ∧ summaries w' = summaries w ∧
  ∃ evs, trace w' = trace w ++ evs ∧ Forall (λ e, ∃ key, e = RedisGet key) evs.
Proof.
  intros Hlen Hwarm. rewrite (getIssuesInBounds_cached w Hlen). cbv zeta.
  destruct (foldM checkCell _ _ w) as [[ids1 unc] w1] eqn:Hrun1. cbn [fst snd].
  apply checkCells_run in Hrun1 as (Hg1 & Hs1 & Ht1 & Hids1 & _ & Hunc).
  cbn [fst snd] in *.
  assert (unc = []) as ->.
  { destruct unc as [|c unc]; [done|].
    destruct (proj1 (Hunc c)) as [?%elem_of_nil|[Hc Hnone]]; [left|done|].
    destruct (Hwarm c Hc) as (? & ? & _). congruence. }
  simpl. intros Hrun3.
  apply collectSummaries_warm in Hrun3 as (Hg3 & Hs3 & Ht3).
  - split_and!; [congruence|congruence|].
    rewrite Ht3, Ht1, <- app_assoc. eexists. split; [done|].
    apply Forall_app. split; apply Forall_fmap, Forall_forall; intros; simpl; eauto.
  - intros id [?%elem_of_nil|(c & ids & Hc & Hcached & Hid)]%Hids1; [done|].
    rewrite Hs1. destruct (Hwarm c Hc) as (ids' & Hcached' & Hall).
    apply Hall. congruence.
Qed.

End CachedCall.


Lemma emptyCache_faithful issues includeResolved events :
  cacheFaithful issues includeResolved (mkWorld ∅ ∅ events).
Proof. split; intros ? ?; simpl; by rewrite lookup_empty. Qed.

Lemma coldWorld_faithful issues includeResolved :
  cacheFaithful issues includeResolved coldWorld.
Proof. apply emptyCache_faithful. Qed.


(** X12. A call on a box of at most 100 cells keeps the events
    already in the trace and adds only: reads of the cells of the box and
    of summaries, one cell query with the caller's flag for cells of the
    box that were not cached, writes of such cells with a TTL of 300 s,
    writes of summaries with a TTL of 600 s, and look-ups by
    identifier. It never runs the range query over the whole box and
    never writes a cell outside the box or one that was cached. *)
Theorem getIssuesInBounds_events (issues : list Issue.t)
    (minLat maxLat minLng maxLng : Q) (includeResolved : bool) (w : World) :
  length (getGridCellsForBounds minLat maxLat minLng maxLng) ≤ 100 →
  let run := getIssuesInBounds issues minLat maxLat minLng maxLng includeResolved w in
  ∃ evs, trace run.2 = trace w ++ evs ∧
         Forall (cachedCallEvent (getGridCellsForBounds minLat maxLat minLng maxLng)
                                 includeResolved w) evs.
Proof.
  intros Hlen run. destruct run as [r w'] eqn:Hrun. subst run.
  exact (getIssuesInBounds_trace issues includeResolved _ _ _ _ w r w' Hlen Hrun).
Qed.

Lemma getIssuesInBounds_events_witness :
  let run := getIssuesInBounds [resolvedIssue; openIssue] 0 (9#1000) 0 (9#1000) false
                               coldWorld in
  ∃ evs, trace run.2 = trace coldWorld ++ evs ∧
         Forall (cachedCallEvent (getGridCellsForBounds 0 (9#1000) 0 (9#1000)) false
                                 coldWorld) evs.
Proof.
  apply (getIssuesInBounds_events [resolvedIssue; openIssue] 0 (9#1000) 0 (9#1000) false
           coldWorld).
  vm_compute. lia.
Defined.

(** X13. Asking again for the same box with the same flag (cache in
    agreement with the table before the first call, at most 100 cells,
    unique identifiers): the second call returns the same summaries as
    the first, only reads the cache (no table query, no write), and
    leaves the cache as it found it. *)
Theorem getIssuesInBounds_repeat (issues : list Issue.t)
    (minLat maxLat minLng maxLng : Q) (includeResolved : bool) (w : World) :
  NoDup (Issue.id <$> issues) →
  cacheFaithful issues includeResolved w →
  length (getGridCellsForBounds minLat maxLat minLng maxLng) ≤ 100 →
  let first := getIssuesInBounds issues minLat maxLat minLng maxLng includeResolved w in
  let second :=
    getIssuesInBounds issues minLat maxLat minLng maxLng includeResolved first.2 in
  (∀ s, s ∈ second.1 ↔ s ∈ first.1) ∧
  gridCells second.2 = gridCells first.2 ∧
  summaries second.2 = summaries first.2 ∧
  ∃ evs, trace second.2 = trace first.2 ++ evs ∧
         Forall (λ e, ∃ key, e = RedisGet key) evs.
Proof.
  intros Hnd Hw Hlen first second.
  destruct first as [r1 w1] eqn:Hrun1. subst first.
  destruct second as [r2 w2] eqn:Hrun2. subst second. cbn [fst snd] in *.
  destruct (getIssuesInBounds_run issues includeResolved _ _ _ _ w r1 w1 Hnd Hw Hlen Hrun1)
    as (Hres1 & _ & Hw1 & Hwarm).
  destruct (getIssuesInBounds_run issues includeResolved _ _ _ _ w1 r2 w2 Hnd Hw1 Hlen Hrun2)
    as (Hres2 & _ & _ & _).
  destruct (getIssuesInBounds_hit issues includeResolved _ _ _ _ w1 r2 w2 Hlen Hwarm Hrun2)
    as (Hg & Hs & Ht).
  split_and!; [|done..]. intros s. by rewrite Hres1, Hres2.
Qed.

Lemma getIssuesInBounds_repeat_witness :
  let first := getIssuesInBounds [resolvedIssue; openIssue] 0 (9#1000) 0 (9#1000) false
                                 coldWorld in
  let second := getIssuesInBounds [resolvedIssue; openIssue] 0 (9#1000) 0 (9#1000) false
                                  first.2 in
  (∀ s, s ∈ second.1 ↔ s ∈ first.1) ∧
  gridCells second.2 = gridCells first.2 ∧
  summaries second.2 = summaries first.2 ∧
  ∃ evs, trace second.2 = trace first.2 ++ evs ∧
         Forall (λ e, ∃ key, e = RedisGet key) evs.
Proof.
  apply (getIssuesInBounds_repeat [resolvedIssue; openIssue] 0 (9#1000) 0 (9#1000) false
           coldWorld).
  - match goal with |- ?P => apply (bool_decide_unpack P) end. vm_compute. exact I.
  - apply coldWorld_faithful.
  - vm_compute. lia.
Defined.

(** ** What is returned lies in the box *)

Lemma collectSummaries_kept issues minLat maxLat minLng maxLng includeResolved
    ids results w r w' s :
  foldM (collectSummary issues minLat maxLat minLng maxLng includeResolved) results ids w =
    (r, w') →
  s ∈ r →
  s ∈ results ∨ keptSummary minLat maxLat minLng maxLng includeResolved s = true.
Proof.
  revert results w. induction ids as [|id ids IH]; intros results w.
  - intros [= <- <-]. by left.
  - rewrite foldM_cons, collectSummary_run. cbv zeta. cbn [fst snd]. intros Hrun Hs.
    destruct (IH _ _ Hrun Hs) as [Hin|?]; [|by right].
    destruct (match summaries w !! id with Some _ => _ | None => _ end) as [s0|]; [|by left].
    destruct (keptSummary _ _ _ _ _ s0) eqn:Hk; [|by left].
    apply elem_of_app in Hin as [?| ->%list_elem_of_singleton]; [by left|by right].
Qed.

(** X14. Whatever the cache holds and however large the box, every
    summary that [getIssuesInBounds] returns has its coordinates within
    the requested bounds, and is not resolved unless resolved issues were
    asked for. *)
Theorem getIssuesInBounds_within (issues : list Issue.t)
    (minLat maxLat minLng maxLng : Q) (includeResolved : bool) (w : World)
    (s : IssueSummary.t) :
  s ∈ (getIssuesInBounds issues minLat maxLat minLng maxLng includeResolved w).1 →
  (minLat <= IssueSummary.latitude s)%Q ∧ (IssueSummary.latitude s <= maxLat)%Q ∧
  (minLng <= IssueSummary.longitude s)%Q ∧ (IssueSummary.longitude s <= maxLng)%Q ∧
  (includeResolved = false → IssueSummary.status s ≠ RESOLVED).
Proof.
  assert (keptSummary minLat maxLat minLng maxLng includeResolved s = true →
          (minLat <= IssueSummary.latitude s)%Q ∧ (IssueSummary.latitude s <= maxLat)%Q ∧
          (minLng <= IssueSummary.longitude s)%Q ∧ (IssueSummary.longitude s <= maxLng)%Q ∧
          (includeResolved = false → IssueSummary.status s ≠ RESOLVED)) as Hkept.
  { unfold keptSummary, inBounds.
    rewrite !andb_true_iff, !Qle_bool_iff, negb_true_iff.
    intros [Hst (((? & ?) & ?) & ?)]. split_and!; try done.
    intros -> Heq. apply String.eqb_eq in Heq. simpl in Hst. congruence. }
  destruct (decide (100 < length (getGridCellsForBounds minLat maxLat minLng maxLng)))
    as [Hmany|Hfew].
  - destruct (getIssuesInBounds_bypass issues minLat maxLat minLng maxLng includeResolved
                w Hmany) as (result & -> & _ & ->). cbn [fst].
    intros (i & -> & Hi%subseteq_take)%list_elem_of_fmap.
    apply list_elem_of_filter in Hi as [Hi _]. rewrite !andb_true_iff in Hi.
    destruct Hi as [[(lat & Hlat & ? & ?)%gteLte_Some (lng & Hlng & ? & ?)%gteLte_Some] Hst].
    apply Hkept. unfold keptSummary. apply andb_true_iff.
    split; [by apply statusClause_kept|].
    rewrite (inBounds_toSummary _ _ _ _ i lat lng Hlat Hlng), Hlat, Hlng. simpl.
    rewrite !andb_true_iff, !Qle_bool_iff. done.
  - rewrite getIssuesInBounds_cached by lia. cbv zeta.
    destruct (foldM (collectSummary _ _ _ _ _ _) _ _ _) as [r w'] eqn:Hrun. cbn [fst].
    intros Hs. destruct (collectSummaries_kept _ _ _ _ _ _ _ _ _ _ _ _ Hrun Hs)
      as [?%elem_of_nil|?]; [done|by apply Hkept].
Qed.

Lemma getIssuesInBounds_within_witness :
  let s := toSummary openIssue in
  (0 <= IssueSummary.latitude s)%Q ∧ (IssueSummary.latitude s <= 9#1000)%Q ∧
  (0 <= IssueSummary.longitude s)%Q ∧ (IssueSummary.longitude s <= 9#1000)%Q ∧
  (false = false → IssueSummary.status s ≠ RESOLVED).
Proof.
  intros s.
  apply (getIssuesInBounds_within [resolvedIssue; openIssue] 0 (9#1000) 0 (9#1000) false
           coldWorld s).
  vm_compute. left.
Defined.

(** ** Invalidation *)













(** ** A created issue and the cache *)

Section CacheKeys.

Variable issues : list Issue.t.
Variable includeResolved : bool.



End CacheKeys.



(** ** The import script: what a successful import writes *)

(** X18. The response of the Overpass query is split by element type:
    the ways are kept in response order, and the node map gives for an
    OSM identifier the last node element that carries it. *)
Theorem fetchOSMData_elements (elements : list OSMElement) :
  ∃ nodes ways,
    fetchOSMData (AxiosResponse elements) = Some (nodes, ways) ∧
    ways = omap (λ el, match el with ElementWay w => Some w | ElementNode _ => None end)
                elements ∧
    ∀ k, nodes !! k =
         last (filter (λ n, OSMNode.id n = k)
                      (omap (λ el, match el with
                                   | ElementNode n => Some n
                                   | ElementWay _ => None
                                   end) elements)).
Proof.
  unfold fetchOSMData.
  induction elements as [|el elements (nodes & ways & Hfetch & Hways & Hnodes)] using rev_ind.
  - exists ∅, []. split_and!; [done|done|]. intros k. by rewrite lookup_empty.
  - rewrite foldl_snoc. injection Hfetch as Hfetch. rewrite Hfetch.
    rewrite !omap_app. destruct el as [n|way]; simpl.
    + exists (<[OSMNode.id n := n]> nodes), ways. split_and!; [done|by rewrite app_nil_r|].
      intros k. rewrite filter_app. destruct (decide (OSMNode.id n = k)) as [Heq|Hne].
      * rewrite Heq, lookup_insert_eq, filter_cons_True by done.
        rewrite filter_nil. by rewrite last_snoc.
      * rewrite lookup_insert_ne by done. rewrite filter_cons_False by done.
        rewrite filter_nil, app_nil_r. apply Hnodes.
    + exists nodes, (ways ++ [way]). split_and!; [done|by rewrite Hways|].
      intros k. rewrite app_nil_r. apply Hnodes.
Qed.

Lemma createManyNodes_spec rows table :
  (∀ r, r ∈ createManyNodes table rows → r ∈ table ∨ r ∈ rows) ∧
  (NoDup (GraphNode.id <$> table) → NoDup (GraphNode.id <$> createManyNodes table rows)) ∧
  (NoDup (GraphNode.osmId <$> table) →
   NoDup (GraphNode.osmId <$> createManyNodes table rows)).
Proof.
  unfold createManyNodes. revert table.
  induction rows as [|row rows IH]; intros table; simpl; [by split_and!; auto|].
  destruct (IH (if decide (Exists (λ r, GraphNode.id r = GraphNode.id row ∨
                                        GraphNode.osmId r = GraphNode.osmId row) table)
                then table else table ++ [row])) as (Hin & Hid & Hosm). clear IH.
  case_decide as Hdup.
  - split_and!; [|done|done]. intros r [?|?]%Hin; [by left|right; by right].
  - rewrite Exists_exists in Hdup. split_and!.
    + intros r [[?| ->%list_elem_of_singleton]%elem_of_app|?]%Hin;
        [by left|right; left|right; by right].
    + intros Hnd. apply Hid. rewrite fmap_app. apply NoDup_app.
      split_and!; [done| |apply NoDup_singleton].
      intros x (r & -> & Hr)%list_elem_of_fmap Heq%list_elem_of_singleton.
      apply Hdup. exists r. auto.
    + intros Hnd. apply Hosm. rewrite fmap_app. apply NoDup_app.
      split_and!; [done| |apply NoDup_singleton].
      intros x (r & -> & Hr)%list_elem_of_fmap Heq%list_elem_of_singleton.
      apply Hdup. exists r. auto.
Qed.

Lemma createManyEdges_spec rows table :
  (∀ r, r ∈ createManyEdges table rows → r ∈ table ∨ r ∈ rows) ∧
  (NoDup (GraphEdge.id <$> table) → NoDup (GraphEdge.id <$> createManyEdges table rows)).
Proof.
  unfold createManyEdges. revert table.
  induction rows as [|row rows IH]; intros table; simpl; [by split_and!; auto|].
  destruct (IH (if decide (Exists (λ r, GraphEdge.id r = GraphEdge.id row) table)
                then table else table ++ [row])) as (Hin & Hid). clear IH.
  case_decide as Hdup.
  - split_and!; [|done]. intros r [?|?]%Hin; [by left|right; by right].
  - rewrite Exists_exists in Hdup. split_and!.
    + intros r [[?| ->%list_elem_of_singleton]%elem_of_app|?]%Hin;
        [by left|right; left|right; by right].
    + intros Hnd. apply Hid. rewrite fmap_app. apply NoDup_app.
      split_and!; [done| |apply NoDup_singleton].
      intros x (r & -> & Hr)%list_elem_of_fmap Heq%list_elem_of_singleton.
      apply Hdup. exists r. auto.
Qed.

Lemma lookup_nodeIdMap (l : list GraphNode.t) o u :
  foldl (λ m node, <[GraphNode.osmId node := GraphNode.id node]> m)
        (∅ : gmap Z string) l !! o = Some u →
  ∃ r, r ∈ l ∧ GraphNode.osmId r = o ∧ GraphNode.id r = u.
Proof.
  induction l as [|x l IH] using rev_ind; [done|].
  rewrite foldl_snoc, lookup_insert_Some. intros [[<- <-]|[_ (r & Hr & ?)%IH]].
  - exists x. split; [set_solver|done].
  - exists r. split; [set_solver|done].
Qed.

Section ImportFacts.

Variable calculateDistance : Q → Q → Q → Q → Q.
Variable uuid : nat → string.
Variable osmNodes : gmap Z OSMNode.t.
Variable ways : list OSMWay.t.

Local Abbreviation usedNodeIds :=
  (foldl (λ used way, foldl setAdd used (OSMWay.nodes way)) [] ways).
Local Abbreviation nodesToCreate :=
  (omap (λ osmId, (λ n, (osmId, OSMNode.lat n, OSMNode.lon n)) <$> osmNodes !! osmId)
        usedNodeIds).
Local Abbreviation newNodes :=
  (imap (λ k '(osmId, lat, lon), GraphNode.mk (uuid k) osmId lat lon) nodesToCreate).
Local Abbreviation nodesAfter := (createManyNodes [] newNodes).
Local Abbreviation createdNodes :=
  (filter (λ n, GraphNode.osmId n ∈ nodesToCreate.*1.*1) nodesAfter).
Local Abbreviation nodeIdMap :=
  (foldl (λ m node, <[GraphNode.osmId node := GraphNode.id node]> m)
         (∅ : gmap Z string) createdNodes).
Local Abbreviation edgesToCreate :=
  (ways ≫= edgesOfWay calculateDistance osmNodes nodeIdMap).
Local Abbreviation newEdges :=
  (imap (λ k '(startNodeId, endNodeId, distance),
           GraphEdge.mk (uuid (length newNodes + k)) startNodeId endNodeId
                        distance distance 1)
        edgesToCreate).
Local Abbreviation edgesAfter := (createManyEdges [] newEdges).

Lemma importGraph_stages db elements :
  fetchOSMData (AxiosResponse elements) = Some (osmNodes, ways) →
  importGraph calculateDistance uuid db (AxiosResponse elements) =
  (mkGraphDb nodesAfter edgesAfter, ExitSuccess).
Proof. intros Hfetch. unfold importGraph. rewrite Hfetch. reflexivity. Qed.

(** A node row is made from an OSM node used by some way. *)
Lemma nodesAfter_row r :
  r ∈ nodesAfter →
  ∃ k n, r = GraphNode.mk (uuid k) (GraphNode.osmId r) (OSMNode.lat n) (OSMNode.lon n) ∧
         osmNodes !! GraphNode.osmId r = Some n.
Proof.
  intros [?%elem_of_nil|Hr]%(proj1 (createManyNodes_spec _ _)); [done|].
  apply elem_of_lookup_imap_1 in Hr as (k & [[o lat] lon] & -> & Hk).
  apply list_elem_of_lookup_2 in Hk.
  apply list_elem_of_omap in Hk as (o' & _ & Ho').
  destruct (osmNodes !! o') as [n|] eqn:Hn; [|done]. simpl in Ho'. simplify_eq.
  by exists k, n.
Qed.

Lemma nodesAfter_ids :
  NoDup (GraphNode.id <$> nodesAfter) ∧ NoDup (GraphNode.osmId <$> nodesAfter).
Proof.
  destruct (createManyNodes_spec newNodes []) as (_ & Hid & Hosm).
  split; [apply Hid|apply Hosm]; apply NoDup_nil_2.
Qed.

Lemma nodeIdMap_row o u :
  nodeIdMap !! o = Some u →
  ∃ r, r ∈ nodesAfter ∧ GraphNode.osmId r = o ∧ GraphNode.id r = u.
Proof.
  intros (r & [_ Hr]%list_elem_of_filter & ?)%lookup_nodeIdMap. by exists r.
Qed.

(** An edge row joins the rows made for two consecutive nodes of a way,
    in one direction or the other. *)
Lemma edgesAfter_row e :
  e ∈ edgesAfter →
  ∃ way a b na nb ua ub,
    way ∈ ways ∧ (a, b) ∈ consecutive (OSMWay.nodes way) ∧
    osmNodes !! a = Some na ∧ osmNodes !! b = Some nb ∧
    nodeIdMap !! a = Some ua ∧ nodeIdMap !! b = Some ub ∧ ua ≠ "" ∧ ub ≠ "" ∧
    GraphEdge.penalty e = 1%Q ∧ GraphEdge.baseCost e = GraphEdge.distance e ∧
    GraphEdge.distance e =
      calculateDistance (OSMNode.lat na) (OSMNode.lon na) (OSMNode.lat nb) (OSMNode.lon nb) ∧
    ((GraphEdge.startNodeId e = ua ∧ GraphEdge.endNodeId e = ub) ∨
     (GraphEdge.startNodeId e = ub ∧ GraphEdge.endNodeId e = ua)).
Proof.
  intros [?%elem_of_nil|He]%(proj1 (createManyEdges_spec _ _)); [done|].
  apply elem_of_lookup_imap_1 in He as (k & [[s t] d] & -> & Hk).
  apply list_elem_of_lookup_2 in Hk.
  apply list_elem_of_bind in Hk as (way & Hedge & Hway).
  unfold edgesOfWay in Hedge.
  apply list_elem_of_bind in Hedge as ([a b] & Hedge & Hab).
  destruct (osmNodes !! a) as [na|] eqn:Hna; [|by apply elem_of_nil in Hedge].
  destruct (osmNodes !! b) as [nb|] eqn:Hnb; [|by apply elem_of_nil in Hedge].
  destruct (nodeIdMap !! a) as [ua|] eqn:Hua; [|by apply elem_of_nil in Hedge].
  destruct (nodeIdMap !! b) as [ub|] eqn:Hub; [|by apply elem_of_nil in Hedge].
  case_decide as Hne; [|by apply elem_of_nil in Hedge]. destruct Hne as [Hnea Hneb].
  exists way, a, b, na, nb, ua, ub. simpl.
  apply elem_of_cons in Hedge as [[= -> -> ->]|Hedge].
  { split_and!; try done. by left. }
  apply list_elem_of_singleton in Hedge as [= -> -> ->].
  split_and!; try done. by right.
Qed.

Lemma edgesAfter_ids : NoDup (GraphEdge.id <$> edgesAfter).
Proof. apply createManyEdges_spec, NoDup_nil_2. Qed.

(** The row of a node identifier carries the coordinates of its OSM
    node. *)
Lemma nodeIdMap_coordinates o u n row :
  nodeIdMap !! o = Some u → osmNodes !! o = Some n →
  row ∈ nodesAfter → GraphNode.id row = u →
  GraphNode.latitude row = OSMNode.lat n ∧ GraphNode.longitude row = OSMNode.lon n.
Proof.
  intros (r & Hr & Ho & Hu)%nodeIdMap_row Hn Hrow Hid.
  assert (row = r) as ->.
  { apply (NoDup_fmap_eq GraphNode.id nodesAfter);
      [apply nodesAfter_ids|done|done|congruence]. }
  destruct (nodesAfter_row r Hr) as (k & n' & Heq & Hn'). rewrite Ho in Hn'.
  rewrite Heq. simpl. by simplify_eq.
Qed.

End ImportFacts.

Lemma effectivePenalty_one e : GraphEdge.penalty e = 1%Q → effectivePenalty e = 1%Q.
Proof. intros Hp. unfold effectivePenalty. by rewrite Hp. Qed.

(** X19. A successful import replaces the graph by one that does not
    depend on what was stored before, and that meets what the pathfinder
    relies on: node and edge identifiers are unique, OSM identifiers are
    unique, every edge has penalty 1 and a base cost equal to its
    distance, both ends of every edge are node rows (the foreign keys
    hold), the distance of an edge is the straight-line distance between
    its end nodes, and no cost is negative. Assumed of [turf.distance]:
    it is symmetric and not negative; of the generated identifiers: they
    are not empty. *)
Theorem importGraph_wellformed (calculateDistance : Q → Q → Q → Q → Q) (uuid : nat → string)
    (db : GraphDb) (elements : list OSMElement) :
  (∀ lat1 lon1 lat2 lon2, (0 <= calculateDistance lat1 lon1 lat2 lon2)%Q) →
  (∀ lat1 lon1 lat2 lon2,
     (calculateDistance lat1 lon1 lat2 lon2 == calculateDistance lat2 lon2 lat1 lon1)%Q) →
  (∀ k, uuid k ≠ "") →
  let after := importGraph calculateDistance uuid db (AxiosResponse elements) in
  after.2 = ExitSuccess ∧
  after = importGraph calculateDistance uuid emptyDb (AxiosResponse elements) ∧
  NoDup (GraphNode.id <$> graphNode after.1) ∧
  NoDup (GraphNode.osmId <$> graphNode after.1) ∧
  NoDup (GraphEdge.id <$> graphEdge after.1) ∧
  (∀ n, n ∈ graphNode after.1 → GraphNode.id n ≠ "") ∧
  (∀ e, e ∈ graphEdge after.1 →
        GraphEdge.penalty e = 1%Q ∧ GraphEdge.baseCost e = GraphEdge.distance e) ∧
  foreignKeys after.1 ∧
  penaltiesAtLeastOne after.1 ∧
  edgesAtLeastStraight calculateDistance after.1 ∧
  costsNotNegative (graphEdge after.1).
Proof.
  intros Hnonneg Hsym Huuid after.
  destruct (fetchOSMData (AxiosResponse elements)) as [[osmNodes ways]|] eqn:Hfetch; [|done].
  subst after.
  rewrite (importGraph_stages calculateDistance uuid osmNodes ways db elements Hfetch).
  rewrite (importGraph_stages calculateDistance uuid osmNodes ways emptyDb elements Hfetch).
  cbn [fst snd graphNode graphEdge].
  pose proof (nodesAfter_ids uuid osmNodes ways) as [Hids Hosm].
  pose proof (edgesAfter_row calculateDistance uuid osmNodes ways) as Hedge.
  split_and!; try done.
  - apply edgesAfter_ids.
  - intros n (k & n' & -> & _)%nodesAfter_row. simpl. apply Huuid.
  - intros e (way & a & b & na & nb & ua & ub & Hway & Hab & Hna & Hnb & Hua & Hub
              & Hnea & Hneb & Hp & Hb & Hd & Hdir)%Hedge. done.
  - intros e (way & a & b & na & nb & ua & ub & Hway & Hab & Hna & Hnb & Hua & Hub
              & Hnea & Hneb & Hp & Hb & Hd & Hdir)%Hedge. cbn [graphNode].
    apply nodeIdMap_row in Hua as (ra & ? & _ & ?), Hub as (rb & ? & _ & ?).
    destruct Hdir as [[-> ->]|[-> ->]]; split; eauto.
  - intros e (way & a & b & na & nb & ua & ub & Hway & Hab & Hna & Hnb & Hua & Hub
              & Hnea & Hneb & Hp & Hb & Hd & Hdir)%Hedge.
    rewrite (effectivePenalty_one e Hp). done.
  - intros e u v
      (way & a & b & na & nb & ua & ub & Hway & Hab & Hna & Hnb & Hua & Hub
       & Hnea & Hneb & Hp & Hb & Hd & Hdir)%Hedge
      Hu Hv Huid Hvid. cbn [graphNode] in Hu, Hv. rewrite Hd.
    destruct Hdir as [[Hs Ht]|[Hs Ht]]; rewrite Hs in Huid; rewrite Ht in Hvid.
    + destruct (nodeIdMap_coordinates uuid osmNodes ways a ua na u
                  Hua Hna Hu Huid) as [-> ->].
      destruct (nodeIdMap_coordinates uuid osmNodes ways b ub nb v
                  Hub Hnb Hv Hvid) as [-> ->].
      apply Qle_refl.
    + destruct (nodeIdMap_coordinates uuid osmNodes ways b ub nb u
                  Hub Hnb Hu Huid) as [-> ->].
      destruct (nodeIdMap_coordinates uuid osmNodes ways a ua na v
                  Hua Hna Hv Hvid) as [-> ->].
      rewrite Hsym. apply Qle_refl.
  - intros e (way & a & b & na & nb & ua & ub & Hway & Hab & Hna & Hnb & Hua & Hub
              & Hnea & Hneb & Hp & Hb & Hd & Hdir)%Hedge.
    unfold edgeCost. rewrite (effectivePenalty_one e Hp), Hd.
    pose proof (Hnonneg (OSMNode.lat na) (OSMNode.lon na) (OSMNode.lat nb) (OSMNode.lon nb)).
    lra.
Qed.

Lemma meridianDistance_sym lat1 lon1 lat2 lon2 :
  (meridianDistance lat1 lon1 lat2 lon2 == meridianDistance lat2 lon2 lat1 lon1)%Q.
Proof.
  unfold meridianDistance.
  destruct (Qabs_cases (lat2 - lat1)) as [[? ->]|[? ->]],
           (Qabs_cases (lat1 - lat2)) as [[? ->]|[? ->]]; lra.
Qed.

Lemma exampleUuid_nonempty k : exampleUuid k ≠ "".
Proof. done. Qed.

Lemma importGraph_wellformed_witness :
  let after := importGraph meridianDistance exampleUuid straightDb exampleResponse in
  after.2 = ExitSuccess ∧
  after = importGraph meridianDistance exampleUuid emptyDb exampleResponse ∧
  NoDup (GraphNode.id <$> graphNode after.1) ∧
  NoDup (GraphNode.osmId <$> graphNode after.1) ∧
  NoDup (GraphEdge.id <$> graphEdge after.1) ∧
  (∀ n, n ∈ graphNode after.1 → GraphNode.id n ≠ "") ∧
  (∀ e, e ∈ graphEdge after.1 →
        GraphEdge.penalty e = 1%Q ∧ GraphEdge.baseCost e = GraphEdge.distance e) ∧
  foreignKeys after.1 ∧
  penaltiesAtLeastOne after.1 ∧
  edgesAtLeastStraight meridianDistance after.1 ∧
  costsNotNegative (graphEdge after.1).
Proof.
  apply (importGraph_wellformed meridianDistance exampleUuid straightDb).
  - apply meridianDistance_isDistance.
  - apply meridianDistance_sym.
  - apply exampleUuid_nonempty.
Defined.

(** ** The import script: nothing of the response is dropped *)

Lemma createManyNodes_all rows table :
  NoDup (GraphNode.id <$> table ++ rows) → NoDup (GraphNode.osmId <$> table ++ rows) →
  createManyNodes table rows = table ++ rows.
Proof.
  unfold createManyNodes. revert table.
  induction rows as [|row rows IH]; intros table Hid Hosm; simpl; [by rewrite app_nil_r|].
  rewrite decide_False.
  - rewrite IH; rewrite <- ?app_assoc; done.
  - rewrite Exists_exists. intros (r & Hr & [Heq|Heq]).
    + rewrite fmap_app, fmap_cons in Hid. apply NoDup_app in Hid as (_ & Hid & _).
      apply (Hid (GraphNode.id r)); [by apply list_elem_of_fmap_2|]. rewrite Heq. left.
    + rewrite fmap_app, fmap_cons in Hosm. apply NoDup_app in Hosm as (_ & Hosm & _).
      apply (Hosm (GraphNode.osmId r)); [by apply list_elem_of_fmap_2|]. rewrite Heq. left.
Qed.

Lemma createManyEdges_all rows table :
  NoDup (GraphEdge.id <$> table ++ rows) → createManyEdges table rows = table ++ rows.
Proof.
  unfold createManyEdges. revert table.
  induction rows as [|row rows IH]; intros table Hid; simpl; [by rewrite app_nil_r|].
  rewrite decide_False.
  - rewrite IH; rewrite <- ?app_assoc; done.
  - rewrite Exists_exists. intros (r & Hr & Heq).
    rewrite fmap_app, fmap_cons in Hid. apply NoDup_app in Hid as (_ & Hid & _).
    apply (Hid (GraphEdge.id r)); [by apply list_elem_of_fmap_2|]. rewrite Heq. left.
Qed.

Lemma nodeIdMap_NoDup (l : list GraphNode.t) r :
  NoDup (GraphNode.osmId <$> l) → r ∈ l →
  foldl (λ m node, <[GraphNode.osmId node := GraphNode.id node]> m)
        (∅ : gmap Z string) l !! GraphNode.osmId r = Some (GraphNode.id r).
Proof.
  induction l as [|x l IH] using rev_ind; [by intros _ ?%elem_of_nil|].
  rewrite fmap_app, foldl_snoc. intros (Hnd & Hx & _)%NoDup_app.
  intros [Hin| ->%list_elem_of_singleton]%elem_of_app; [|by rewrite lookup_insert_eq].
  rewrite lookup_insert_ne; [by apply IH|].
  intros Heq. apply (Hx (GraphNode.osmId r)); [by apply list_elem_of_fmap_2|].
  rewrite <- Heq. set_solver.
Qed.

Lemma elem_of_usedNodeIds (ways : list OSMWay.t) used o :
  o ∈ foldl (λ used way, foldl setAdd used (OSMWay.nodes way)) used ways ↔
  o ∈ used ∨ ∃ way, way ∈ ways ∧ o ∈ OSMWay.nodes way.
Proof.
  revert used. induction ways as [|way ways IH]; intros used; simpl.
  - split; [by left|]. by intros [?|(? & ?%elem_of_nil & _)].
  - rewrite IH, elem_of_foldl_setAdd. split.
    + intros [[?|?]|(w & Hw & Ho)]; [by left|right|right].
      * exists way. split; [left|done].
      * exists w. split; [by right|done].
    + intros [?|(w & [->|Hw]%elem_of_cons & Ho)]; [by left; left|by left; right|].
      right. by exists w.
Qed.

Lemma NoDup_usedNodeIds (ways : list OSMWay.t) used :
  NoDup used → NoDup (foldl (λ used way, foldl setAdd used (OSMWay.nodes way)) used ways).
Proof.
  revert used. induction ways as [|way ways IH]; intros used Hnd; simpl; [done|].
  by apply IH, NoDup_foldl_setAdd.
Qed.

Lemma filter_all {A} (P : A → Prop) `{∀ x, Decision (P x)} (l : list A) :
  (∀ x, x ∈ l → P x) → filter P l = l.
Proof.
  induction l as [|x l IH]; intros Hall; [done|].
  rewrite filter_cons_True by (apply Hall; left). f_equal. apply IH.
  intros y Hy. apply Hall. by right.
Qed.

Lemma elem_of_fst_fst {A B C} (l : list (A * B * C)) a :
  a ∈ l.*1.*1 → ∃ x, x ∈ l ∧ x.1.1 = a.
Proof.
  induction l as [|y l IH]; [by intros ?%elem_of_nil|].
  rewrite !fmap_cons. intros [->|(x & ? & ?)%IH]%elem_of_cons.
  - exists y. split; [left|done].
  - exists x. split; [by right|done].
Qed.

Section ImportComplete.

Variable calculateDistance : Q → Q → Q → Q → Q.
Variable uuid : nat → string.
Variable osmNodes : gmap Z OSMNode.t.
Variable ways : list OSMWay.t.

Hypothesis uuid_inj : Inj (=) (=) uuid.
Hypothesis uuid_nonempty : ∀ k, uuid k ≠ "".

Local Abbreviation usedNodeIds :=
  (foldl (λ used way, foldl setAdd used (OSMWay.nodes way)) [] ways).
Local Abbreviation nodesToCreate :=
  (omap (λ osmId, (λ n, (osmId, OSMNode.lat n, OSMNode.lon n)) <$> osmNodes !! osmId)
        usedNodeIds).
Local Abbreviation newNodes :=
  (imap (λ k '(osmId, lat, lon), GraphNode.mk (uuid k) osmId lat lon) nodesToCreate).
Local Abbreviation nodesAfter := (createManyNodes [] newNodes).
Local Abbreviation createdNodes :=
  (filter (λ n, GraphNode.osmId n ∈ nodesToCreate.*1.*1) nodesAfter).
Local Abbreviation nodeIdMap :=
  (foldl (λ m node, <[GraphNode.osmId node := GraphNode.id node]> m)
         (∅ : gmap Z string) createdNodes).
Local Abbreviation edgesToCreate :=
  (ways ≫= edgesOfWay calculateDistance osmNodes nodeIdMap).
Local Abbreviation newEdges :=
  (imap (λ k '(startNodeId, endNodeId, distance),
           GraphEdge.mk (uuid (length newNodes + k)) startNodeId endNodeId
                        distance distance 1)
        edgesToCreate).
Local Abbreviation edgesAfter := (createManyEdges [] newEdges).

Lemma newNodes_ids : GraphNode.id <$> newNodes = uuid <$> seq 0 (length nodesToCreate).
Proof.
  rewrite fmap_imap, <- imap_seq_0. apply imap_ext. by intros k [[o lat] lon] _.
Qed.

Lemma newNodes_osmIds : GraphNode.osmId <$> newNodes = nodesToCreate.*1.*1.
Proof.
  rewrite fmap_imap, <- list_fmap_compose, <- imap_const. apply imap_ext.
  by intros k [[o lat] lon] _.
Qed.

Lemma nodesToCreate_osmIds (used : list Z) o :
  o ∈ (omap (λ osmId, (λ n, (osmId, OSMNode.lat n, OSMNode.lon n)) <$> osmNodes !! osmId)
            used).*1.*1 →
  o ∈ used.
Proof.
  intros ([[o' lat] lon] & (o'' & Ho'' & Hn)%list_elem_of_omap & Heq)%elem_of_fst_fst.
  destruct (osmNodes !! o''); simplify_eq/=. done.
Qed.

Lemma NoDup_nodesToCreate : NoDup (nodesToCreate.*1.*1).
Proof.
  pose proof (NoDup_usedNodeIds ways [] (NoDup_nil_2)) as Hnd. revert Hnd.
  generalize usedNodeIds. intros used Hnd. induction Hnd as [|o used Ho Hnd IH].
  - apply NoDup_nil_2.
  - simpl. destruct (osmNodes !! o) as [n|]; simpl; [|done].
    apply NoDup_cons. split; [|done]. by intros ?%nodesToCreate_osmIds.
Qed.

Lemma nodesAfter_all : nodesAfter = newNodes.
Proof.
  rewrite createManyNodes_all; [done| |]; rewrite app_nil_l.
  - rewrite newNodes_ids. apply NoDup_fmap_2; [done|apply NoDup_seq].
  - rewrite newNodes_osmIds. apply NoDup_nodesToCreate.
Qed.

Lemma createdNodes_all : createdNodes = newNodes.
Proof.
  rewrite nodesAfter_all. apply filter_all. intros r Hr.
  rewrite <- newNodes_osmIds. by apply list_elem_of_fmap_2.
Qed.

Lemma nodeIdMap_lookup r :
  r ∈ newNodes → nodeIdMap !! GraphNode.osmId r = Some (GraphNode.id r).
Proof.
  intros Hr. rewrite createdNodes_all. apply nodeIdMap_NoDup; [|done].
  rewrite newNodes_osmIds. apply NoDup_nodesToCreate.
Qed.

Lemma newNodes_nonempty r : r ∈ newNodes → GraphNode.id r ≠ "".
Proof.
  intros (k & [[o lat] lon] & -> & _)%elem_of_lookup_imap_1. apply uuid_nonempty.
Qed.

(** A node of a way that the response describes gets a row. *)
Lemma newNodes_used way o n :
  way ∈ ways → o ∈ OSMWay.nodes way → osmNodes !! o = Some n →
  ∃ r, r ∈ newNodes ∧ GraphNode.osmId r = o ∧
       GraphNode.latitude r = OSMNode.lat n ∧ GraphNode.longitude r = OSMNode.lon n.
Proof.
  intros Hway Ho Hn.
  assert ((o, OSMNode.lat n, OSMNode.lon n) ∈ nodesToCreate) as Hin.
  { apply list_elem_of_omap. exists o. split; [|by rewrite Hn].
    apply elem_of_usedNodeIds. right. by exists way. }
  apply list_elem_of_lookup in Hin as [k Hk].
  exists (GraphNode.mk (uuid k) o (OSMNode.lat n) (OSMNode.lon n)). split; [|done].
  apply (elem_of_lookup_imap_2
           (λ k '(osmId, lat, lon), GraphNode.mk (uuid k) osmId lat lon) _ _ _ Hk).
Qed.

Lemma edgesAfter_all : edgesAfter = newEdges.
Proof.
  rewrite createManyEdges_all; [done|]. rewrite app_nil_l.
  assert (GraphEdge.id <$> newEdges =
          (λ k, uuid (length newNodes + k)) <$> seq 0 (length edgesToCreate)) as ->.
  { rewrite fmap_imap, <- imap_seq_0. apply imap_ext. by intros k [[s t] d] _. }
  apply NoDup_fmap_2_strong; [|apply NoDup_seq].
  intros x y _ _ Heq%uuid_inj. lia.
Qed.

Lemma newEdges_elem s t d :
  (s, t, d) ∈ edgesToCreate →
  ∃ e, e ∈ newEdges ∧ GraphEdge.startNodeId e = s ∧ GraphEdge.endNodeId e = t ∧
       GraphEdge.distance e = d.
Proof.
  intros [k Hk]%list_elem_of_lookup.
  exists (GraphEdge.mk (uuid (length newNodes + k)) s t d d 1). split; [|done].
  apply (elem_of_lookup_imap_2
           (λ k '(startNodeId, endNodeId, distance),
              GraphEdge.mk (uuid (length newNodes + k)) startNodeId endNodeId
                           distance distance 1) _ _ _ Hk).
Qed.

(** Two consecutive nodes of a way that the response describes are
    joined in both directions. *)
Lemma edgesToCreate_pair way a b na nb ra rb :
  way ∈ ways → (a, b) ∈ consecutive (OSMWay.nodes way) →
  osmNodes !! a = Some na → osmNodes !! b = Some nb →
  ra ∈ newNodes → GraphNode.osmId ra = a → rb ∈ newNodes → GraphNode.osmId rb = b →
  let d := calculateDistance (OSMNode.lat na) (OSMNode.lon na)
                             (OSMNode.lat nb) (OSMNode.lon nb) in
  (GraphNode.id ra, GraphNode.id rb, d) ∈ edgesToCreate ∧
  (GraphNode.id rb, GraphNode.id ra, d) ∈ edgesToCreate.
Proof.
  intros Hway Hab Hna Hnb Hra Ha Hrb Hb d.
  pose proof (nodeIdMap_lookup ra Hra) as Hua. rewrite Ha in Hua.
  pose proof (nodeIdMap_lookup rb Hrb) as Hub. rewrite Hb in Hub.
  assert (∀ x, x ∈ [(GraphNode.id ra, GraphNode.id rb, d); (GraphNode.id rb, GraphNode.id ra, d)] →
               x ∈ edgesToCreate) as Hboth; [|split; apply Hboth; set_solver].
  intros x Hx. apply list_elem_of_bind. exists way. split; [|done].
  unfold edgesOfWay. apply list_elem_of_bind. exists (a, b). split; [|done].
  rewrite Hna, Hnb, Hua, Hub. rewrite decide_True; [done|].
  split; by apply newNodes_nonempty.
Qed.

(** An edge and its reverse are created together. *)
Lemma edgesToCreate_sym s t d :
  (s, t, d) ∈ edgesToCreate → (t, s, d) ∈ edgesToCreate.
Proof.
  intros (way & Hedge & Hway)%list_elem_of_bind. apply list_elem_of_bind.
  exists way. split; [|done]. unfold edgesOfWay in *.
  apply list_elem_of_bind in Hedge as ([a b] & Hedge & Hab).
  apply list_elem_of_bind. exists (a, b). split; [|done].
  destruct (osmNodes !! a) as [na|]; [|by apply elem_of_nil in Hedge].
  destruct (osmNodes !! b) as [nb|]; [|by apply elem_of_nil in Hedge].
  destruct (nodeIdMap !! a) as [ua|]; [|by apply elem_of_nil in Hedge].
  destruct (nodeIdMap !! b) as [ub|]; [|by apply elem_of_nil in Hedge].
  case_decide; [|by apply elem_of_nil in Hedge].
  apply elem_of_cons in Hedge as [[= -> -> ->]|Hedge]; [set_solver|].
  apply list_elem_of_singleton in Hedge as [= -> -> ->]. set_solver.
Qed.

Lemma nodesAfter_used way o n :
  way ∈ ways → o ∈ OSMWay.nodes way → osmNodes !! o = Some n →
  ∃ r, r ∈ nodesAfter ∧ GraphNode.osmId r = o ∧
       GraphNode.latitude r = OSMNode.lat n ∧ GraphNode.longitude r = OSMNode.lon n.
Proof. rewrite nodesAfter_all. apply newNodes_used. Qed.

Lemma edgesAfter_elem s t d :
  (s, t, d) ∈ edgesToCreate →
  ∃ e, e ∈ edgesAfter ∧ GraphEdge.startNodeId e = s ∧ GraphEdge.endNodeId e = t ∧
       GraphEdge.distance e = d.
Proof. rewrite edgesAfter_all. apply newEdges_elem. Qed.

Lemma edgesAfter_pair way a b na nb ra rb :
  way ∈ ways → (a, b) ∈ consecutive (OSMWay.nodes way) →
  osmNodes !! a = Some na → osmNodes !! b = Some nb →
  ra ∈ nodesAfter → GraphNode.osmId ra = a → rb ∈ nodesAfter → GraphNode.osmId rb = b →
  let d := calculateDistance (OSMNode.lat na) (OSMNode.lon na)
                             (OSMNode.lat nb) (OSMNode.lon nb) in
  (GraphNode.id ra, GraphNode.id rb, d) ∈ edgesToCreate ∧
  (GraphNode.id rb, GraphNode.id ra, d) ∈ edgesToCreate.
Proof.
  intros Hway Hab Hna Hnb Hra Ha Hrb Hb. rewrite nodesAfter_all in Hra, Hrb.
  by apply (edgesToCreate_pair way a b).
Qed.

Lemma edgesAfter_sym e :
  e ∈ edgesAfter →
  ∃ e', e' ∈ edgesAfter ∧
        GraphEdge.startNodeId e' = GraphEdge.endNodeId e ∧
        GraphEdge.endNodeId e' = GraphEdge.startNodeId e ∧
        GraphEdge.distance e' = GraphEdge.distance e.
Proof.
  intros He. pose proof He as Hnew. rewrite edgesAfter_all in Hnew.
  apply elem_of_lookup_imap_1 in Hnew as (k & [[s t] d] & -> & Hk%list_elem_of_lookup_2).
  apply edgesToCreate_sym, edgesAfter_elem in Hk as (e' & ? & ? & ? & ?). by exists e'.
Qed.

End ImportComplete.

Lemma elem_of_consecutive (l : list Z) a b :
  (a, b) ∈ consecutive l → a ∈ l ∧ b ∈ l.
Proof.
  unfold consecutive. intros Hab. split; [by eapply elem_of_zip_l|].
  apply elem_of_zip_r in Hab. destruct l; [done|]. by right.
Qed.

(** X20. With distinct, non-empty generated identifiers, a successful
    import drops nothing of the response: every node of a way that the
    response describes gets a node row with its OSM identifier and
    coordinates; every two consecutive nodes of a way that are both
    described get an edge in each direction, with the distance between
    them; and every edge row has its reverse with the same distance. *)
Theorem importGraph_complete (calculateDistance : Q → Q → Q → Q → Q) (uuid : nat → string)
    (db : GraphDb) (elements : list OSMElement)
    (osmNodes : gmap Z OSMNode.t) (ways : list OSMWay.t) :
  Inj (=) (=) uuid →
  (∀ k, uuid k ≠ "") →
  fetchOSMData (AxiosResponse elements) = Some (osmNodes, ways) →
  let after := (importGraph calculateDistance uuid db (AxiosResponse elements)).1 in
  (∀ way o n, way ∈ ways → o ∈ OSMWay.nodes way → osmNodes !! o = Some n →
     ∃ row, row ∈ graphNode after ∧ GraphNode.osmId row = o ∧
            GraphNode.latitude row = OSMNode.lat n ∧
            GraphNode.longitude row = OSMNode.lon n) ∧
  (∀ way a b na nb,
     way ∈ ways → (a, b) ∈ consecutive (OSMWay.nodes way) →
     osmNodes !! a = Some na → osmNodes !! b = Some nb →
     ∃ ra rb forth back,
       ra ∈ graphNode after ∧ GraphNode.osmId ra = a ∧
       rb ∈ graphNode after ∧ GraphNode.osmId rb = b ∧
       forth ∈ graphEdge after ∧ back ∈ graphEdge after ∧
       GraphEdge.startNodeId forth = GraphNode.id ra ∧
       GraphEdge.endNodeId forth = GraphNode.id rb ∧
       GraphEdge.startNodeId back = GraphNode.id rb ∧
       GraphEdge.endNodeId back = GraphNode.id ra ∧
       GraphEdge.distance forth =
         calculateDistance (OSMNode.lat na) (OSMNode.lon na)
                           (OSMNode.lat nb) (OSMNode.lon nb) ∧
       GraphEdge.distance back = GraphEdge.distance forth) ∧
  (∀ e, e ∈ graphEdge after →
     ∃ e', e' ∈ graphEdge after ∧
           GraphEdge.startNodeId e' = GraphEdge.endNodeId e ∧
           GraphEdge.endNodeId e' = GraphEdge.startNodeId e ∧
           GraphEdge.distance e' = GraphEdge.distance e).
Proof.
  intros Hinj Hne Hfetch after. subst after.
  rewrite (importGraph_stages calculateDistance uuid osmNodes ways db elements Hfetch).
  cbn [fst graphNode graphEdge]. split_and!.
  - intros way o n Hway Ho Hn. by apply (nodesAfter_used uuid osmNodes ways Hinj way).
  - intros way a b na nb Hway Hab Hna Hnb.
    destruct (elem_of_consecutive _ _ _ Hab) as [Ha Hb].
    destruct (nodesAfter_used uuid osmNodes ways Hinj way a na Hway Ha Hna)
      as (ra & Hra & Hoa & _).
    destruct (nodesAfter_used uuid osmNodes ways Hinj way b nb Hway Hb Hnb)
      as (rb & Hrb & Hob & _).
    destruct (edgesAfter_pair calculateDistance uuid osmNodes ways Hinj Hne
                way a b na nb ra rb Hway Hab Hna Hnb Hra Hoa Hrb Hob) as [Hforth Hback].
    apply (edgesAfter_elem calculateDistance uuid osmNodes ways Hinj) in Hforth
      as (forth & ? & ? & ? & ?).
    apply (edgesAfter_elem calculateDistance uuid osmNodes ways Hinj) in Hback
      as (back & ? & ? & ? & ?).
    exists ra, rb, forth, back. split_and!; try done. congruence.
  - intros e He. by apply (edgesAfter_sym calculateDistance uuid osmNodes ways Hinj Hne).
Qed.

Lemma exampleUuid_inj : Inj (=) (=) exampleUuid.
Proof.
  intros j k Heq. unfold exampleUuid in Heq. simpl in Heq.
  injection Heq as Heq. by apply (inj pretty).
Qed.

Lemma importGraph_complete_witness :
  let osmNodes : gmap Z OSMNode.t :=
    <[2%Z := OSMNode.mk 2 (1#100) 0]> (<[1%Z := OSMNode.mk 1 0 0]> ∅) in
  let ways := [OSMWay.mk 10 [1; 2]%Z] in
  let after := (importGraph meridianDistance exampleUuid straightDb exampleResponse).1 in
  (∀ way o n, way ∈ ways → o ∈ OSMWay.nodes way → osmNodes !! o = Some n →
     ∃ row, row ∈ graphNode after ∧ GraphNode.osmId row = o ∧
            GraphNode.latitude row = OSMNode.lat n ∧
            GraphNode.longitude row = OSMNode.lon n) ∧
  (∀ way a b na nb,
     way ∈ ways → (a, b) ∈ consecutive (OSMWay.nodes way) →
     osmNodes !! a = Some na → osmNodes !! b = Some nb →
     ∃ ra rb forth back,
       ra ∈ graphNode after ∧ GraphNode.osmId ra = a ∧
       rb ∈ graphNode after ∧ GraphNode.osmId rb = b ∧
       forth ∈ graphEdge after ∧ back ∈ graphEdge after ∧
       GraphEdge.startNodeId forth = GraphNode.id ra ∧
       GraphEdge.endNodeId forth = GraphNode.id rb ∧
       GraphEdge.startNodeId back = GraphNode.id rb ∧
       GraphEdge.endNodeId back = GraphNode.id ra ∧
       GraphEdge.distance forth =
         meridianDistance (OSMNode.lat na) (OSMNode.lon na)
                          (OSMNode.lat nb) (OSMNode.lon nb) ∧
       GraphEdge.distance back = GraphEdge.distance forth) ∧
  (∀ e, e ∈ graphEdge after →
     ∃ e', e' ∈ graphEdge after ∧
           GraphEdge.startNodeId e' = GraphEdge.endNodeId e ∧
           GraphEdge.endNodeId e' = GraphEdge.startNodeId e ∧
           GraphEdge.distance e' = GraphEdge.distance e).
Proof.
  intros osmNodes ways.
  apply (importGraph_complete meridianDistance exampleUuid straightDb _ osmNodes ways).
  - exact exampleUuid_inj.
  - exact exampleUuid_nonempty.
  - reflexivity.
Defined.

(** ** Routes on an imported graph *)

Lemma isPath_reverse edges u p v :
  (∀ e, e ∈ edges →
        ∃ e', e' ∈ edges ∧ GraphEdge.startNodeId e' = GraphEdge.endNodeId e ∧
              GraphEdge.endNodeId e' = GraphEdge.startNodeId e) →
  isPath edges u p v → ∃ p', isPath edges v p' u.
Proof.
  intros Hsym. induction 1 as [u|u e p v He Hs Hp [p' IH]]; [exists []; constructor|].
  destruct (Hsym e He) as (e' & He' & Hs' & Ht'). exists (p' ++ [e']).
  rewrite <- Hs, <- Ht'. apply isPath_snoc; [by rewrite Hs'|done].
Qed.

Lemma importGraph_graph (calculateDistance : Q → Q → Q → Q → Q) (uuid : nat → string)
    (db : GraphDb) (elements : list OSMElement) :
  (∀ lat1 lon1 lat2 lon2, (0 <= calculateDistance lat1 lon1 lat2 lon2)%Q) →
  let graph := (importGraph calculateDistance uuid db (AxiosResponse elements)).1 in
  foreignKeys graph ∧ costsNotNegative (graphEdge graph).
Proof.
  intros Hnonneg graph.
  destruct (fetchOSMData (AxiosResponse elements)) as [[osmNodes ways]|] eqn:Hfetch; [|done].
  subst graph.
  rewrite (importGraph_stages calculateDistance uuid osmNodes ways db elements Hfetch).
  cbn [fst graphNode graphEdge].
  pose proof (edgesAfter_row calculateDistance uuid osmNodes ways) as Hedge. split.
  - intros e (way & a & b & na & nb & ua & ub & Hway & Hab & Hna & Hnb & Hua & Hub
              & Hnea & Hneb & Hp & Hb & Hd & Hdir)%Hedge. cbn [graphNode].
    apply nodeIdMap_row in Hua as (ra & ? & _ & ?), Hub as (rb & ? & _ & ?).
    destruct Hdir as [[-> ->]|[-> ->]]; split; eauto.
  - intros e (way & a & b & na & nb & ua & ub & Hway & Hab & Hna & Hnb & Hua & Hub
              & Hnea & Hneb & Hp & Hb & Hd & Hdir)%Hedge.
    unfold edgeCost. rewrite (effectivePenalty_one e Hp), Hd.
    pose proof (Hnonneg (OSMNode.lat na) (OSMNode.lon na) (OSMNode.lat nb) (OSMNode.lon nb)).
    lra.
Qed.

Lemma importGraph_symmetric (calculateDistance : Q → Q → Q → Q → Q) (uuid : nat → string)
    (db : GraphDb) (elements : list OSMElement) :
  Inj (=) (=) uuid →
  (∀ k, uuid k ≠ "") →
  let graph := (importGraph calculateDistance uuid db (AxiosResponse elements)).1 in
  ∀ e, e ∈ graphEdge graph →
       ∃ e', e' ∈ graphEdge graph ∧ GraphEdge.startNodeId e' = GraphEdge.endNodeId e ∧
             GraphEdge.endNodeId e' = GraphEdge.startNodeId e.
Proof.
  intros Hinj Hne graph.
  destruct (fetchOSMData (AxiosResponse elements)) as [[osmNodes ways]|] eqn:Hfetch; [|done].
  subst graph.
  rewrite (importGraph_stages calculateDistance uuid osmNodes ways db elements Hfetch).
  cbn [fst graphEdge]. intros e He.
  destruct (edgesAfter_sym calculateDistance uuid osmNodes ways Hinj Hne e He)
    as (e' & ? & ? & ? & _).
  by exists e'.
Qed.

(** X22. On a graph just imported (distinct non-empty generated
    identifiers, [turf.distance] not negative), routing is symmetric:
    [findPath] returns a route from A to B exactly when it returns one
    from B to A. *)
Theorem importGraph_routes_both_ways (calculateDistance heuristic : Q → Q → Q → Q → Q)
    {T : Type} `{TinyQueue T} (laws : TinyQueueLaws T) (uuid : nat → string)
    (db : GraphDb) (elements : list OSMElement)
    (latA lngA latB lngB : Q) (nodeA nodeB : PathNode.t) :
  Inj (=) (=) uuid →
  (∀ k, uuid k ≠ "") →
  (∀ lat1 lon1 lat2 lon2, (0 <= calculateDistance lat1 lon1 lat2 lon2)%Q) →
  let graph := (importGraph calculateDistance uuid db (AxiosResponse elements)).1 in
  findNearestNode heuristic graph latA lngA = Some nodeA →
  findNearestNode heuristic graph latB lngB = Some nodeB →
  (∃ log result,
     findPath heuristic graph latA lngA latB lngB = Returns (log, Some result)) ↔
  (∃ log result,
     findPath heuristic graph latB lngB latA lngA = Returns (log, Some result)).
Proof.
  intros Hinj Hne Hnonneg graph HA HB.
  destruct (importGraph_graph calculateDistance uuid db elements Hnonneg) as [Hfk Hcosts].
  pose proof (importGraph_symmetric calculateDistance uuid db elements Hinj Hne) as Hsym.
  fold graph in Hfk, Hcosts, Hsym. split.
  - intros (log & result & Hret).
    destruct (findPath_Some_path heuristic laws graph _ _ _ _ _ _ _ _ HA HB Hret) as [p Hp].
    destruct (isPath_reverse _ _ _ _ Hsym Hp) as [p' Hp'].
    by eapply (findPath_path_Some heuristic laws graph).
  - intros (log & result & Hret).
    destruct (findPath_Some_path heuristic laws graph _ _ _ _ _ _ _ _ HB HA Hret) as [p Hp].
    destruct (isPath_reverse _ _ _ _ Hsym Hp) as [p' Hp'].
    by eapply (findPath_path_Some heuristic laws graph).
Qed.

Lemma importGraph_routes_both_ways_witness :
  let graph := (importGraph meridianDistance exampleUuid straightDb exampleResponse).1 in
  (∃ log result,
     findPath meridianDistance (T := list QueueItem.t) graph 0 0 (1#100) 0 =
     Returns (log, Some result)) ↔
  (∃ log result,
     findPath meridianDistance (T := list QueueItem.t) graph (1#100) 0 0 0 =
     Returns (log, Some result)).
Proof.
  apply (importGraph_routes_both_ways meridianDistance meridianDistance ListQueue_laws
           exampleUuid straightDb _ 0 0 (1#100) 0
           (PathNode.mk "node-0" 0 0) (PathNode.mk "node-1" (1#100) 0)).
  - exact exampleUuid_inj.
  - exact exampleUuid_nonempty.
  - apply meridianDistance_isDistance.
  - vm_compute. reflexivity.
  - vm_compute. reflexivity.
Defined.
